(** * Tandem: a shallow embedding of the process supervisor

    The development follows the Go package [tandem]: the command parser
    ([parseCommands], [parseNpmScripts], [filterCmdName], [wildcardMatch]),
    the output multiplexer ([WriteLine], [scanLines]), the supervised
    [process] ([Run], [Interrupt], [Kill], [Running]) and the shutdown
    coordinator of [ProcessManager] ([Run], [waitForExit]).

    Go strings are byte strings and are modelled by [string]; [[]byte] is
    [list byte]; Go maps are [gmap]s whose iteration order is supplied by the
    environment; [int] values are [Z]. *)

From stdpp Require Import base option list strings gmap.
From Stdlib Require Import ZArith Ascii Strings.Byte Numbers.DecimalString Lia.
From Stdlib Require DecimalZ DecimalPos.

Local Open Scope Z_scope.

(** ** Bytes and strings *)

#[global] Instance byte_eq_dec : EqDecision byte.
Proof.
  intros a b. destruct (Byte.eqb a b) eqn:E.
  - left. apply Byte.byte_dec_bl, E.
  - right. intros ->. rewrite Byte.byte_dec_lb in E by reflexivity. discriminate.
Defined.

(** [[]byte(s)] *)
Definition bytes (s : string) : list byte := String.list_byte_of_string s.

(** [s[n:]] and [s[:n]] on strings. *)
Fixpoint sdrop (n : nat) (s : string) : string :=
  match n, s with
  | O, _ => s
  | S _, EmptyString => EmptyString
  | S n', String _ s' => sdrop n' s'
  end.

Fixpoint stake (n : nat) (s : string) : string :=
  match n, s with
  | O, _ => EmptyString
  | S _, EmptyString => EmptyString
  | S n', String c s' => String c (stake n' s')
  end.

(** [%d] of package fmt. *)
Definition itoa (z : Z) : string := NilZero.string_of_int (Z.to_int z).

(** ** Package strings *)
Module strings.

(** [len(s) >= len(prefix) && s[:len(prefix)] == prefix] *)
Definition HasPrefix (s prefix : string) : bool :=
  (String.length prefix <=? String.length s)%nat
  && String.eqb (stake (String.length prefix) s) prefix.

(** [len(s) >= len(suffix) && s[len(s)-len(suffix):] == suffix] *)
Definition HasSuffix (s suffix : string) : bool :=
  (String.length suffix <=? String.length s)%nat
  && String.eqb (sdrop (String.length s - String.length suffix) s) suffix.

Definition TrimPrefix (s prefix : string) : string :=
  if HasPrefix s prefix then sdrop (String.length prefix) s else s.

(** [Contains(s, sep)], [Cut(s, sep)] and [Split(s, sep)] for a separator
    of one byte, the only kind the program passes. *)
Fixpoint Contains (s : string) (sep : ascii) : bool :=
  match s with
  | EmptyString => false
  | String c s' => if Ascii.eqb c sep then true else Contains s' sep
  end.

Fixpoint Cut (s : string) (sep : ascii) : string * string * bool :=
  match s with
  | EmptyString => (EmptyString, EmptyString, false)
  | String c s' =>
      if Ascii.eqb c sep then (EmptyString, s', true)
      else let '(before, after, found) := Cut s' sep in
           (String c before, after, found)
  end.

Fixpoint Split (s : string) (sep : ascii) : list string :=
  match s with
  | EmptyString => [EmptyString]
  | String c s' =>
      if Ascii.eqb c sep then EmptyString :: Split s' sep
      else match Split s' sep with
           | [] => [String c EmptyString]
           | p :: ps => String c p :: ps
           end
  end.

Fixpoint Join (elems : list string) (sep : string) : string :=
  match elems with
  | [] => EmptyString
  | [e] => e
  | e :: rest => e +:+ sep +:+ Join rest sep
  end.

(** The white space of [unicode.IsSpace], as UTF-8: the six ASCII
    characters, U+0085, U+00A0, U+1680, U+2000..U+200A, U+2028, U+2029,
    U+202F, U+205F and U+3000. *)
Definition utf8 (codes : list nat) : string :=
  String.string_of_list_ascii (map ascii_of_nat codes).

Definition spaces : list string :=
  map utf8
    [ [9]; [10]; [11]; [12]; [13]; [32]; [194; 133]; [194; 160];
      [225; 154; 128];
      [226; 128; 128]; [226; 128; 129]; [226; 128; 130]; [226; 128; 131];
      [226; 128; 132]; [226; 128; 133]; [226; 128; 134]; [226; 128; 135];
      [226; 128; 136]; [226; 128; 137]; [226; 128; 138];
      [226; 128; 168]; [226; 128; 169]; [226; 128; 175];
      [226; 129; 159]; [227; 128; 128] ]%nat.

(** The first white-space rune [s] starts with, or ends with. *)
Definition leadingSpace (s : string) : option string :=
  List.find (HasPrefix s) spaces.

Definition trailingSpace (s : string) : option string :=
  List.find (HasSuffix s) spaces.

Fixpoint trimLeft (fuel : nat) (s : string) : string :=
  match fuel with
  | O => s
  | S fuel' =>
      match leadingSpace s with
      | Some sp => trimLeft fuel' (sdrop (String.length sp) s)
      | None => s
      end
  end.

Fixpoint trimRight (fuel : nat) (s : string) : string :=
  match fuel with
  | O => s
  | S fuel' =>
      match trailingSpace s with
      | Some sp =>
          trimRight fuel' (stake (String.length s - String.length sp) s)
      | None => s
      end
  end.

(** [TrimSpace]: every white-space rune removed costs at least one byte, so
    the length of the string is fuel enough. *)
Definition TrimSpace (s : string) : string :=
  let s1 := trimLeft (String.length s) s in
  trimRight (String.length s1) s1.

(** [EqualFold]: the ASCII loop of the library; as soon as a byte outside
    ASCII is met the rest is compared by simple Unicode case folding, whose
    tables are not part of this development: [foldUnicode] stands for
    that comparison of the two remainders. *)
Section EqualFold.
Variable foldUnicode : string -> string -> bool.

Definition isASCII (c : ascii) : bool := (nat_of_ascii c <? 128)%nat.

Definition asciiFoldEq (sr tr : ascii) : bool :=
  let a := Nat.min (nat_of_ascii sr) (nat_of_ascii tr) in
  let b := Nat.max (nat_of_ascii sr) (nat_of_ascii tr) in
  if (a =? b)%nat then true
  else (65 <=? a)%nat && (a <=? 90)%nat && (b =? a + 32)%nat.

Fixpoint EqualFold (s t : string) : bool :=
  match s, t with
  | String sr s', String tr t' =>
      if isASCII sr && isASCII tr then
        if asciiFoldEq sr tr then EqualFold s' t' else false
      else foldUnicode s t
  | EmptyString, EmptyString => true
  | _, _ => false
  end.
End EqualFold.

End strings.

(** ** Package path/filepath (Unix) *)
Module filepath.

Definition Separator : ascii := "/"%char.

Fixpoint trimTrailingSeparators (path : string) : string :=
  match path with
  | EmptyString => EmptyString
  | String c rest =>
      match trimTrailingSeparators rest with
      | EmptyString =>
          if Ascii.eqb c Separator then EmptyString else String c EmptyString
      | r => String c r
      end
  end.

Fixpoint lastElement (path : string) : string :=
  match path with
  | EmptyString => EmptyString
  | String c rest =>
      if strings.Contains rest Separator then lastElement rest
      else if Ascii.eqb c Separator then rest else path
  end.

(** [Base]: the last element of the path, trailing separators removed
    first; [.] for the empty path and [/] for a path of separators. *)
Definition Base (path : string) : string :=
  if String.eqb path "" then "."
  else
    let path := lastElement (trimTrailingSeparators path) in
    if String.eqb path "" then "/" else path.

End filepath.

(** ** Package ansi *)
Module ansi.

Definition ESC : string := String "027"%char EmptyString.

Section Color.
(** The package variable [NoColor]. *)
Variable NoColor : bool.

Definition Red (s : string) : string :=
  if NoColor then s else ESC +:+ "[0;31m" +:+ s +:+ ESC +:+ "[0m".

Definition Dim (s : string) : string :=
  if NoColor then s else ESC +:+ "[0;2m" +:+ s +:+ ESC +:+ "[0m".

Definition ColorStart (i : Z) : string :=
  if NoColor then "" else ESC +:+ "[0;38;5;" +:+ itoa i +:+ "m".

Definition ColorEnd : string :=
  if NoColor then "" else ESC +:+ "[0m".
End Color.

End ansi.

(** ** The environment

    What the program obtains from the operating system and from libraries
    outside the repository.  A Go [range] over a map visits the entries in
    an order the runtime picks anew each time: [rangeScripts] (indexed by
    the position of the command whose wildcard is being resolved) and
    [rangeNames] give the order of each such loop. *)
Record World := {
  NoColor : bool;
  Abs : string -> string + string;
  Join : string -> string -> string;
  Environ : list string;
  IsDir : string -> bool;
  ReadFile : string -> string + list byte;
  Unmarshal : list byte -> string + gmap string string;
  foldUnicode : string -> string -> bool;
  rangeScripts : nat -> gmap string string -> list (string * string);
  rangeNames : gmap string (list nat) -> list (string * list nat)
}.

(** A [range] visits every entry of the map exactly once. *)
Definition range_ok (w : World) : Prop :=
  (forall i m, rangeScripts w i m ≡ₚ map_to_list m)
  /\ (forall m, rangeNames w m ≡ₚ map_to_list m).

(** Errors of [New], [parseCommands] and [parseNpmScripts], one constructor
    per [fmt.Errorf] of the source, carrying the values it formats. *)
Inductive error :=
| ErrAbsPath (e : string)
| ErrReadPackageJSON (e : string)
| ErrParsePackageJSON (e : string)
| ErrNoScriptsMatching (scriptName : string)
| ErrNoScriptsNamed (noun : string) (missing : string).

Record command := mkCommand { name : string; cmd : string }.

#[global] Instance command_eq_dec : EqDecision command.
Proof. solve_decision. Defined.

(** ** Command parsing *)
Module Commands.
Section WithWorld.
Variable w : World.

Definition filterCmdName (cmd : string) : string :=
  let '(name, _, _) := strings.Cut (strings.TrimSpace cmd) " " in
  let name := filepath.Base name in
  if String.eqb name "." || String.eqb name (String filepath.Separator "")
  then "" else name.

Definition wildcardMatch (pattern s : string) : bool :=
  let parts := strings.Split pattern "*" in
  match parts with
  | [_] => strings.EqualFold (foldUnicode w) pattern s
  | [p0; p1] =>
      if String.eqb p0 "" then strings.HasSuffix s p1
      else if String.eqb p1 "" then strings.HasPrefix s p0
      else strings.HasPrefix s p0 && strings.HasSuffix s p1
  | _ => false
  end.

(** The inner loop of [parseNpmScripts]: the scripts, in the order of
    this [range], that match the wildcard are appended. *)
Definition matchScripts (scriptName : string)
    (entries : list (string * string)) (result : list command)
    : list command * bool :=
  foldl (fun (acc : list command * bool) (entry : string * string) =>
           let '(result, hasMatch) := acc in
           let '(name, pcmd) := entry in
           if wildcardMatch scriptName name
           then (result ++ [mkCommand name pcmd], true)
           else (result, hasMatch))
        (result, false) entries.

(** The loop of [parseNpmScripts] over the commands, from position [i],
    with the [result] and [missingCommands] built so far. *)
Fixpoint npmLoop (scripts : gmap string string) (i : nat)
    (cmds : list string) (result : list command) (missing : list string)
    : error + (list command * list string) :=
  match cmds with
  | [] => inr (result, missing)
  | cmd :: rest =>
      let scriptName := strings.TrimPrefix cmd "npm:" in
      match scripts !! scriptName with
      | Some s =>
          npmLoop scripts (S i) rest
                  (result ++ [mkCommand scriptName s]) missing
      | None =>
          if negb (strings.Contains scriptName "*") then
            npmLoop scripts (S i) rest result (missing ++ [scriptName])
          else
            let '(result', hasMatch) :=
              matchScripts scriptName (rangeScripts w i scripts) result in
            if hasMatch then npmLoop scripts (S i) rest result' missing
            else inl (ErrNoScriptsMatching scriptName)
      end
  end.

Definition parseNpmScripts (b : list byte) (cmds : list string)
    : error + list command :=
  match Unmarshal w b with
  | inl e => inl (ErrParsePackageJSON e)
  | inr scripts =>
      match npmLoop scripts 0 cmds [] [] with
      | inl e => inl e
      | inr (result, missingCommands) =>
          if (0 <? length missingCommands)%nat then
            let noun :=
              if (length missingCommands =? 1)%nat then "script"
              else "scripts" in
            inl (ErrNoScriptsNamed noun (strings.Join missingCommands ","))
          else inr result
      end
  end.

(** The first loop of [parseCommands]: plain commands go to [result],
    commands whose name starts with [npm:] to [npmCommands]. *)
Fixpoint classify (cmds : list string) (result : list command)
    (npmCommands : list string) : list command * list string :=
  match cmds with
  | [] => (result, npmCommands)
  | cmd :: rest =>
      let name := filterCmdName cmd in
      let name := if String.eqb name "" then "cmd" else name in
      if strings.HasPrefix name "npm:"
      then classify rest result (npmCommands ++ [cmd])
      else classify rest (result ++ [mkCommand name cmd]) npmCommands
  end.

(** [namesMap]: name -> indexes of the commands with that name. *)
Definition namesMapOf (result : list command) : gmap string (list nat) :=
  foldl (fun (m : gmap string (list nat)) (ic : nat * command) =>
           let '(i, c) := ic in
           <[name c := default [] (m !! name c) ++ [i]]> m)
        ∅ (imap pair result).

(** [cmd := result[idx]; cmd.name = "%s.%d"; result[idx] = cmd].  The
    indexes come from [namesMapOf] and are in range. *)
Definition renameAt (nm : string) (result : list command)
    (i_idx : nat * nat) : list command :=
  let '(i, idx) := i_idx in
  alter (fun c => mkCommand (nm +:+ "." +:+ itoa (Z.of_nat i + 1)) (cmd c))
        idx result.

Definition renameEntry (result : list command)
    (entry : string * list nat) : list command :=
  let '(nm, idxs) := entry in
  if (1 <? length idxs)%nat
  then foldl (renameAt nm) result (imap pair idxs)
  else result.

Definition renameDuplicates (result : list command) : list command :=
  foldl renameEntry result (rangeNames w (namesMapOf result)).

Definition parseCommands (root : string) (cmds : list string)
    : error + list command :=
  let '(result, npmCommands) := classify cmds [] [] in
  let scripts :=
    if (0 <? length npmCommands)%nat then
      match ReadFile w (Join w root "package.json") with
      | inl e => inl (ErrReadPackageJSON e)
      | inr b =>
          match parseNpmScripts b npmCommands with
          | inl e => inl e
          | inr scripts => inr (result ++ scripts)
          end
      end
    else inr result in
  match scripts with
  | inl e => inl e
  | inr result => inr (renameDuplicates result)
  end.

End WithWorld.
End Commands.

(** A world for examples: colours off, the manifest of the test suite, maps
    ranged over in key order. *)
Definition testScripts : gmap string string :=
  list_to_map [("dev:css", "echo 'css'"); ("dev:js", "echo 'js'");
               ("test", "echo 'test'")].

Definition testWorld : World := {|
  NoColor := true;
  Abs := fun p => inr ("/work/" +:+ p);
  Join := fun a b => a +:+ "/" +:+ b;
  Environ := ["HOME=/root"; "PATH=/usr/bin:/bin"];
  IsDir := fun _ => true;
  ReadFile := fun _ => inr [];
  Unmarshal := fun _ => inr testScripts;
  foldUnicode := fun _ _ => false;
  rangeScripts := fun _ m => map_to_list m;
  rangeNames := fun m => map_to_list m
|}.

(** ** Processes and the output multiplexer *)

Inductive Signal := SIGINT | SIGKILL.

(** The error of [p.Cmd.Run()]: an [*exec.ExitError] with its exit code, or
    any other error; both with the text of [Error()]. *)
Inductive ExecError :=
| ExitError (code : Z) (text : string)
| OtherError (text : string).

Definition errorText (e : ExecError) : string :=
  match e with ExitError _ t => t | OtherError t => t end.

(** A [process]: the fields of the struct and, of the embedded [*exec.Cmd],
    the command line, directory and environment, and the two fields
    [Running] reads: [Process] (the pid, set once started) and
    [ProcessState] (the exit code, set once waited for). *)
Record process := mkProcess {
  Name : string;
  Color : Z;
  silent : bool;
  Args : list string;
  Dir : string;
  Env : list string;
  Process : option Z;
  ProcessState : option Z
}.

(** [multiOutput]: the pipes are keyed by the position of the process in
    the manager, which stands for its address. *)
Record ptyPipe := mkPipe { opened : bool }.

Record multiOutput := mkOutput {
  maxNameLength : nat;
  pipes : gmap nat ptyPipe;
  printProcName : bool
}.

(** What a method does to the world outside the process: one write of a
    record to standard output, a signal sent through the handle of a process
    group, the pseudo-terminal of the process opened or closed, and [fatal]
    (a message on standard error and [os.Exit(1)]). *)
Inductive event :=
| Write (record : list byte)
| SendSignal (pid : Z) (sig : Signal)
| PipeOpened
| PipeClosed
| Fatal (msg : string)
| NilDereference.

Module Output.
Section WithWorld.
Variable w : World.

Definition Connect (m : multiOutput) (id : nat) (proc : process)
    : multiOutput :=
  {| maxNameLength :=
       if (maxNameLength m <? String.length (Name proc))%nat
       then String.length (Name proc) else maxNameLength m;
     pipes := <[id := mkPipe false]> (pipes m);
     printProcName := printProcName m |}.

(** [bytes.TrimPrefix] *)
Definition HasPrefix (s prefix : list byte) : bool :=
  (length prefix <=? length s)%nat
  && bool_decide (take (length prefix) s = prefix).

Definition TrimPrefix (s prefix : list byte) : list byte :=
  if HasPrefix s prefix then drop (length prefix) s else s.

(** The label of [WriteLine]: the loop [for i := len(proc.Name);
    i <= m.maxNameLength; i++] writes [maxNameLength + 1 - len] spaces,
    none when the name is longer. *)
Definition label (m : multiOutput) (proc : process) : list byte :=
  if printProcName m then
    bytes (ansi.ColorStart (NoColor w) (Color proc))
    ++ bytes (Name proc)
    ++ replicate (S (maxNameLength m) - String.length (Name proc))
                 " "%byte
    ++ bytes (ansi.ColorEnd (NoColor w) +:+ " ")
  else [].

(** [WriteLine]: the record handed to [os.Stdout] in one write. *)
Definition WriteLine (m : multiOutput) (proc : process) (p : list byte)
    : list byte :=
  label m proc ++ TrimPrefix p (bytes "/bin/sh: ") ++ ["010"%byte].

Definition WriteErr (m : multiOutput) (proc : process) (err : string)
    : list byte :=
  WriteLine m proc (bytes (ansi.Red (NoColor w) err)).

End WithWorld.
End Output.

Module Proc.
Section WithWorld.
Variable w : World.
(** The [multiOutput] every process points to. *)
Variable m : multiOutput.

Definition Running (p : process) : bool :=
  bool_decide (Process p <> None) && bool_decide (ProcessState p = None).

Definition writeLine (p : process) (b : list byte) : list event :=
  [Write (Output.WriteLine w m p b)].

Definition writeDebug (p : process) (s : string) : list event :=
  writeLine p (bytes (ansi.Dim (NoColor w) s)).

Definition writeErr (p : process) (err : string) : list event :=
  [Write (Output.WriteErr w m p err)].

(** [os.FindProcess] on Unix always succeeds. *)
Definition FindProcess (pid : Z) : string + Z := inr pid.

(** [signal]: [sigErr] is the answer of [group.Signal(sig)]. *)
Definition signal (p : process) (sig : Signal) (sigErr : option string)
    : list event :=
  match Process p with
  | None => [NilDereference]
  | Some pid =>
      match FindProcess (- pid) with
      | inl err => writeErr p err
      | inr group =>
          SendSignal group sig
          :: match sigErr with
             | Some err => writeErr p err
             | None => []
             end
      end
  end.

Definition Interrupt (p : process) (sigErr : option string)
    : list event :=
  if Running p then
    (if negb (silent p) then writeDebug p "Interrupting..." else [])
    ++ signal p SIGINT sigErr
  else [].

Definition Kill (p : process) (sigErr : option string) : list event :=
  if Running p then
    (if negb (silent p) then writeDebug p "Killing..." else [])
    ++ signal p SIGKILL sigErr
  else [].

(** What the operating system answers during [Run]: whether the
    pseudo-terminal could be allocated, and for [p.Cmd.Run()] the pid
    and exit code it leaves in the command and the error it returns. *)
Record Execution := mkExecution {
  ptyErr : option string;
  pid : option Z;
  exitCode : option Z;
  runErr : option ExecError
}.

Definition afterRun (p : process) (x : Execution) : process :=
  mkProcess (Name p) (Color p) (silent p) (Args p) (Dir p) (Env p)
            (pid x) (exitCode x).

(** [Run]: [PipeOutput] first ([fatal] when no pseudo-terminal can be
    had), [ClosePipe] deferred to the end. *)
Definition Run (p : process) (x : Execution) : process * list event :=
  match ptyErr x with
  | Some e => (p, [Fatal e])
  | None =>
      (afterRun p x,
       [PipeOpened]
       ++ (if negb (silent p) then writeDebug p "Starting..." else [])
       ++ match runErr x with
          | Some (ExitError code text) =>
              if code =? 1 then writeErr p text
              else writeLine p
                     (bytes (ansi.Dim (NoColor w)
                               ("exit status " +:+ itoa code)))
          | Some (OtherError text) => writeErr p text
          | None =>
              if negb (silent p) then writeDebug p "Process exited"
              else []
          end
       ++ [PipeClosed])
  end.

End WithWorld.
End Proc.

(** ** Packages io and bufio

    A stream to read from: the chunks that successive calls of [Read]
    deliver (a chunk longer than the space offered is delivered in pieces)
    and the error every [Read] returns once the chunks are used up, [EOF] at
    the end of a file. *)
Inductive ioError := EOF | ErrClosedPipe | ErrNoProgress | ErrOther (msg : string).

#[global] Instance ioError_eq_dec : EqDecision ioError.
Proof. solve_decision. Defined.

Module io.
Record Reader := mkReader { chunks : list (list byte); final : ioError }.

(** [Read(p)] with [len(p) = space]: the bytes read, the error, and the
    reader afterwards. *)
Definition Read (r : Reader) (space : nat)
    : list byte * option ioError * Reader :=
  match chunks r with
  | [] => ([], Some (final r), r)
  | c :: cs =>
      if (length c <=? space)%nat then (c, None, mkReader cs (final r))
      else (take space c, None, mkReader (drop space c :: cs) (final r))
  end.

(** All the bytes of the stream. *)
Definition content (r : Reader) : list byte := concat (chunks r).
End io.

Module bufio.
Definition defaultBufSize : nat := 4096.
Definition maxConsecutiveEmptyReads : nat := 100.

(** A [bufio.Reader]: [buf] is the unread part [b.buf[b.r:b.w]] of a
    buffer of [size] bytes, [err] the pending error, [rd] the reader
    underneath. *)
Record Reader := mkReader {
  size : nat;
  buf : list byte;
  err : option ioError;
  rd : io.Reader
}.

Definition NewReader (rd : io.Reader) : Reader :=
  mkReader defaultBufSize [] None rd.

(** The error of [ReadSlice]. *)
Inductive sliceError := ErrBufferFull | ReadError (e : ioError).

(** [fill]: the unread bytes slide to the start of the buffer and one
    [Read] into the rest is tried, again while it returns nothing, at
    most [maxConsecutiveEmptyReads] times. *)
Fixpoint fillLoop (i : nat) (b : Reader) : Reader :=
  match i with
  | O => mkReader (size b) (buf b) (Some ErrNoProgress) (rd b)
  | S i' =>
      let '(data, e, rd') := io.Read (rd b) (size b - length (buf b)) in
      let b' := mkReader (size b) (buf b ++ data) (err b) rd' in
      match e with
      | Some e => mkReader (size b) (buf b ++ data) (Some e) rd'
      | None => if (0 <? length data)%nat then b' else fillLoop i' b'
      end
  end.

Definition fill (b : Reader) : Reader := fillLoop maxConsecutiveEmptyReads b.

(** [bytes.IndexByte] *)
Fixpoint IndexByte (l : list byte) (c : byte) : option nat :=
  match l with
  | [] => None
  | x :: l' => if decide (x = c) then Some O else S <$> IndexByte l' c
  end.

(** The loop of [ReadSlice]; the source searches only the bytes it has not
    searched yet, which finds the same index.  [None]: out of fuel. *)
Fixpoint ReadSliceLoop (fuel : nat) (b : Reader) (delim : byte)
    : option (list byte * option sliceError * Reader) :=
  match fuel with
  | O => None
  | S fuel' =>
      match IndexByte (buf b) delim with
      | Some i =>
          Some (take (S i) (buf b), None,
                mkReader (size b) (drop (S i) (buf b)) (err b) (rd b))
      | None =>
          match err b with
          | Some e =>
              Some (buf b, Some (ReadError e),
                    mkReader (size b) [] None (rd b))
          | None =>
              if (size b <=? length (buf b))%nat
              then Some (buf b, Some ErrBufferFull,
                         mkReader (size b) [] (err b) (rd b))
              else ReadSliceLoop fuel' (fill b) delim
          end
      end
  end.

(** Every turn of the loop but the last two uses up a chunk. *)
Definition ReadSlice (b : Reader) (delim : byte)
    : option (list byte * option sliceError * Reader) :=
  ReadSliceLoop (length (io.chunks (rd b)) + 2) b delim.

Definition CR : byte := "013"%byte.
Definition LF : byte := "010"%byte.

(** [ReadLine]: [(line, isPrefix, err)] and the reader afterwards. *)
Definition ReadLine (b : Reader)
    : option (list byte * bool * option ioError * Reader) :=
  match ReadSlice b LF with
  | None => None
  | Some (line, Some ErrBufferFull, b') =>
      if (0 <? length line)%nat && bool_decide (last line = Some CR)
      then Some (take (length line - 1) line, true, None,
                 mkReader (size b') [CR] (err b') (rd b'))
      else Some (line, true, None, b')
  | Some (line, e, b') =>
      if (length line =? 0)%nat then
        Some ([], false,
              match e with Some (ReadError e) => Some e | _ => None end, b')
      else if bool_decide (last line = Some LF) then
        let drop :=
          if (1 <? length line)%nat
             && bool_decide (line !! (length line - 2)%nat = Some CR)
          then 2%nat else 1%nat in
        Some (take (length line - drop) line, false, None, b')
      else Some (line, false, None, b')
  end.
End bufio.

(** ** scanLines

    The callback works on a state of its own: [callback st line] is the
    state it leaves and whether scanning goes on. *)
Module Scan.
Section WithCallback.
Context {St : Type}.
Variable callback : St -> list byte -> St * bool.

(** The loop of [scanLines], with the contents of [buf]; the result is
    the state of the callback and the error returned, [None] for
    [nil].  Out of fuel: [None]. *)
Fixpoint scanLoop (fuel : nat) (reader : bufio.Reader) (buf : list byte)
    (st : St) : option (St * option ioError) :=
  match fuel with
  | O => None
  | S fuel' =>
      match bufio.ReadLine reader with
      | None => None
      | Some (line, isPrefix, Some err, _) =>
          if bool_decide (err <> EOF) && bool_decide (err <> ErrClosedPipe)
          then Some (st, Some err) else Some (st, None)
      | Some (line, isPrefix, None, reader') =>
          let buf := buf ++ line in
          if negb isPrefix then
            let '(st', continue) := callback st buf in
            if negb continue then Some (st', None)
            else scanLoop fuel' reader' [] st'
          else scanLoop fuel' reader' buf st
      end
  end.

(** Every [ReadLine] that returns no error takes at least one byte of
    the stream. *)
Definition scanLines (r : io.Reader) (st : St)
    : option (St * option ioError) :=
  scanLoop (length (io.content r) + 1) (bufio.NewReader r) [] st.

(** The callback called on each line of a list in turn, until it asks to
    stop; [true] when it did. *)
Fixpoint feed (st : St) (lines : list (list byte)) : St * bool :=
  match lines with
  | [] => (st, false)
  | l :: rest =>
      let '(st', continue) := callback st l in
      if continue then feed st' rest else (st', true)
  end.
End WithCallback.

(** The callback that records its lines and always goes on. *)
Definition record (st : list (list byte)) (line : list byte)
    : list (list byte) * bool := (st ++ [line], true).
End Scan.

(** ** The process manager *)
Module Manager.

Definition colors : list Z := [2; 3; 4; 5; 6; 42; 130; 103; 129; 108].

Record Config := mkConfig {
  Cmds : list string;
  Root : string;
  Timeout : Z;
  Silent : bool
}.

(** [time.Duration] is an [int64] of nanoseconds. *)
Definition wrap64 (z : Z) : Z := (z + 2 ^ 63) mod 2 ^ 64 - 2 ^ 63.
Definition Second : Z := 1000000000.

Record ProcessManager := mkManager {
  output : multiOutput;
  procs : list process;
  timeout : Z;
  silent : bool
}.

Section WithWorld.
Variable w : World.

(** [injectPathVal] rewrites the entries of the slice in place. *)
Definition injectPathVal (env : list string) (val : string)
    : list string :=
  map (fun v => if strings.HasPrefix v "PATH="
                then "PATH=" +:+ val +:+ ":" +:+ strings.TrimPrefix v "PATH="
                else v) env.

(** [newProcess], for the process at position [id]: the command runs
    under [/bin/sh -c], and the process is connected to the output. *)
Definition newProcess (m : multiOutput) (id : nat) (nm cmdline : string)
    (color : Z) (dir : string) (env : list string) (sil : bool)
    : process * multiOutput :=
  let p := mkProcess nm color sil ["/bin/sh"; "-c"; cmdline] dir env
                     None None in
  (p, Output.Connect m id p).

Definition addProcess (root : string) (env : list string)
    (pm : ProcessManager) (ic : nat * command) : ProcessManager :=
  let '(i, c) := ic in
  let '(p, m) :=
    newProcess (output pm) i (name c) (cmd c)
               (default 0 (colors !! (i mod length colors)%nat))
               root env (silent pm) in
  mkManager m (procs pm ++ [p]) (timeout pm) (silent pm).

Definition New (cfg : Config) : error + ProcessManager :=
  match Abs w (Root cfg) with
  | inl err => inl (ErrAbsPath err)
  | inr root =>
      let pm := mkManager (mkOutput 0 ∅ true) []
                          (wrap64 (Timeout cfg * Second)) (Silent cfg) in
      let env := Environ w in
      let nodeBin := Join w (Root cfg) "node_modules/.bin" in
      let env := if IsDir w nodeBin then injectPathVal env nodeBin
                 else env in
      match Commands.parseCommands w root (Cmds cfg) with
      | inl err => inl err
      | inr namedCmds =>
          inr (foldl (addProcess root env) pm (imap pair namedCmds))
      end
  end.
End WithWorld.

(** *** [Run] and [waitForExit] as a transition system

    After [Run] has started its goroutines there are: one goroutine per
    process (in [proc.Run()], then the deferred [pm.done <- true], then
    the deferred [procWg.Done()]), the coordinator [waitForExit], and the
    caller blocked in [procWg.Wait()].  A schedule is a list of labels;
    [step] is the effect of one label, [None] when the goroutine it names
    cannot move.  [go proc.Interrupt()] and [go proc.Kill()] are logged at
    the [go] statement. *)
Inductive goroutine := InRun | Returned | Sent | Finished.

Inductive coordinator :=
| WaitDoneOrInterrupt
| Interrupting (k : nat)
| WaitTimeoutOrInterrupt (deadline : Z)
| Killing (k : nat)
| Exited.

Inductive action :=
| RunReturned (i : nat)
| DoneReceived (now : Z)
| SignalReceived (now : Z)
| GoInterrupt (i : nat)
| TimerStarted (now : Z)
| TimerFired (now : Z)
| GoKill (i : nat)
| ManagerReturned.

Inductive label :=
| ProcExits (i : nat)
| SendDone (i : nat)
| WgDone (i : nat)
| Coordinator
| SignalArrives
| Tick (d : Z)
| WaitReturns.

Record state := mkState {
  gor : list goroutine;
  done : nat;
  procWg : nat;
  coord : coordinator;
  returned : bool;
  now : Z;
  log : list action
}.

#[global] Instance goroutine_eq_dec : EqDecision goroutine.
Proof. solve_decision. Defined.
#[global] Instance action_eq_dec : EqDecision action.
Proof. solve_decision. Defined.

Section Run.
(** [len(pm.procs)] and [pm.timeout]. *)
Variable n : nat.
Variable timeout : Z.

(** The state when [Run] reaches [procWg.Wait()]: [pm.done] has room
    for [n] values and is empty, [procWg] counts [n]. *)
Definition init : state :=
  mkState (replicate n InRun) 0 n WaitDoneOrInterrupt false 0 [].

Definition setGor (s : state) (i : nat) (g : goroutine) : state :=
  mkState (<[i := g]> (gor s)) (done s) (procWg s) (coord s)
          (returned s) (now s) (log s).

Definition logged (s : state) (a : action) : state :=
  mkState (gor s) (done s) (procWg s) (coord s) (returned s) (now s)
          (log s ++ [a]).

Definition setCoord (s : state) (c : coordinator) : state :=
  mkState (gor s) (done s) (procWg s) c (returned s) (now s) (log s).

Definition setDone (s : state) (d : nat) : state :=
  mkState (gor s) d (procWg s) (coord s) (returned s) (now s) (log s).

(** One step of [waitForExit] that is not the receipt of a signal: a
    [select] takes [pm.done] or the timer when it is ready, a loop
    issues its next [go] statement. *)
Definition coordStep (s : state) : option state :=
  match coord s with
  | WaitDoneOrInterrupt =>
      if (0 <? done s)%nat
      then Some (logged (setCoord (setDone s (done s - 1))
                                  (Interrupting 0))
                        (DoneReceived (now s)))
      else None
  | Interrupting k =>
      if (k <? n)%nat
      then Some (logged (setCoord s (Interrupting (S k))) (GoInterrupt k))
      else Some (logged (setCoord s (WaitTimeoutOrInterrupt
                                       (now s + timeout)))
                        (TimerStarted (now s)))
  | WaitTimeoutOrInterrupt deadline =>
      if deadline <=? now s
      then Some (logged (setCoord s (Killing 0)) (TimerFired (now s)))
      else None
  | Killing k =>
      if (k <? n)%nat
      then Some (logged (setCoord s (Killing (S k))) (GoKill k))
      else Some (setCoord s Exited)
  | Exited => None
  end.

(** A signal is handed to [pm.interrupted] only when the coordinator is
    in one of its two [select]s: the channel has no buffer, and
    [signal.Notify] does not wait. *)
Definition signalStep (s : state) : state :=
  match coord s with
  | WaitDoneOrInterrupt =>
      logged (setCoord s (Interrupting 0)) (SignalReceived (now s))
  | WaitTimeoutOrInterrupt _ =>
      logged (setCoord s (Killing 0)) (SignalReceived (now s))
  | _ => s
  end.

Definition step (s : state) (l : label) : option state :=
  match l with
  | ProcExits i =>
      match gor s !! i with
      | Some InRun => Some (logged (setGor s i Returned) (RunReturned i))
      | _ => None
      end
  | SendDone i =>
      match gor s !! i with
      | Some Returned =>
          if (done s <? n)%nat
          then Some (setDone (setGor s i Sent) (S (done s)))
          else None
      | _ => None
      end
  | WgDone i =>
      match gor s !! i with
      | Some Sent =>
          Some (mkState (<[i := Finished]> (gor s)) (done s)
                        (procWg s - 1) (coord s) (returned s) (now s)
                        (log s))
      | _ => None
      end
  | Coordinator => coordStep s
  | SignalArrives => Some (signalStep s)
  | Tick d =>
      if 0 <=? d
      then Some (mkState (gor s) (done s) (procWg s) (coord s)
                         (returned s) (now s + d) (log s))
      else None
  | WaitReturns =>
      if (procWg s =? 0)%nat && negb (returned s)
      then Some (mkState (gor s) (done s) (procWg s) (coord s) true
                         (now s) (log s ++ [ManagerReturned]))
      else None
  end.

Fixpoint run (s : state) (ls : list label) : option state :=
  match ls with
  | [] => Some s
  | l :: ls' =>
      match step s l with
      | Some s' => run s' ls'
      | None => None
      end
  end.

(** The part of the log written by the coordinator. *)
Definition isCoordinator (a : action) : bool :=
  match a with
  | RunReturned _ | ManagerReturned => false
  | _ => true
  end.

Definition coordLog (s : state) : list action :=
  filter (fun a => isCoordinator a = true) (log s).

End Run.
End Manager.

(** ** Vocabulary of the statements *)

(** The byte that starts every ANSI escape code. *)
Definition ESCb : byte := "027"%byte.

(** A process and an output for examples: the first command of the test
    of the Go API, started and not yet waited for. *)
Definition testOutput : multiOutput := mkOutput 6 ∅ true.

Definition testProcess : process :=
  mkProcess "echo.1" 2 false ["/bin/sh"; "-c"; "echo 'hello' && sleep 0.15"]
            "/work" [] (Some 4242) None.

(** ASCII lower case, for equality up to case. *)
Definition toLower (c : ascii) : ascii :=
  let n := nat_of_ascii c in
  if (65 <=? n)%nat && (n <=? 90)%nat then ascii_of_nat (n + 32) else c.

Fixpoint lower (s : string) : string :=
  match s with
  | EmptyString => EmptyString
  | String c s' => String (toLower c) (lower s')
  end.

Fixpoint allASCII (s : string) : bool :=
  match s with
  | EmptyString => true
  | String c s' => strings.isASCII c && allASCII s'
  end.

(** An error line is the record of [WriteErr]; a dimmed line the record of
    [WriteLine] on a text wrapped by [ansi.Dim]. *)
Definition errorLine (w : World) (m : multiOutput) (p : process) (text : string)
    : event :=
  Write (Output.WriteErr w m p text).

Definition dimLine (w : World) (m : multiOutput) (p : process) (text : string)
    : event :=
  Write (Output.WriteLine w m p (bytes (ansi.Dim (NoColor w) text))).

(** The name [parseCommands] derives from a command, and whether it takes
    the command for an npm script. *)
Definition derivedName (cmd : string) : string :=
  let name := Commands.filterCmdName cmd in
  if String.eqb name "" then "cmd" else name.

Definition isNpm (cmd : string) : bool :=
  strings.HasPrefix (derivedName cmd) "npm:".

Definition plainCommands (cmds : list string) : list command :=
  map (fun c => mkCommand (derivedName c) c)
      (filter (fun c => isNpm c = false) cmds).

Definition npmCommands (cmds : list string) : list string :=
  filter (fun c => isNpm c = true) cmds.

(** How many commands of a list carry a name. *)
Definition countName (nm : string) (l : list command) : nat :=
  length (filter (fun c => name c = nm) l).

(** Duplicate names numbered in the order of the list: the command at
    position [j] whose name occurs more than once becomes [name.k], [k]
    counting the commands of that name up to and including it. *)
Definition numberedAt (l : list command) (j : nat) (c : command) : command :=
  if (1 <? countName (name c) l)%nat
  then mkCommand (name c +:+ "." +:+ itoa (Z.of_nat (countName (name c) (take j l)) + 1))
                 (cmd c)
  else c.

Definition numbered (l : list command) : list command :=
  imap (numberedAt l) l.

(** The positions, from [k] on, of the commands that carry a name. *)
Fixpoint indexesFrom (k : nat) (nm : string) (l : list command) : list nat :=
  match l with
  | [] => []
  | c :: l' =>
      if decide (name c = nm) then k :: indexesFrom (S k) nm l'
      else indexesFrom (S k) nm l'
  end.

(** The command [c] renamed [nm.(i+1)]. *)
Definition renamed (nm : string) (i : nat) (c : command) : command :=
  mkCommand (nm +:+ "." +:+ itoa (Z.of_nat i + 1)) (cmd c).

(** An npm command that does not resolve: no script of that name and, when
    the name has a wildcard, no script matching it. *)
Definition unresolved (w : World) (scripts : gmap string string)
    (cmd : string) : Prop :=
  let scriptName := strings.TrimPrefix cmd "npm:" in
  scripts !! scriptName = None
  /\ (strings.Contains scriptName "*" = true ->
      forall name pcmd,
        scripts !! name = Some pcmd ->
        Commands.wildcardMatch w scriptName name = false).

(** The process [New] makes of the command at position [i]. *)
Definition processOf (root : string) (env : list string) (sil : bool)
    (i : nat) (c : command) : process :=
  mkProcess (name c)
            (default 0 (Manager.colors !! (i mod length Manager.colors)%nat))
            sil ["/bin/sh"; "-c"; cmd c] root env None None.

(** The environment [New] hands to the processes. *)
Definition environment (w : World) (cfg : Manager.Config) : list string :=
  let nodeBin := Join w (Manager.Root cfg) "node_modules/.bin" in
  if IsDir w nodeBin then Manager.injectPathVal (Environ w) nodeBin
  else Environ w.

(** The first white-space-delimited token of a command, in the words of
    the specification: leading white space skipped, then the bytes up to
    the next white space. *)
Definition isSpace (c : ascii) : bool :=
  bool_decide (nat_of_ascii c ∈ [9; 10; 11; 12; 13; 32]%nat).

Fixpoint skipSpaces (s : string) : string :=
  match s with
  | EmptyString => EmptyString
  | String c s' => if isSpace c then skipSpaces s' else s
  end.

Fixpoint upToSpace (s : string) : string :=
  match s with
  | EmptyString => EmptyString
  | String c s' => if isSpace c then EmptyString else String c (upToSpace s')
  end.

Definition firstField (s : string) : string := upToSpace (skipSpaces s).

(** The configuration of the examples, and the manager [New] makes of it. *)
Definition testConfig (cmds : list string) : Manager.Config :=
  Manager.mkConfig cmds "." 5 false.

Definition testManager (cmds : list string) : Manager.ProcessManager :=
  match Manager.New testWorld (testConfig cmds) with
  | inr pm => pm
  | inl _ => Manager.mkManager (mkOutput 0 ∅ true) [] 0 false
  end.

(** ** Vocabulary of the shutdown sequence *)

(** Goroutines of processes that have not finished. *)
Definition unfinished (gs : list Manager.goroutine) : nat :=
  length (filter (fun g => g <> Manager.Finished) gs).

(** What ends the first [select]: a value from [pm.done] or a signal, at
    time [t]. *)
Definition firstWake (a : Manager.action) (t : Z) : Prop :=
  a = Manager.DoneReceived t \/ a = Manager.SignalReceived t.

(** What ends the second [select]: the timer started at [t0], which fires
    no sooner than [timeout] later, or a signal. *)
Definition secondWake (timeout t0 : Z) (a : Manager.action) : Prop :=
  exists t, (a = Manager.TimerFired t /\ t0 + timeout <= t)
            \/ a = Manager.SignalReceived t.

(** Everything the coordinator does for [n] processes, in order. *)
Definition escalation (n : nat) (wake1 : Manager.action) (t0 : Z)
    (wake2 : Manager.action) : list Manager.action :=
  wake1 :: map Manager.GoInterrupt (seq 0 n)
  ++ Manager.TimerStarted t0 :: wake2 :: map Manager.GoKill (seq 0 n).

(** The invariants of the transition system of [Run], for [n] processes and
    a grace period of [timeout]. *)
Module ShutdownInvariants.
Import Manager.
Section Invariants.
Variable n : nat.
Variable timeout : Z.

(** The goroutines of the processes, [pm.done] and [procWg]. *)
Definition bookkeeping (s : state) : Prop :=
  length (gor s) = n
  /\ (forall i g, gor s !! i = Some g -> g <> InRun -> RunReturned i ∈ log s)
  /\ ((0 < done s)%nat -> exists i, RunReturned i ∈ log s)
  /\ procWg s = unfinished (gor s)
  /\ (returned s = true -> unfinished (gor s) = 0%nat).

(** Where the coordinator is, and what it has logged. *)
Definition coordinated (s : state) : Prop :=
  match coord s with
  | WaitDoneOrInterrupt => coordLog s = []
  | Interrupting k =>
      (k <= n)%nat
      /\ exists wake tw,
           firstWake wake tw /\ tw <= now s
           /\ coordLog s = wake :: map GoInterrupt (seq 0 k)
  | WaitTimeoutOrInterrupt deadline =>
      exists wake tw t0,
        firstWake wake tw /\ tw <= t0 /\ t0 <= now s
        /\ deadline = t0 + timeout
        /\ coordLog s
           = wake :: map GoInterrupt (seq 0 n) ++ [TimerStarted t0]
  | Killing k =>
      (k <= n)%nat
      /\ exists wake tw t0 wake2,
           firstWake wake tw /\ tw <= t0 /\ secondWake timeout t0 wake2
           /\ coordLog s
              = wake :: map GoInterrupt (seq 0 n)
                ++ TimerStarted t0 :: wake2 :: map GoKill (seq 0 k)
  | Exited =>
      exists wake tw t0 wake2,
        firstWake wake tw /\ tw <= t0 /\ secondWake timeout t0 wake2
        /\ coordLog s = escalation n wake t0 wake2
  end.

(** What precedes what in the log. *)
Definition ordered (s : state) : Prop :=
  (forall l1 l2 t,
     log s = l1 ++ DoneReceived t :: l2 -> exists i, RunReturned i ∈ l1)
  /\ (forall l1 l2,
        log s = l1 ++ ManagerReturned :: l2 ->
        forall i, (i < n)%nat -> RunReturned i ∈ l1).

End Invariants.
End ShutdownInvariants.

(** ** Vocabulary of the line scanner *)

(** The bytes a [bufio.Reader] has still to deliver. *)
Definition remaining (b : bufio.Reader) : list byte :=
  bufio.buf b ++ io.content (bufio.rd b).

(** A reader between two calls of [ReadLine]: no error pending, the unread
    bytes fit the buffer, and every [Read] that returns no error returns
    at least one byte. *)
Definition ready (b : bufio.Reader) : Prop :=
  bufio.err b = None
  /\ (length (bufio.buf b) <= bufio.size b)%nat
  /\ (2 <= bufio.size b)%nat
  /\ Forall (fun c => c <> []) (io.chunks (bufio.rd b)).

(** The error [scanLines] returns when reading ends with [e]. *)
Definition errorOf (e : ioError) : option ioError :=
  if bool_decide (e <> EOF) && bool_decide (e <> ErrClosedPipe)
  then Some e else None.

(** The result of [scanLines] when the callback was fed a list of lines,
    [stopped] telling whether it asked to stop, and reading ended with
    [e]. *)
Definition finish {St : Type} (e : ioError) (fed : St * bool)
    : St * option ioError :=
  (fed.1, if fed.2 then None else errorOf e).

(** A line without the carriage return of its terminator. *)
Definition chomp (l : list byte) : list byte :=
  if bool_decide (last l = Some bufio.CR) then take (length l - 1) l else l.

(** The bytes of a list of lines, each with its line feed. *)
Definition terminated (lines : list (list byte)) : list byte :=
  concat (map (fun l => l ++ [bufio.LF]) lines).

(** The lines [scanLines] hands to the callback when the bytes [s] are
    still to be read through a buffer of [size] bytes and [acc] is what
    its own buffer holds: the recursion of [scanLoop] on the stream,
    without the reader.  [fuel] bounds the calls of [ReadLine]. *)
Fixpoint linesOf (size fuel : nat) (s acc : list byte) : list (list byte) :=
  match fuel with
  | O => []
  | S fuel' =>
      if bool_decide (s = []) then []
      else
        match bufio.IndexByte (take size s) bufio.LF with
        | Some i =>
            (acc ++ chomp (take i s)) :: linesOf size fuel' (drop (S i) s) []
        | None =>
            if (size <=? length s)%nat then
              if bool_decide (last (take size s) = Some bufio.CR)
              then linesOf size fuel' (drop (size - 1) s)
                           (acc ++ take (size - 1) s)
              else linesOf size fuel' (drop size s) (acc ++ take size s)
            else [acc ++ s]
        end
  end.

(** What [ReadSlice] returns, as a function of the bytes still to be read:
    the bytes up to the first line feed among the first [size] bytes;
    without one, the first [size] bytes and [bufio.ErrBufferFull]; without that
    many, all the bytes and the error of the stream. *)
Definition sliceOf (size : nat) (final : ioError) (s : list byte)
    : list byte * option bufio.sliceError * list byte :=
  match bufio.IndexByte (take size s) bufio.LF with
  | Some i => (take (S i) s, None, drop (S i) s)
  | None =>
      if (size <=? length s)%nat
      then (take size s, Some bufio.ErrBufferFull, drop size s)
      else (s, Some (bufio.ReadError final), [])
  end.

(** What [ReadLine] returns, as a function of the bytes still to be read. *)
Definition lineOf (size : nat) (final : ioError) (s : list byte)
    : list byte * bool * option ioError * list byte :=
  match bufio.IndexByte (take size s) bufio.LF with
  | Some i => (chomp (take i s), false, None, drop (S i) s)
  | None =>
      if (size <=? length s)%nat then
        if bool_decide (last (take size s) = Some bufio.CR)
        then (take (size - 1) s, true, None, drop (size - 1) s)
        else (take size s, true, None, drop size s)
      else if bool_decide (s = []) then ([], false, Some final, [])
      else (s, false, None, [])
  end.

(** A stream for examples, read in four chunks: two complete lines, the
    second ended by a carriage return and a line feed, and three bytes
    without a terminator. *)
Definition newline : string := String "010" EmptyString.
Definition creturn : string := String "013" EmptyString.

Definition testReader : io.Reader :=
  io.mkReader [bytes "ab"; bytes ("c" +:+ newline +:+ "de");
               bytes (creturn +:+ newline); bytes "xyz"] EOF.

(** ** Vocabulary of the resolution of npm scripts *)

(** The script names a list of npm commands asks for. *)
Definition scriptNames (cmds : list string) : list string :=
  map (fun c => strings.TrimPrefix c "npm:") cmds.

(** The names without a wildcard that are no script of the manifest, in
    the order given. *)
Definition missingNames (scripts : gmap string string)
    (names : list string) : list string :=
  filter (fun n => scripts !! n = None
                   /\ strings.Contains n "*" = false) names.

(** The scripts that carry one of the names, in the order given. *)
Definition namedScripts (scripts : gmap string string)
    (names : list string) : list command :=
  omap (fun n => mkCommand n <$> scripts !! n) names.

(** The scripts a wildcard matches, in the order of the entries. *)
Definition matching (w : World) (scriptName : string)
    (entries : list (string * string)) : list command :=
  map (fun e => mkCommand e.1 e.2)
      (filter (fun e => Commands.wildcardMatch w scriptName e.1 = true)
              entries).

(** What a script name stands for: the script of that name, or else the
    scripts its wildcard matches. *)
Definition resolution (w : World) (scripts : gmap string string)
    (scriptName : string) : list command :=
  match scripts !! scriptName with
  | Some s => [mkCommand scriptName s]
  | None =>
      if strings.Contains scriptName "*"
      then matching w scriptName (map_to_list scripts)
      else []
  end.

(** The world of the examples without a readable manifest. *)
Definition noManifest : World := {|
  NoColor := true;
  Abs := fun p => inr ("/work/" +:+ p);
  Join := fun a b => a +:+ "/" +:+ b;
  Environ := ["HOME=/root"; "PATH=/usr/bin:/bin"];
  IsDir := fun _ => false;
  ReadFile := fun _ => inl "open package.json: no such file or directory";
  Unmarshal := fun _ => inr testScripts;
  foldUnicode := fun _ _ => false;
  rangeScripts := fun _ m => map_to_list m;
  rangeNames := fun m => map_to_list m
|}.

(** ** The pipes of the output

    [openPipe] takes the pipe [Connect] made for the process and opens a
    pseudo-terminal in it: a process that was never connected has no pipe,
    and the assignment to [pipe.pty] dereferences nil; [fatalOnErr] ends
    the program when no pseudo-terminal can be had.  [ClosePipe] closes
    both ends when the process has a pipe. *)
Module Pipes.

Definition openPipe (m : multiOutput) (id : nat) (ptyErr : option string)
    : multiOutput * list event :=
  match pipes m !! id with
  | None => (m, [NilDereference])
  | Some _ =>
      match ptyErr with
      | Some e => (m, [Fatal e])
      | None =>
          (mkOutput (maxNameLength m) (<[id := mkPipe true]> (pipes m))
                    (printProcName m),
           [PipeOpened])
      end
  end.

Definition ClosePipe (m : multiOutput) (id : nat) : list event :=
  match pipes m !! id with
  | Some _ => [PipeClosed]
  | None => []
  end.

(** The callback of [PipeOutput]: the line is written with the label of
    the process, and scanning goes on. *)
Definition writer (w : World) (m : multiOutput) (proc : process)
    (st : list event) (b : list byte) : list event * bool :=
  (st ++ [Write (Output.WriteLine w m proc b)], true).

(** The goroutine of [PipeOutput], reading the pseudo-terminal [r]: what
    it writes, and the error [scanLines] returns (which it drops). *)
Definition forward (w : World) (m : multiOutput) (proc : process)
    (r : io.Reader) : option (list event * option ioError) :=
  Scan.scanLines (writer w m proc) r [].

End Pipes.

(** ** The other styles of package ansi *)
Module Style.
Section Color.
Variable NoColor : bool.

Definition Gray (s : string) : string :=
  if NoColor then s else ansi.ESC +:+ "[0;38;5;8m" +:+ s +:+ ansi.ESC +:+ "[0m".

Definition Bold (s : string) : string :=
  if NoColor then s else ansi.ESC +:+ "[1m" +:+ s +:+ ansi.ESC +:+ "[0m".
End Color.
End Style.

(** ** The command line (cmd/tandem)

    The actions of the flags [directory] and [timeout], which the
    command-line library runs on the values given, and the action of the
    program, which makes the manager [Run] is called on. *)
Module Cli.

Inductive cliError :=
| ErrNoCommands
| ErrWorkingDirectory (e : string)
| ErrTimeoutBelow (v : Z)
| ErrTimeoutAbove (v : Z)
| ErrNew (e : error).

Definition directoryAction (cwdErr : option string) (v : string)
    : option cliError :=
  match cwdErr with
  | Some e => if String.eqb v "" then Some (ErrWorkingDirectory e) else None
  | None => None
  end.

Definition timeoutAction (v : Z) : option cliError :=
  if v <? 0 then Some (ErrTimeoutBelow v)
  else if v >=? 65536 then Some (ErrTimeoutAbove v)
  else None.

Definition Action (w : World) (args : list string) (directory : string)
    (timeout : Z) (silent : bool) : cliError + Manager.ProcessManager :=
  if (length args <? 1)%nat then inl ErrNoCommands
  else
    match Manager.New w (Manager.mkConfig args directory timeout silent) with
    | inl e => inl (ErrNew e)
    | inr pm => inr pm
    end.

End Cli.

(** ** Vocabulary of the goroutines *)

(** The steps a goroutine of a process has still to take. *)
Definition stepsLeft (g : Manager.goroutine) : nat :=
  match g with
  | Manager.InRun => 3
  | Manager.Returned => 2
  | Manager.Sent => 1
  | Manager.Finished => 0
  end.

(** Goroutines that have not sent to [pm.done] yet. *)
Definition unsent (gs : list Manager.goroutine) : nat :=
  length (filter (fun g => g = Manager.InRun \/ g = Manager.Returned) gs).

(** A label of a goroutine of a process or of the caller of [Run]. *)
Definition isProcess (l : Manager.label) : bool :=
  match l with
  | Manager.ProcExits _ | Manager.SendDone _ | Manager.WgDone _
  | Manager.WaitReturns => true
  | _ => false
  end.

(** Two signals in a row, the coordinator running after each. *)
Definition twoSignals (n : nat) : list Manager.label :=
  Manager.SignalArrives :: replicate (S n) Manager.Coordinator
  ++ Manager.SignalArrives :: replicate (S n) Manager.Coordinator.

(** ** Vocabulary of the events *)

Definition isSignal (e : event) : bool :=
  match e with SendSignal _ _ => true | _ => false end.

(** ** Package main

    The program at the root of the repository has a process manager of its
    own, [newProcessManager], which names the commands itself: an npm
    command is resolved where it stands, by the name [filterCmdName] gave
    it, and wildcards are not known.  This is the part of
    [newProcessManager] that makes the named commands. *)
Module Main.

Inductive error :=
| ErrReadPackageJSON (e : string)
| ErrParsePackageJSON (e : string)
| ErrScriptsMissing (missing : string).

Section WithWorld.
Variable w : World.

(** [parseNpmScripts(root)]: the scripts of the manifest. *)
Definition parseNpmScripts (root : string)
    : error + gmap string string :=
  match ReadFile w (Join w root "package.json") with
  | inl e => inl (ErrReadPackageJSON e)
  | inr b =>
      match Unmarshal w b with
      | inl e => inl (ErrParsePackageJSON e)
      | inr scripts => inr scripts
      end
  end.

(** The first loop, from position [i]: every command is named, and the
    positions of the names that start with [npm:] are kept. *)
Fixpoint nameLoop (i : nat) (cmds : list string)
    (namedCmds : list command) (npmCommandIdx : list nat)
    : list command * list nat :=
  match cmds with
  | [] => (namedCmds, npmCommandIdx)
  | cmd :: rest =>
      let name := Commands.filterCmdName cmd in
      let name := if String.eqb name "" then "cmd" else name in
      nameLoop (S i) rest (namedCmds ++ [mkCommand name cmd])
               (if strings.HasPrefix name "npm:"
                then npmCommandIdx ++ [i] else npmCommandIdx)
  end.

(** One turn of the second loop: [npmCmd := namedCmds[idx]], its name
    without [npm:] looked up, and [namedCmds[idx] = npmCmd] when it is a
    script.  The positions come from the first loop and are in range. *)
Definition resolveIndex (scripts : gmap string string)
    (acc : list command * list string) (idx : nat)
    : list command * list string :=
  let '(namedCmds, missingCommands) := acc in
  match namedCmds !! idx with
  | None => acc
  | Some npmCmd =>
      let nm := strings.TrimPrefix (name npmCmd) "npm:" in
      match scripts !! nm with
      | None => (namedCmds, missingCommands ++ [nm])
      | Some s => (<[idx := mkCommand nm s]> namedCmds, missingCommands)
      end
  end.

Definition namedCommands (root : string) (cmds : list string)
    : error + list command :=
  let '(namedCmds, npmCommandIdx) := nameLoop 0 cmds [] [] in
  let resolved :=
    if (0 <? length npmCommandIdx)%nat then
      match parseNpmScripts root with
      | inl e => inl e
      | inr scripts =>
          let '(namedCmds, missingCommands) :=
            foldl (resolveIndex scripts) (namedCmds, []) npmCommandIdx in
          if (0 <? length missingCommands)%nat
          then inl (ErrScriptsMissing (strings.Join missingCommands ","))
          else inr namedCmds
      end
    else inr namedCmds in
  match resolved with
  | inl e => inl e
  | inr namedCmds => inr (Commands.renameDuplicates w namedCmds)
  end.

End WithWorld.
End Main.

(** The positions, counted from [k], of the commands that take their
    command line from the manifest. *)
Fixpoint npmIndexesFrom (k : nat) (cmds : list string) : list nat :=
  match cmds with
  | [] => []
  | c :: rest =>
      if isNpm c then k :: npmIndexesFrom (S k) rest
      else npmIndexesFrom (S k) rest
  end.

(** The name and command line a command has in package main before the
    numbering: its own, or those of the script its name stands for. *)
Definition placed (scripts : gmap string string) (c : string) : command :=
  if isNpm c then
    let nm := strings.TrimPrefix (derivedName c) "npm:" in
    mkCommand nm (default c (scripts !! nm))
  else mkCommand (derivedName c) c.

(** ** The lines of a process, byte by byte

    What the specification calls a dimmed line and an error-coloured line,
    written out: the label of the process, the text between the escape
    code of the style and the reset, and a line feed.  With colours off
    there are no escape codes, and the text comes without the prefix the
    shell puts before its own messages. *)
Definition escape (code : string) : list byte := ESCb :: bytes code.

Definition redCode : string := "[0;31m".
Definition dimCode : string := "[0;2m".

Definition labelBytes (w : World) (m : multiOutput) (p : process)
    : list byte :=
  if printProcName m then
    (if NoColor w then []
     else escape ("[0;38;5;" +:+ itoa (Color p) +:+ "m"))
    ++ bytes (Name p)
    ++ replicate (S (maxNameLength m) - String.length (Name p)) " "%byte
    ++ (if NoColor w then [] else escape "[0m")
    ++ bytes " "
  else [].

Definition unprefixed (text : string) : string :=
  if String.prefix "/bin/sh: " text
  then String.substring 9 (String.length text - 9) text
  else text.

Definition styledLine (w : World) (m : multiOutput) (p : process)
    (code text : string) : event :=
  Write (labelBytes w m p
         ++ (if NoColor w then bytes (unprefixed text)
             else escape code ++ bytes text ++ escape "[0m")
         ++ ["010"%byte]).

(** The world of the examples with colours on. *)
Definition colourWorld : World := {|
  NoColor := false;
  Abs := fun p => inr ("/work/" +:+ p);
  Join := fun a b => a +:+ "/" +:+ b;
  Environ := ["HOME=/root"; "PATH=/usr/bin:/bin"];
  IsDir := fun _ => true;
  ReadFile := fun _ => inr [];
  Unmarshal := fun _ => inr testScripts;
  foldUnicode := fun _ _ => false;
  rangeScripts := fun _ m => map_to_list m;
  rangeNames := fun m => map_to_list m
|}.

(** The error a [Read] on a closed [*os.File] returns, [os.ErrClosed]
    wrapped in a [*fs.PathError]: this, and not [io.ErrClosedPipe], is
    what reading the pseudo-terminal gives once [ClosePipe] has closed
    it. *)
Definition ErrFileClosed (path : string) : ioError :=
  ErrOther ("read " +:+ path +:+ ": file already closed").

(** The error [scanLines] returns when the stream ends with [e]: nil for
    the end of the file and for [io.ErrClosedPipe], [e] itself
    otherwise. *)
Definition returnedError (e : ioError) : option ioError :=
  match e with
  | EOF | ErrClosedPipe => None
  | _ => Some e
  end.

(** The colour of the process at position [i]. *)
Definition colourAt (i : nat) : Z :=
  nth (i mod 10) [2; 3; 4; 5; 6; 42; 130; 103; 129; 108] 0.
(** * Examples *)

Example Base_ex1 : filepath.Base "/usr/bin/echo" = "echo".
Proof. reflexivity. Qed.
Example Base_ex2 : filepath.Base "a/b//" = "b" /\ filepath.Base "//" = "/" /\ filepath.Base "" = ".".
Proof. repeat split. Qed.
Example Trim_ex : strings.TrimSpace (strings.utf8 [32; 9; 194; 160; 97; 32; 98; 226; 128; 168; 10]%nat) = "a b".
Proof. reflexivity. Qed.
Example Split_ex : strings.Split "hello:*:jones" "*" = ["hello:"; ":jones"].
Proof. reflexivity. Qed.

Example parse_ex1 :
  Commands.parseCommands testWorld "/r" ["echo 'hello' && sleep 0.15"; "echo 'world' && sleep 0.15"]
  = inr [mkCommand "echo.1" "echo 'hello' && sleep 0.15"; mkCommand "echo.2" "echo 'world' && sleep 0.15"].
Proof. vm_compute. reflexivity. Qed.


(** * String facts *)

Lemma app_String c s t : String c s +:+ t = String c (s +:+ t).
Proof. reflexivity. Qed.

Lemma app_empty_l t : "" +:+ t = t.
Proof. reflexivity. Qed.

Lemma app_empty_r s : s +:+ "" = s.
Proof. induction s as [|c s IH]; [reflexivity|]. rewrite app_String, IH. reflexivity. Qed.

Lemma String_length_app s t : String.length (s +:+ t) = (String.length s + String.length t)%nat.
Proof. induction s as [|c s IH]; [reflexivity|]. rewrite app_String. simpl. rewrite IH. reflexivity. Qed.

Lemma stake_app s t : stake (String.length s) (s +:+ t) = s.
Proof. induction s as [|c s IH]; [destruct t; reflexivity|]. rewrite app_String. simpl. rewrite IH. reflexivity. Qed.

Lemma sdrop_app s t : sdrop (String.length s) (s +:+ t) = t.
Proof. induction s as [|c s IH]; [reflexivity|]. rewrite app_String. simpl. exact IH. Qed.

Lemma stake_sdrop n s : stake n s +:+ sdrop n s = s.
Proof.
  revert s. induction n as [|n IH]; intros s; [reflexivity|].
  destruct s as [|c s]; [reflexivity|]. simpl. rewrite app_String, IH. reflexivity.
Qed.

Lemma length_sdrop n s : String.length (sdrop n s) = (String.length s - n)%nat.
Proof.
  revert s. induction n as [|n IH]; intros s; [simpl; lia|].
  destruct s as [|c s]; [reflexivity|]. simpl. apply IH.
Qed.

Lemma length_stake n s : (n <= String.length s)%nat -> String.length (stake n s) = n.
Proof.
  revert s. induction n as [|n IH]; intros s H; [reflexivity|].
  destruct s as [|c s]; simpl in *; [lia|]. rewrite IH; [reflexivity|lia].
Qed.

Lemma HasPrefix_true s p : strings.HasPrefix s p = true <-> exists r, s = p +:+ r.
Proof.
  unfold strings.HasPrefix. rewrite andb_true_iff, Nat.leb_le, String.eqb_eq. split.
  - intros [_ H]. exists (sdrop (String.length p) s).
    set (k := String.length p) in *.
    transitivity (stake k s +:+ sdrop k s); [symmetry; apply stake_sdrop|].
    rewrite H. reflexivity.
  - intros [r ->]. rewrite String_length_app, stake_app. split; [lia|reflexivity].
Qed.

Lemma HasSuffix_true s p : strings.HasSuffix s p = true <-> exists r, s = r +:+ p.
Proof.
  unfold strings.HasSuffix. rewrite andb_true_iff, Nat.leb_le, String.eqb_eq. split.
  - intros [_ H]. exists (stake (String.length s - String.length p) s).
    set (k := (String.length s - String.length p)%nat) in *.
    transitivity (stake k s +:+ sdrop k s); [symmetry; apply stake_sdrop|].
    rewrite H. reflexivity.
  - intros [r ->]. rewrite String_length_app. split; [lia|].
    replace (String.length r + String.length p - String.length p)%nat with (String.length r) by lia.
    apply sdrop_app.
Qed.

Lemma HasPrefix_empty s : strings.HasPrefix s "" = true.
Proof. apply HasPrefix_true. exists s. reflexivity. Qed.

Lemma HasSuffix_empty s : strings.HasSuffix s "" = true.
Proof. apply HasSuffix_true. exists s. symmetry. apply app_empty_r. Qed.

Lemma Split_cons s sep : exists p ps, strings.Split s sep = p :: ps.
Proof.
  induction s as [|c s (p & ps & IH)]; simpl; [eauto|].
  destruct (Ascii.eqb c sep); [eauto|]. rewrite IH. eauto.
Qed.

Lemma Split_none s sep : strings.Contains s sep = false -> strings.Split s sep = [s].
Proof.
  induction s as [|c s IH]; simpl; [reflexivity|].
  destruct (Ascii.eqb c sep); [discriminate|]. intros H. rewrite (IH H). reflexivity.
Qed.

Lemma Split_app p0 rest sep :
  strings.Contains p0 sep = false ->
  strings.Split (p0 +:+ String sep rest) sep = p0 :: strings.Split rest sep.
Proof.
  induction p0 as [|c p0 IH]; simpl.
  - intros _. rewrite Ascii.eqb_refl. reflexivity.
  - destruct (Ascii.eqb c sep) eqn:E; [discriminate|]. intros H.
    rewrite (IH H). reflexivity.
Qed.

(** * wildcardMatch *)

Lemma asciiFoldEq_lower a b :
  strings.isASCII a = true -> strings.isASCII b = true ->
  strings.asciiFoldEq a b = true <-> toLower a = toLower b.
Proof.
  unfold strings.isASCII, strings.asciiFoldEq, toLower.
  rewrite !Nat.ltb_lt. intros Ha Hb.
  assert (Hinj : forall x y, (x < 256)%nat -> (y < 256)%nat ->
                 ascii_of_nat x = ascii_of_nat y -> x = y).
  { intros x y Hx Hy E. apply (f_equal nat_of_ascii) in E.
    rewrite !nat_ascii_embedding in E by lia. exact E. }
  assert (Hn : forall c d, nat_of_ascii c = nat_of_ascii d -> c = d).
  { intros c d E. apply (f_equal ascii_of_nat) in E.
    rewrite !ascii_nat_embedding in E. exact E. }
  set (x := nat_of_ascii a) in *. set (y := nat_of_ascii b) in *.
  assert (Exy : a = b <-> x = y) by (split; [intros ->; reflexivity|apply Hn]).
  assert (Eax : forall k, (k < 256)%nat -> ascii_of_nat k = b <-> k = y).
  { intros k Hk. split; [intros <-; unfold y; rewrite nat_ascii_embedding; lia|].
    intros ->. apply ascii_nat_embedding. }
  assert (Eay : forall k, (k < 256)%nat -> a = ascii_of_nat k <-> x = k).
  { intros k Hk. split; [intros ->; unfold x; rewrite nat_ascii_embedding; lia|].
    intros <-. symmetry. apply ascii_nat_embedding. }
  clearbody x y.
  assert (Hcase : (x <= y)%nat \/ (y < x)%nat) by lia.
  destruct Hcase as [Hle|Hlt].
  - rewrite (Nat.min_l x y), (Nat.max_r x y) by lia.
    destruct (Nat.eqb_spec x y) as [E|E].
    { rewrite (proj2 Exy E), E. tauto. }
    rewrite !andb_true_iff, !Nat.leb_le, Nat.eqb_eq.
    destruct (Nat.leb_spec 65 x), (Nat.leb_spec x 90),
      (Nat.leb_spec 65 y), (Nat.leb_spec y 90); simpl;
      first [ rewrite Eax by lia; lia | rewrite Eay by lia; lia
            | rewrite Exy; lia
            | split; [lia|intros H'; apply Hinj in H'; lia] ].
  - rewrite (Nat.min_r x y), (Nat.max_l x y) by lia.
    destruct (Nat.eqb_spec y x) as [E|E]; [lia|].
    rewrite !andb_true_iff, !Nat.leb_le, Nat.eqb_eq.
    destruct (Nat.leb_spec 65 x), (Nat.leb_spec x 90),
      (Nat.leb_spec 65 y), (Nat.leb_spec y 90); simpl;
      first [ rewrite Eax by lia; lia | rewrite Eay by lia; lia
            | rewrite Exy; lia
            | split; [lia|intros H'; apply Hinj in H'; lia] ].
Qed.

Lemma EqualFold_ascii fu s t :
  allASCII s = true -> allASCII t = true ->
  strings.EqualFold fu s t = true <-> lower s = lower t.
Proof.
  revert t. induction s as [|a s IH]; intros [|b t]; simpl; try (intros; split; congruence).
  rewrite !andb_true_iff. intros [Ha Hs] [Hb Ht]. rewrite Ha, Hb. simpl.
  destruct (strings.asciiFoldEq a b) eqn:E.
  - apply asciiFoldEq_lower in E; [|assumption..]. rewrite IH by assumption.
    rewrite E. split; [intros ->; reflexivity|]. intros H. injection H. auto.
  - split; [discriminate|]. intros H. injection H as H1 H2.
    apply asciiFoldEq_lower in H1; [|assumption..]. congruence.
Qed.

(** C8.  [wildcardMatch pattern s]: for a pattern without [*] it is
    [EqualFold pattern s], equality up to case (on ASCII strings: the two
    have the same lower-case form); for a pattern [p0*p1] with one [*] it
    holds exactly when [s] starts with [p0] and ends with [p1]; for a
    pattern with two or more [*] it is false. *)
Theorem wildcardMatch_spec (w : World) (pattern s : string) :
  (strings.Contains pattern "*" = false ->
     Commands.wildcardMatch w pattern s
       = strings.EqualFold (foldUnicode w) pattern s
     /\ (allASCII pattern = true -> allASCII s = true ->
         Commands.wildcardMatch w pattern s = true <-> lower pattern = lower s))
  /\ (forall p0 p1,
        pattern = p0 +:+ "*" +:+ p1 ->
        strings.Contains p0 "*" = false -> strings.Contains p1 "*" = false ->
        Commands.wildcardMatch w pattern s = true
        <-> (exists r, s = p0 +:+ r) /\ (exists r, s = r +:+ p1))
  /\ (forall p0 p1 p2,
        pattern = p0 +:+ "*" +:+ p1 +:+ "*" +:+ p2 ->
        strings.Contains p0 "*" = false -> strings.Contains p1 "*" = false ->
        Commands.wildcardMatch w pattern s = false).
Proof.
  unfold Commands.wildcardMatch. split; [|split].
  - intros H. rewrite (Split_none _ _ H). split; [reflexivity|].
    intros Hp Hs. apply EqualFold_ascii; assumption.
  - intros p0 p1 -> H0 H1.
    change ("*" +:+ p1) with (String "*" p1).
    rewrite (Split_app _ _ _ H0), (Split_none _ _ H1).
    rewrite <- HasPrefix_true, <- HasSuffix_true, <- andb_true_iff.
    destruct (String.eqb_spec p0 "") as [->|_].
    { rewrite HasPrefix_empty. reflexivity. }
    destruct (String.eqb_spec p1 "") as [->|_].
    { rewrite HasSuffix_empty, andb_true_r. reflexivity. }
    reflexivity.
  - intros p0 p1 p2 -> H0 H1.
    change ("*" +:+ p1 +:+ "*" +:+ p2) with (String "*" (p1 +:+ String "*" p2)).
    rewrite (Split_app _ _ _ H0), (Split_app _ _ _ H1).
    destruct (Split_cons p2 "*") as (q & qs & ->). reflexivity.
Qed.

(** * The output record *)

Lemma bytes_String c s : bytes (String c s) = byte_of_ascii c :: bytes s.
Proof. reflexivity. Qed.

Lemma bytes_app s t : bytes (s +:+ t) = bytes s ++ bytes t.
Proof.
  induction s as [|c s IH]; [reflexivity|].
  change (String c s +:+ t) with (String c (s +:+ t)).
  rewrite !bytes_String, IH. reflexivity.
Qed.

Lemma TrimPrefix_app (prefix q : list byte) :
  Output.TrimPrefix (prefix ++ q) prefix = q.
Proof.
  unfold Output.TrimPrefix, Output.HasPrefix.
  rewrite take_app_length, drop_app_length, length_app.
  rewrite bool_decide_eq_true_2 by reflexivity.
  destruct (Nat.leb_spec (length prefix) (length prefix + length q)); [reflexivity|lia].
Qed.

Lemma TrimPrefix_other (p prefix : list byte) :
  (forall q, p <> prefix ++ q) -> Output.TrimPrefix p prefix = p.
Proof.
  intros H. unfold Output.TrimPrefix, Output.HasPrefix.
  destruct (Nat.leb_spec (length prefix) (length p)); [|reflexivity].
  simpl. case_bool_decide as E; [|reflexivity].
  exfalso. apply (H (drop (length prefix) p)).
  transitivity (take (length prefix) p ++ drop (length prefix) p);
    [symmetry; apply take_drop|]. rewrite E. reflexivity.
Qed.

Lemma TrimPrefix_suffix (p prefix : list byte) :
  exists q, p = q ++ Output.TrimPrefix p prefix.
Proof.
  unfold Output.TrimPrefix. destruct (Output.HasPrefix p prefix).
  - exists (take (length prefix) p). symmetry. apply take_drop.
  - exists []. reflexivity.
Qed.

Lemma bytes_ESC : bytes ansi.ESC = [ESCb].
Proof. reflexivity. Qed.

(** C5, as amended.  With names printed and the name no longer than the
    shared maximum, [WriteLine] composes one record: the colour start, the
    name padded with spaces to the maximum name width, a separator (a
    space, the colour end, a space), the payload without a leading
    [/bin/sh: ], and a line feed.  With colours off the record is the
    padded name, two spaces, the payload and the line feed: [WriteLine]
    adds no escape code, and the record has none when the name and the
    payload have none. *)
Theorem WriteLine_record (w : World) (m : multiOutput) (proc : process)
    (p : list byte) :
  printProcName m = true ->
  (String.length (Name proc) <= maxNameLength m)%nat ->
  let padded :=
    bytes (Name proc)
    ++ replicate (maxNameLength m - String.length (Name proc)) " "%byte in
  let separator :=
    bytes " " ++ bytes (ansi.ColorEnd (NoColor w)) ++ bytes " " in
  let payload := Output.TrimPrefix p (bytes "/bin/sh: ") in
  Output.WriteLine w m proc p
    = bytes (ansi.ColorStart (NoColor w) (Color proc))
      ++ padded ++ separator ++ payload ++ [bufio.LF]
  /\ length padded = maxNameLength m
  /\ (forall q, p = bytes "/bin/sh: " ++ q -> payload = q)
  /\ ((forall q, p <> bytes "/bin/sh: " ++ q) -> payload = p)
  /\ (NoColor w = true ->
      Output.WriteLine w m proc p
        = padded ++ bytes "  " ++ payload ++ [bufio.LF]
      /\ (ESCb ∉ bytes (Name proc) -> ESCb ∉ p ->
          ESCb ∉ Output.WriteLine w m proc p)).
Proof.
  intros Hprint Hlen padded separator payload.
  assert (Hbytes : length (bytes (Name proc)) = String.length (Name proc)).
  { unfold bytes. generalize (Name proc). intros s.
    induction s as [|c s IH]; [reflexivity|]. simpl. f_equal. exact IH. }
  assert (Hrec : Output.WriteLine w m proc p
    = bytes (ansi.ColorStart (NoColor w) (Color proc))
      ++ padded ++ separator ++ payload ++ [bufio.LF]).
  { unfold Output.WriteLine, Output.label. rewrite Hprint.
    unfold padded, separator, payload.
    replace (S (maxNameLength m) - String.length (Name proc))%nat
      with (S (maxNameLength m - String.length (Name proc))) by lia.
    rewrite replicate_S_end, bytes_app. rewrite <- !app_assoc. reflexivity. }
  split; [exact Hrec|]. split.
  { unfold padded. rewrite length_app, length_replicate, Hbytes. lia. }
  split. { intros q ->. apply TrimPrefix_app. }
  split. { apply TrimPrefix_other. }
  intros Hnc. rewrite Hrec. unfold separator, ansi.ColorStart, ansi.ColorEnd.
  rewrite Hnc. split; [reflexivity|].
  intros Hname Hp.
  destruct (TrimPrefix_suffix p (bytes "/bin/sh: ")) as [q Hq]. fold payload in Hq.
  assert (Hpay : ESCb ∉ payload).
  { intros Hin. apply Hp. rewrite Hq. apply elem_of_app. by right. }
  unfold padded. rewrite !not_elem_of_app. repeat split; try assumption.
  - apply not_elem_of_nil.
  - intros [? _]%elem_of_replicate. discriminate.
  - apply not_elem_of_cons. split; [discriminate|apply not_elem_of_nil].
  - apply not_elem_of_nil.
  - apply not_elem_of_cons. split; [discriminate|apply not_elem_of_nil].
  - apply not_elem_of_cons. split; [discriminate|apply not_elem_of_nil].
Qed.

Lemma WriteLine_record_witness :
  Output.WriteLine testWorld testOutput testProcess (bytes "/bin/sh: hello")
  = bytes "echo.1  hello" ++ [bufio.LF].
Proof.
  destruct (WriteLine_record testWorld testOutput testProcess
              (bytes "/bin/sh: hello") eq_refl) as (H & _).
  { simpl. lia. }
  rewrite H. reflexivity.
Defined.

(** C5, as stated, fails: with colours off the escape codes of the payload
    are in the record. *)
Lemma WriteLine_keeps_payload_escapes :
  NoColor testWorld = true
  /\ ESCb ∈ Output.WriteLine testWorld testOutput testProcess
              (bytes (ansi.ESC +:+ "[31mhello")).
Proof.
  split; [reflexivity|].
  apply (list_elem_of_lookup_2 _ 8%nat). reflexivity.
Qed.

(** * Process: Run, Interrupt, Kill *)

Lemma label_inv (w : World) (m : multiOutput) (p : process) (a b : list byte) :
  Output.WriteLine w m p a = Output.WriteLine w m p b ->
  Output.TrimPrefix a (bytes "/bin/sh: ") = Output.TrimPrefix b (bytes "/bin/sh: ").
Proof.
  unfold Output.WriteLine. intros H. apply app_inv_head in H.
  apply app_inv_tail in H. exact H.
Qed.

Lemma dim_not_red (w : World) (m : multiOutput) (p : process) (s t : string) :
  NoColor w = false -> dimLine w m p s <> errorLine w m p t.
Proof.
  intros Hnc H. injection H as H. unfold Output.WriteErr in H.
  apply label_inv in H. unfold ansi.Dim, ansi.Red in H. rewrite Hnc in H.
  rewrite !bytes_app in H.
  rewrite !TrimPrefix_other in H by (intros q Hq; discriminate Hq).
  discriminate H.
Qed.



Lemma wildcardMatch_spec_witness :
  Commands.wildcardMatch testWorld "dev:*" "dev:css" = true.
Proof.
  apply (proj1 (proj2 (wildcardMatch_spec testWorld "dev:*" "dev:css")) "dev:" "");
    [reflexivity..|].
  split; [exists "css"|exists "dev:css"]; reflexivity.
Defined.

(** * Numbering of duplicate names *)

Lemma indexesFrom_app k nm l1 l2 :
  indexesFrom k nm (l1 ++ l2)
  = indexesFrom k nm l1 ++ indexesFrom (k + length l1) nm l2.
Proof.
  revert k. induction l1 as [|c l1 IH]; intros k; simpl.
  - rewrite Nat.add_0_r. reflexivity.
  - rewrite IH. replace (S k + length l1)%nat with (k + S (length l1))%nat by lia.
    destruct (decide (name c = nm)); reflexivity.
Qed.

Lemma indexesFrom_length k nm l : length (indexesFrom k nm l) = countName nm l.
Proof.
  unfold countName. revert k. induction l as [|c l IH]; intros k; [reflexivity|].
  simpl. rewrite filter_cons.
  destruct (decide (name c = nm)); simpl; rewrite IH; reflexivity.
Qed.

Lemma indexesFrom_elem k nm l j :
  j ∈ indexesFrom k nm l
  <-> exists c, l !! (j - k)%nat = Some c /\ name c = nm /\ (k <= j)%nat.
Proof.
  revert k. induction l as [|c l IH]; intros k; simpl.
  - split; [intros H; by apply elem_of_nil in H|intros (? & H & _); discriminate].
  - assert (Hrec : j ∈ indexesFrom (S k) nm l
               <-> exists c', (c :: l) !! (j - k)%nat = Some c' /\ name c' = nm
                              /\ (S k <= j)%nat).
    { rewrite IH. split; intros (c' & H1 & H2 & H3); exists c'; repeat split; try assumption.
      - replace (j - k)%nat with (S (j - S k)) by lia. exact H1.
      - replace (j - k)%nat with (S (j - S k)) in H1 by lia. exact H1. }
    destruct (decide (name c = nm)) as [E|E].
    + rewrite elem_of_cons, Hrec. split.
      * intros [->|(c' & H1 & H2 & H3)].
        -- exists c. rewrite Nat.sub_diag. auto.
        -- exists c'. repeat split; auto. lia.
      * intros (c' & H1 & H2 & H3).
        destruct (decide (j = k)) as [->|Hne]; [by left|right].
        exists c'. repeat split; auto. lia.
    + rewrite Hrec. split; intros (c' & H1 & H2 & H3); exists c'; repeat split; auto; try lia.
      destruct (decide (j = k)) as [->|Hne]; [|lia].
      rewrite Nat.sub_diag in H1. simpl in H1. congruence.
Qed.

Lemma indexesFrom_NoDup k nm l : NoDup (indexesFrom k nm l).
Proof.
  revert k. induction l as [|c l IH]; intros k; simpl; [constructor|].
  destruct (decide (name c = nm)); [|apply IH].
  constructor; [|apply IH]. rewrite indexesFrom_elem. intros (? & _ & _ & ?). lia.
Qed.

(** The position of [j] among the indexes of its name. *)
Lemma indexesFrom_rank nm l j c :
  l !! j = Some c -> name c = nm ->
  indexesFrom 0 nm l !! countName nm (take j l) = Some j.
Proof.
  intros Hj Hn.
  assert (Hlen : length (take j l) = j).
  { rewrite length_take. apply lookup_lt_Some in Hj. lia. }
  pose proof (take_drop_middle l j c Hj) as E.
  revert Hlen E. generalize (take j l) (drop (S j) l). intros pre post Hlen <-.
  rewrite indexesFrom_app. simpl.
  rewrite decide_True by assumption.
  rewrite lookup_app_r; rewrite indexesFrom_length; [|lia].
  rewrite Nat.sub_diag. simpl. f_equal. exact Hlen.
Qed.

Section Rename.
Variable w : World.

Lemma namesMapOf_snoc l c :
  Commands.namesMapOf (l ++ [c])
  = <[name c := default [] (Commands.namesMapOf l !! name c) ++ [length l]]>
      (Commands.namesMapOf l).
Proof.
  unfold Commands.namesMapOf. rewrite imap_app, foldl_app. simpl.
  rewrite Nat.add_0_r. reflexivity.
Qed.

Lemma namesMapOf_lookup l nm :
  Commands.namesMapOf l !! nm
  = if decide (indexesFrom 0 nm l = []) then None
    else Some (indexesFrom 0 nm l).
Proof.
  induction l as [|c l IH] using rev_ind; [reflexivity|].
  rewrite namesMapOf_snoc, indexesFrom_app. simpl.
  destruct (decide (name c = nm)) as [E|E].
  - subst nm. rewrite lookup_insert_eq, IH.
    destruct (decide (indexesFrom 0 (name c) l = [])) as [->|Hne]; simpl.
    + reflexivity.
    + rewrite decide_False; [reflexivity|].
      intros H. apply app_eq_nil in H as [_ H]. discriminate.
  - rewrite lookup_insert_ne by assumption. rewrite app_nil_r. exact IH.
Qed.

Lemma renameAt_fold nm (idxs : list nat) (l : list command) k j :
  NoDup idxs ->
  foldl (Commands.renameAt nm) l (imap (fun i => pair (k + i)%nat) idxs) !! j
  = match list_find (fun x => x = j) idxs with
    | Some (i, _) => renamed nm (k + i) <$> l !! j
    | None => l !! j
    end.
Proof.
  revert l k. induction idxs as [|x idxs IH]; intros l k Hnd; [reflexivity|].
  apply NoDup_cons in Hnd as [Hx Hnd]. simpl.
  rewrite (imap_ext _ (fun i => pair (S k + i)%nat) idxs)
    by (intros; simpl; f_equal; lia).
  rewrite IH by assumption. rewrite Nat.add_0_r.
  destruct (decide (x = j)) as [->|Hne].
  - destruct (list_find (fun x => x = j) idxs) as [[i y]|] eqn:E.
    { apply list_find_Some in E as (E1 & -> & _).
      exfalso. apply Hx. eapply list_elem_of_lookup_2, E1. }
    simpl. rewrite list_lookup_alter_eq, Nat.add_0_r. reflexivity.
  - rewrite list_lookup_alter_ne by assumption.
    destruct (list_find (fun x => x = j) idxs) as [[i y]|]; simpl; [|reflexivity].
    replace (S (k + i))%nat with (k + S i)%nat by lia. reflexivity.
Qed.

Lemma renameAt_fold0 nm (idxs : list nat) (l : list command) j :
  NoDup idxs ->
  foldl (Commands.renameAt nm) l (imap pair idxs) !! j
  = match list_find (fun x => x = j) idxs with
    | Some (i, _) => renamed nm i <$> l !! j
    | None => l !! j
    end.
Proof. intros Hnd. exact (renameAt_fold nm idxs l 0 j Hnd). Qed.

Lemma renameEntry_other l nm idxs j :
  NoDup idxs -> j ∉ idxs ->
  Commands.renameEntry l (nm, idxs) !! j = l !! j.
Proof.
  intros Hnd Hj. unfold Commands.renameEntry.
  destruct (1 <? length idxs)%nat; [|reflexivity].
  rewrite (renameAt_fold0 nm idxs l j Hnd).
  destruct (list_find (fun x => x = j) idxs) as [[i y]|] eqn:E; [|reflexivity].
  apply list_find_Some in E as (E1 & -> & _).
  exfalso. apply Hj. eapply list_elem_of_lookup_2, E1.
Qed.

Lemma renameEntry_at l nm idxs i j :
  NoDup idxs -> idxs !! i = Some j ->
  Commands.renameEntry l (nm, idxs) !! j
  = (if (1 <? length idxs)%nat then renamed nm i else id) <$> l !! j.
Proof.
  intros Hnd Hi. unfold Commands.renameEntry.
  destruct (1 <? length idxs)%nat; [|by rewrite option_fmap_id].
  rewrite (renameAt_fold0 nm idxs l j Hnd).
  destruct (list_find (fun x => x = j) idxs) as [[i' y]|] eqn:E.
  - apply list_find_Some in E as (E1 & -> & _).
    rewrite (NoDup_lookup _ _ _ _ Hnd E1 Hi). reflexivity.
  - exfalso. rewrite list_find_None in E.
    rewrite Forall_forall in E. apply (E j); [|reflexivity].
    eapply list_elem_of_lookup_2, Hi.
Qed.

Lemma renameEntry_fold_other (es : list (string * list nat)) l j :
  (forall nm idxs, (nm, idxs) ∈ es -> NoDup idxs /\ j ∉ idxs) ->
  foldl Commands.renameEntry l es !! j = l !! j.
Proof.
  revert l. induction es as [|[nm idxs] es IH]; intros l H; [reflexivity|].
  simpl. rewrite IH.
  - destruct (H nm idxs) as [Hnd Hj]; [by left|].
    apply renameEntry_other; assumption.
  - intros nm' idxs' Hin. apply (H nm'). by right.
Qed.

Lemma renameEntry_length l e : length (Commands.renameEntry l e) = length l.
Proof.
  destruct e as [nm idxs]. unfold Commands.renameEntry.
  destruct (1 <? length idxs)%nat; [|reflexivity].
  generalize (imap pair idxs). intros ps. revert l.
  induction ps as [|[i idx] ps IH]; intros l; [reflexivity|].
  simpl. rewrite IH. apply length_alter.
Qed.

Lemma renameEntry_fold_length es l :
  length (foldl Commands.renameEntry l es) = length l.
Proof.
  revert l. induction es as [|e es IH]; intros l; [reflexivity|].
  simpl. rewrite IH. apply renameEntry_length.
Qed.

Hypothesis Hrange : range_ok w.

(** [renameDuplicates] numbers the duplicates in the order of the list,
    whatever the order in which the map of names is ranged over. *)
Lemma renameDuplicates_numbered l :
  Commands.renameDuplicates w l = numbered l.
Proof.
  unfold Commands.renameDuplicates, numbered.
  set (m := Commands.namesMapOf l). set (es := rangeNames w m).
  assert (Hperm : es ≡ₚ map_to_list m) by apply Hrange.
  assert (Hes : forall nm idxs, (nm, idxs) ∈ es <-> m !! nm = Some idxs).
  { intros nm idxs. rewrite Hperm. apply elem_of_map_to_list. }
  assert (Hkeys : NoDup es.*1).
  { rewrite Hperm. apply NoDup_fst_map_to_list. }
  assert (Hidx : forall nm idxs, (nm, idxs) ∈ es -> idxs = indexesFrom 0 nm l).
  { intros nm idxs Hin. apply Hes in Hin. unfold m in Hin.
    rewrite namesMapOf_lookup in Hin.
    destruct (decide (indexesFrom 0 nm l = [])); congruence. }
  apply list_eq. intros j. rewrite list_lookup_imap.
  destruct (l !! j) as [c|] eqn:Hj; simpl.
  2:{ apply lookup_ge_None. rewrite renameEntry_fold_length.
      apply lookup_ge_None. exact Hj. }
  set (nm := name c). set (idxs := indexesFrom 0 nm l).
  set (i := countName nm (take j l)).
  assert (Hi : idxs !! i = Some j) by (eapply indexesFrom_rank; eauto).
  assert (Hin : (nm, idxs) ∈ es).
  { apply Hes. unfold m. rewrite namesMapOf_lookup.
    rewrite decide_False; [reflexivity|].
    fold idxs. intros E. rewrite E in Hi. discriminate. }
  apply list_elem_of_split in Hin as (es1 & es2 & Ees).
  assert (Hother : forall nm' idxs', (nm', idxs') ∈ es1 ++ es2 ->
                   NoDup idxs' /\ j ∉ idxs').
  { intros nm' idxs' Hin'.
    assert (Hne : nm' <> nm).
    { intros ->. rewrite Ees in Hkeys. rewrite fmap_app, fmap_cons in Hkeys.
      apply NoDup_app in Hkeys as (_ & Hk1 & Hk2).
      apply NoDup_cons in Hk2 as [Hk2 _]. simpl in *.
      apply elem_of_app in Hin' as [Hin'|Hin'].
      - apply (Hk1 nm); [|by left]. apply list_elem_of_fmap.
        exists (nm, idxs'). auto.
      - apply Hk2. apply list_elem_of_fmap. exists (nm, idxs'). auto. }
    rewrite (Hidx nm' idxs').
    2:{ rewrite Ees. apply elem_of_app in Hin' as [?|?];
        apply elem_of_app; [by left|right; by right]. }
    split; [apply indexesFrom_NoDup|].
    rewrite indexesFrom_elem. intros (c' & H1 & H2 & _).
    rewrite Nat.sub_0_r, Hj in H1. injection H1 as <-.
    apply Hne. symmetry. exact H2. }
  rewrite Ees, foldl_app.
  change (foldl Commands.renameEntry (foldl Commands.renameEntry l es1)
            ((nm, idxs) :: es2))
    with (foldl Commands.renameEntry
            (Commands.renameEntry (foldl Commands.renameEntry l es1) (nm, idxs))
            es2).
  rewrite renameEntry_fold_other
    by (intros nm' idxs' ?; apply (Hother nm'), elem_of_app; by right).
  rewrite (renameEntry_at _ nm idxs i j (indexesFrom_NoDup 0 nm l) Hi).
  rewrite renameEntry_fold_other
    by (intros nm' idxs' ?; apply (Hother nm'), elem_of_app; by left).
  rewrite Hj. simpl. f_equal. unfold numberedAt. fold nm.
  unfold idxs. rewrite indexesFrom_length.
  destruct (1 <? countName nm l)%nat; [|reflexivity].
  reflexivity.
Qed.
End Rename.

(** * parseCommands *)

Lemma classify_spec cmds result npm :
  Commands.classify cmds result npm
  = (result ++ plainCommands cmds, npm ++ npmCommands cmds).
Proof.
  revert result npm. induction cmds as [|c cmds IH]; intros result npm.
  - simpl. rewrite !app_nil_r. reflexivity.
  - unfold plainCommands, npmCommands. simpl. rewrite !filter_cons.
    fold (derivedName c). fold (isNpm c).
    destruct (isNpm c) eqn:E.
    + rewrite IH. rewrite decide_False by discriminate.
      rewrite decide_True by reflexivity.
      rewrite <- app_assoc. reflexivity.
    + rewrite IH. rewrite decide_True by reflexivity.
      rewrite decide_False by discriminate.
      rewrite fmap_cons, <- app_assoc. reflexivity.
Qed.

Lemma filter_all {A} (P : A -> Prop) `{forall x, Decision (P x)} (l : list A) :
  (forall x, x ∈ l -> P x) -> filter P l = l.
Proof.
  induction l as [|x l IH]; intros Hall; [reflexivity|].
  rewrite filter_cons, decide_True by (apply Hall; by left).
  rewrite IH; [reflexivity|]. intros y Hy. apply Hall. by right.
Qed.

Lemma filter_none {A} (P : A -> Prop) `{forall x, Decision (P x)} (l : list A) :
  (forall x, x ∈ l -> ~ P x) -> filter P l = [].
Proof.
  induction l as [|x l IH]; intros Hall; [reflexivity|].
  rewrite filter_cons, decide_False by (apply Hall; by left).
  apply IH. intros y Hy. apply Hall. by right.
Qed.

Section ParseCommands.
Variable w : World.
Hypothesis Hrange : range_ok w.

(** What [matchScripts] appends comes from the script table. *)
Lemma matchScripts_spec scriptName entries result :
  exists found,
    Commands.matchScripts w scriptName entries result
    = (result ++ found, bool_decide (found <> []))
    /\ (forall c, c ∈ found -> (name c, cmd c) ∈ entries
                  /\ Commands.wildcardMatch w scriptName (name c) = true)
    /\ ((forall nm pcmd, (nm, pcmd) ∈ entries ->
           Commands.wildcardMatch w scriptName nm = false) -> found = []).
Proof.
  unfold Commands.matchScripts.
  induction entries as [|[nm pcmd] entries IH] using rev_ind.
  - exists []. simpl. rewrite app_nil_r. split; [reflexivity|].
    split; [|reflexivity]. intros c Hc. by apply elem_of_nil in Hc.
  - destruct IH as (found & IH & Hfound & Hnone). rewrite foldl_app, IH. simpl.
    destruct (Commands.wildcardMatch w scriptName nm) eqn:E.
    + exists (found ++ [mkCommand nm pcmd]). rewrite app_assoc.
      split; [|split].
      * f_equal. symmetry. apply bool_decide_eq_true_2.
        intros H. apply app_eq_nil in H as [_ H]. discriminate.
      * intros c [Hc|Hc]%elem_of_app.
        -- destruct (Hfound c Hc). split; [|assumption].
           apply elem_of_app. by left.
        -- apply list_elem_of_singleton in Hc as ->. simpl. split; [|assumption].
           apply elem_of_app. right. by left.
      * intros Hall. rewrite (Hall nm pcmd) in E; [discriminate|].
        apply elem_of_app. right. by left.
    + exists found. split; [reflexivity|]. split.
      * intros c Hc. destruct (Hfound c Hc). split; [|assumption].
        apply elem_of_app. by left.
      * intros Hall. apply Hnone. intros nm' pcmd' Hin. apply (Hall nm' pcmd').
        apply elem_of_app. by left.
Qed.

(** The scripts [npmLoop] appends come from the script table; a command
    that does not resolve makes it fail or leaves a missing name. *)
Lemma npmLoop_spec scripts cmds i result missing :
  match Commands.npmLoop w scripts i cmds result missing with
  | inl _ => True
  | inr (result', missing') =>
      (exists resolved,
         result' = result ++ resolved
         /\ forall c, c ∈ resolved -> scripts !! name c = Some (cmd c))
      /\ (missing <> [] -> missing' <> [])
      /\ ((exists c, c ∈ cmds /\ unresolved w scripts c) -> missing' <> [])
  end.
Proof.
  revert i result missing. induction cmds as [|c cmds IH]; intros i result missing.
  - simpl. split; [|split].
    + exists []. rewrite app_nil_r. split; [reflexivity|].
      intros c Hc. by apply elem_of_nil in Hc.
    + auto.
    + intros (c & Hc & _). by apply elem_of_nil in Hc.
  - simpl. set (sn := strings.TrimPrefix c "npm:").
    destruct (scripts !! sn) as [s|] eqn:Hs.
    + specialize (IH (S i) (result ++ [mkCommand sn s]) missing).
      destruct (Commands.npmLoop w scripts (S i) cmds _ missing)
        as [e|[result' missing']]; [exact I|].
      destruct IH as ((resolved & -> & Hres) & Hm & Hun). split; [|split].
      * exists (mkCommand sn s :: resolved). rewrite <- app_assoc.
        split; [reflexivity|]. intros c' [->|Hc']%elem_of_cons; [exact Hs|auto].
      * exact Hm.
      * intros (c' & [->|Hc']%elem_of_cons & Hc'').
        -- destruct Hc'' as [Hc'' _]. fold sn in Hc''. congruence.
        -- apply Hun. eauto.
    + destruct (strings.Contains sn "*") eqn:Hstar; simpl.
      * destruct (matchScripts_spec sn (rangeScripts w i scripts) result)
          as (found & Hmatch & Hfound & Hnone).
        rewrite Hmatch. case_bool_decide as Hne; [|exact I].
        specialize (IH (S i) (result ++ found) missing).
        destruct (Commands.npmLoop w scripts (S i) cmds _ missing)
          as [e|[result' missing']]; [exact I|].
        destruct IH as ((resolved & -> & Hres) & Hm & Hun). split; [|split].
        -- exists (found ++ resolved). rewrite <- app_assoc.
           split; [reflexivity|]. intros c' [Hc'|Hc']%elem_of_app; [|auto].
           destruct (Hfound c' Hc') as [Hin _].
           rewrite (proj1 Hrange i scripts) in Hin.
           apply elem_of_map_to_list in Hin. exact Hin.
        -- exact Hm.
        -- intros (c' & [->|Hc']%elem_of_cons & Hc'').
           ++ exfalso. apply Hne. apply Hnone. intros nm pcmd Hin.
              destruct Hc'' as [_ Hc'']. apply (Hc'' Hstar nm pcmd).
              rewrite (proj1 Hrange i scripts) in Hin.
              apply elem_of_map_to_list in Hin. exact Hin.
           ++ apply Hun. eauto.
      * specialize (IH (S i) result (missing ++ [sn])).
        destruct (Commands.npmLoop w scripts (S i) cmds result _)
          as [e|[result' missing']]; [exact I|].
        destruct IH as (Hres & Hm & Hun).
        assert (missing' <> []).
        { apply Hm. intros H. apply app_eq_nil in H as [_ H]. discriminate. }
        auto.
Qed.

Lemma parseNpmScripts_spec b cmds :
  match Commands.parseNpmScripts w b cmds with
  | inl _ => True
  | inr resolved =>
      exists scripts,
        Unmarshal w b = inr scripts
        /\ (forall c, c ∈ resolved -> scripts !! name c = Some (cmd c))
        /\ forall c, c ∈ cmds -> ~ unresolved w scripts c
  end.
Proof.
  unfold Commands.parseNpmScripts.
  destruct (Unmarshal w b) as [e|scripts]; [exact I|].
  pose proof (npmLoop_spec scripts cmds 0 [] []) as H.
  destruct (Commands.npmLoop w scripts 0 cmds [] [])
    as [e|[result missing]]; [exact I|].
  destruct H as ((resolved & -> & Hres) & _ & Hun).
  destruct missing as [|m0 missing]; simpl.
  - exists scripts. split; [reflexivity|]. split; [exact Hres|].
    intros c Hc Hc'. apply Hun; eauto.
  - exact I.
Qed.

(** The list [parseCommands] returns: the plain commands in the order
    supplied, then the scripts the npm commands resolve to, duplicate
    names numbered along that list. *)
Lemma parseCommands_spec root cmds out :
  Commands.parseCommands w root cmds = inr out ->
  exists resolved,
    out = numbered (plainCommands cmds ++ resolved)
    /\ (npmCommands cmds = [] -> resolved = [])
    /\ (npmCommands cmds <> [] ->
        exists b scripts,
          ReadFile w (Join w root "package.json") = inr b
          /\ Unmarshal w b = inr scripts
          /\ (forall c, c ∈ resolved -> scripts !! name c = Some (cmd c))
          /\ forall c, c ∈ npmCommands cmds -> ~ unresolved w scripts c).
Proof.
  unfold Commands.parseCommands. rewrite classify_spec. simpl.
  destruct (npmCommands cmds) as [|n0 ns] eqn:Hnpm; simpl.
  - intros H. injection H as <-. exists [].
    rewrite app_nil_r, renameDuplicates_numbered by assumption.
    split; [reflexivity|]. split; [reflexivity|]. intros H. contradiction.
  - destruct (ReadFile w (Join w root "package.json")) as [e|b]; [discriminate|].
    pose proof (parseNpmScripts_spec b (n0 :: ns)) as H.
    destruct (Commands.parseNpmScripts w b (n0 :: ns)) as [e|resolved];
      [discriminate|].
    destruct H as (scripts & Hu & Hres & Hun).
    intros H. injection H as <-. exists resolved.
    rewrite renameDuplicates_numbered by assumption.
    split; [reflexivity|]. split; [discriminate|]. intros _.
    exists b, scripts. auto.
Qed.

Lemma New_spec cfg pm :
  Manager.New w cfg = inr pm ->
  exists root out,
    Abs w (Manager.Root cfg) = inr root
    /\ Commands.parseCommands w root (Manager.Cmds cfg) = inr out
    /\ Manager.procs pm
       = imap (processOf root (environment w cfg) (Manager.Silent cfg)) out.
Proof.
  unfold Manager.New.
  destruct (Abs w (Manager.Root cfg)) as [e|root] eqn:Ha; [discriminate|].
  fold (environment w cfg).
  destruct (Commands.parseCommands w root (Manager.Cmds cfg)) as [e|out] eqn:Hp;
    [discriminate|].
  intros H. injection H as <-. exists root, out.
  split; [reflexivity|]. split; [exact Hp|].
  set (pm0 := Manager.mkManager _ _ _ _). clear Hp.
  assert (Hgen : forall pm1,
    Manager.procs (foldl (Manager.addProcess root (environment w cfg)) pm1
                         (imap pair out))
    = Manager.procs pm1
      ++ imap (processOf root (environment w cfg) (Manager.silent pm1)) out
    /\ Manager.silent (foldl (Manager.addProcess root (environment w cfg)) pm1
                         (imap pair out)) = Manager.silent pm1).
  { induction out as [|c out IH] using rev_ind; intros pm1.
    - simpl. rewrite app_nil_r. auto.
    - rewrite !imap_app, foldl_app.
      destruct (IH pm1) as [IH1 IH2].
      set (X := foldl _ pm1 (imap pair out)) in *.
      simpl. rewrite Nat.add_0_r, IH1, IH2, <- app_assoc. auto. }
  apply (Hgen pm0).
Qed.
End ParseCommands.

Lemma testWorld_range_ok : range_ok testWorld.
Proof. split; intros; reflexivity. Qed.

Lemma numbered_cmd l : map cmd (numbered l) = map cmd l.
Proof.
  unfold numbered. apply list_eq. intros j.
  rewrite !list_lookup_fmap, list_lookup_imap.
  destruct (l !! j) as [c|]; [|reflexivity]. simpl. f_equal.
  unfold numberedAt. destruct (1 <? countName (name c) l)%nat; reflexivity.
Qed.

Lemma plainCommands_cmd cmds :
  map cmd (plainCommands cmds) = filter (fun c => isNpm c = false) cmds.
Proof.
  unfold plainCommands. rewrite <- list_fmap_compose.
  apply list_fmap_id.
Qed.

Lemma countName_take_le nm (l : list command) i j :
  (i <= j)%nat -> (countName nm (take i l) <= countName nm (take j l))%nat.
Proof.
  intros Hij. unfold countName.
  replace (take j l) with (take i l ++ take (j - i) (drop i l)).
  - rewrite filter_app, length_app. lia.
  - rewrite take_take_drop. f_equal. lia.
Qed.

Lemma countName_take_lt nm (l : list command) i j c :
  (i < j)%nat -> l !! i = Some c -> name c = nm ->
  (countName nm (take i l) < countName nm (take j l))%nat.
Proof.
  intros Hij Hi Hn.
  apply Nat.lt_le_trans with (countName nm (take (S i) l));
    [|apply countName_take_le; lia].
  rewrite (take_S_r l i c Hi). unfold countName.
  rewrite filter_app, length_app, filter_cons, decide_True by assumption.
  simpl. lia.
Qed.

Lemma countName_ge2 nm (l : list command) i j ci cj :
  (i < j)%nat -> l !! i = Some ci -> l !! j = Some cj ->
  name ci = nm -> name cj = nm -> (1 < countName nm l)%nat.
Proof.
  intros Hij Hi Hj Hni Hnj.
  pose proof (countName_take_lt nm l i j ci Hij Hi Hni) as H1.
  pose proof (countName_take_lt nm l j (S j) cj (Nat.lt_succ_diag_r j) Hj Hnj) as H2.
  pose proof (countName_take_le nm l (S j) (length l)) as H3.
  rewrite firstn_all in H3. apply lookup_lt_Some in Hj. lia.
Qed.

(** C6, as amended.  For commands none of which is taken for an npm
    script, [parseCommands] names each command by the basename of the
    first space-delimited token of the command trimmed of surrounding
    white space, [cmd] when that basename is [.] or [/]; a name that
    occurs once is kept, and commands that share a name are renamed
    [name.1], [name.2], ... in the order supplied: of two such commands the
    earlier has the smaller number. *)
Theorem plain_commands_named_in_order (w : World) (root : string)
    (cmds : list string) :
  range_ok w ->
  (forall c, c ∈ cmds -> isNpm c = false) ->
  let derived := map (fun c => mkCommand (derivedName c) c) cmds in
  Commands.parseCommands w root cmds = inr (numbered derived)
  /\ (forall c,
        let base :=
          filepath.Base (strings.Cut (strings.TrimSpace c) " ").1.1 in
        derivedName c
        = if bool_decide (base ∈ ["."; "/"; ""]) then "cmd" else base)
  /\ (forall j c,
        derived !! j = Some c -> countName (name c) derived = 1%nat ->
        numbered derived !! j = Some c)
  /\ (forall i j ci cj,
        (i < j)%nat -> derived !! i = Some ci -> derived !! j = Some cj ->
        name ci = name cj ->
        exists ki kj,
          numbered derived !! i
            = Some (mkCommand (name ci +:+ "." +:+ itoa ki) (cmd ci))
          /\ numbered derived !! j
            = Some (mkCommand (name ci +:+ "." +:+ itoa kj) (cmd cj))
          /\ 1 <= ki < kj).
Proof.
  intros Hrange Hplain derived. split; [|split; [|split]].
  - destruct (Commands.parseCommands w root cmds) as [e|out] eqn:E.
    + exfalso. revert E. unfold Commands.parseCommands.
      rewrite classify_spec. simpl. unfold npmCommands.
      rewrite filter_none; [discriminate|].
      intros c Hc. rewrite (Hplain c Hc). discriminate.
    + destruct (parseCommands_spec w Hrange root cmds out E)
        as (resolved & -> & Hnil & _).
      rewrite Hnil.
      2:{ unfold npmCommands. apply filter_none.
          intros c Hc. rewrite (Hplain c Hc). discriminate. }
      rewrite app_nil_r. unfold plainCommands.
      rewrite filter_all by assumption. reflexivity.
  - intros c base. unfold derivedName, Commands.filterCmdName.
    fold base. destruct (strings.Cut (strings.TrimSpace c) " ") as [[nm after] found].
    simpl in base. subst base. set (base := filepath.Base nm).
    change (String filepath.Separator "") with "/".
    destruct (String.eqb_spec base ".") as [->|H1]; [reflexivity|].
    destruct (String.eqb_spec base "/") as [->|H2]; [reflexivity|].
    simpl. destruct (String.eqb_spec base "") as [->|H3]; [reflexivity|].
    rewrite bool_decide_eq_false_2; [reflexivity|].
    rewrite !elem_of_cons, elem_of_nil. tauto.
  - intros j c Hj Hone. unfold numbered. rewrite list_lookup_imap, Hj. simpl.
    unfold numberedAt. rewrite Hone. reflexivity.
  - intros i j ci cj Hij Hi Hj Hn.
    pose proof (countName_ge2 (name ci) derived i j ci cj Hij Hi Hj eq_refl
                  (eq_sym Hn)) as Hge.
    exists (Z.of_nat (countName (name ci) (take i derived)) + 1),
           (Z.of_nat (countName (name ci) (take j derived)) + 1).
    unfold numbered. rewrite !list_lookup_imap, Hi, Hj. simpl.
    unfold numberedAt. rewrite <- Hn.
    destruct (Nat.ltb_spec 1 (countName (name ci) derived)); [|lia].
    split; [reflexivity|]. split; [reflexivity|].
    pose proof (countName_take_lt (name ci) derived i j ci Hij Hi eq_refl). lia.
Qed.

Lemma plain_commands_named_in_order_witness :
  Commands.parseCommands testWorld "/work"
    ["echo 'hello' && sleep 0.15"; "echo 'world' && sleep 0.15"]
  = inr [mkCommand "echo.1" "echo 'hello' && sleep 0.15";
         mkCommand "echo.2" "echo 'world' && sleep 0.15"].
Proof.
  destruct (plain_commands_named_in_order testWorld "/work"
              ["echo 'hello' && sleep 0.15"; "echo 'world' && sleep 0.15"])
    as (H & _).
  - split; intros; reflexivity.
  - intros c [->|[->|Hc%elem_of_nil]%elem_of_cons]%elem_of_cons;
      [vm_compute; reflexivity..|contradiction].
  - rewrite H. vm_compute. reflexivity.
Defined.

(** C6, as stated, fails twice: a tab does not end the first token, and an
    npm command supplied first is numbered after a plain command of the
    same name supplied second. *)
Lemma names_not_in_supplied_order :
  (Commands.filterCmdName (String "e" (String "009" "x")) = String "e" (String "009" "x")
   /\ filepath.Base (firstField (String "e" (String "009" "x"))) = "e")
  /\ Commands.parseCommands testWorld "/work" ["npm:test"; "test -f x"]
     = inr [mkCommand "test.1" "test -f x"; mkCommand "test.2" "echo 'test'"].
Proof. vm_compute. repeat split. Qed.


(** * Commands that do not resolve *)

(** A command taken for an npm script that does not resolve makes
    [parseCommands], and so [New], fail. *)
Lemma unresolved_is_error (w : World) (cfg : Manager.Config) (c : string) :
  range_ok w ->
  c ∈ npmCommands (Manager.Cmds cfg) ->
  (forall root b scripts,
     ReadFile w (Join w root "package.json") = inr b ->
     Unmarshal w b = inr scripts -> unresolved w scripts c) ->
  (forall root, exists e,
     Commands.parseCommands w root (Manager.Cmds cfg) = inl e)
  /\ exists e, Manager.New w cfg = inl e.
Proof.
  intros Hrange Hc Hun.
  assert (Hparse : forall root, exists e,
            Commands.parseCommands w root (Manager.Cmds cfg) = inl e).
  { intros root.
    destruct (Commands.parseCommands w root (Manager.Cmds cfg)) as [e|out] eqn:E;
      [eauto|exfalso].
    destruct (parseCommands_spec w Hrange root _ out E) as (resolved & _ & _ & H).
    destruct H as (b & scripts & Hb & Hs & _ & H).
    - intros Hnil. rewrite Hnil in Hc. by apply elem_of_nil in Hc.
    - apply (H c Hc), (Hun root b scripts Hb Hs). }
  split; [exact Hparse|].
  unfold Manager.New. destruct (Abs w (Manager.Root cfg)) as [e|root]; [eauto|].
  destruct (Hparse root) as [e ->]. eauto.
Qed.

(** C7: the code at the failing input.  The script name has a slash, the
    derived name is its last element, the command is not taken for an npm
    script and a process is made of it. *)
Theorem npm_command_with_slash_not_resolved :
  testScripts !! "build/css" = None
  /\ isNpm "npm:build/css" = false
  /\ Commands.parseCommands testWorld "/work" ["npm:build/css"]
     = inr [mkCommand "css" "npm:build/css"]
  /\ map Args (Manager.procs (testManager ["npm:build/css"]))
     = [["/bin/sh"; "-c"; "npm:build/css"]]
  /\ Manager.New testWorld (testConfig ["npm:build/css"])
     = inr (testManager ["npm:build/css"]).
Proof. vm_compute. repeat split. Qed.

(** * The output of a manager *)

(** The names are printed, and the shared maximum is no less than the
    length of the name of any process of the manager: the conditions under
    which [WriteLine] pads every label to the same width. *)
Lemma New_output_ready (w : World) (cfg : Manager.Config)
    (pm : Manager.ProcessManager) :
  Manager.New w cfg = inr pm ->
  printProcName (Manager.output pm) = true
  /\ Forall (fun p => (String.length (Name p)
                       <= maxNameLength (Manager.output pm))%nat)
            (Manager.procs pm).
Proof.
  unfold Manager.New.
  destruct (Abs w (Manager.Root cfg)) as [e|root]; [discriminate|].
  destruct (Commands.parseCommands w root (Manager.Cmds cfg)) as [e|out];
    [discriminate|].
  intros H. injection H as <-.
  generalize (imap pair out). intros ics.
  set (env := if IsDir w _ then _ else _). clearbody env.
  set (pm0 := Manager.mkManager _ _ _ _).
  assert (H0 : printProcName (Manager.output pm0) = true
               /\ Forall (fun p => (String.length (Name p)
                            <= maxNameLength (Manager.output pm0))%nat)
                         (Manager.procs pm0)).
  { split; [reflexivity|constructor]. }
  clearbody pm0. revert pm0 H0.
  induction ics as [|[i c] ics IH]; intros pm0 H0; [exact H0|].
  simpl. apply IH. destruct H0 as [Hp Hall].
  split; [exact Hp|]. simpl.
  apply Forall_app. split.
  - eapply Forall_impl; [exact Hall|]. intros p Hle. simpl in Hle.
    destruct (Nat.ltb_spec (maxNameLength (Manager.output pm0))
                (String.length (name c))); lia.
  - constructor; [|constructor]. simpl.
    destruct (Nat.ltb_spec (maxNameLength (Manager.output pm0))
                (String.length (name c))); lia.
Qed.

(** * The shutdown sequence *)

Module Shutdown.
Import Manager ShutdownInvariants.


Lemma unfinished_insert_same (gs : list goroutine) i g g' :
  gs !! i = Some g -> g <> Finished -> g' <> Finished ->
  unfinished (<[i := g']> gs) = unfinished gs.
Proof.
  unfold unfinished. revert i. induction gs as [|x gs IH]; intros i Hi Hg Hg'.
  - discriminate.
  - destruct i as [|i]; simpl in *.
    + injection Hi as ->. rewrite !filter_cons, !decide_True by assumption.
      reflexivity.
    + rewrite !filter_cons. destruct (decide (x <> Finished)); simpl;
        rewrite (IH i Hi Hg Hg'); reflexivity.
Qed.

Lemma unfinished_insert_finished (gs : list goroutine) i g :
  gs !! i = Some g -> g <> Finished ->
  unfinished gs = S (unfinished (<[i := Finished]> gs)).
Proof.
  unfold unfinished. revert i. induction gs as [|x gs IH]; intros i Hi Hg.
  - discriminate.
  - destruct i as [|i]; simpl in *.
    + injection Hi as ->. rewrite !filter_cons, decide_True by assumption.
      rewrite decide_False by (intros H; apply H; reflexivity). reflexivity.
    + rewrite !filter_cons. destruct (decide (x <> Finished)); simpl;
        rewrite (IH i Hi Hg); reflexivity.
Qed.

Lemma unfinished_zero (gs : list goroutine) i g :
  unfinished gs = 0%nat -> gs !! i = Some g -> g = Finished.
Proof.
  unfold unfinished. intros H Hi.
  destruct (decide (g = Finished)) as [|Hne]; [assumption|exfalso].
  assert (Hin : g ∈ filter (fun g => g <> Finished) gs).
  { apply list_elem_of_filter. split; [assumption|].
    eapply list_elem_of_lookup_2, Hi. }
  destruct (filter _ gs); [by apply elem_of_nil in Hin|discriminate].
Qed.

Section Invariant.
Variable n : nat.
Variable timeout : Z.





Lemma bookkeeping_all_returned s :
  bookkeeping n s -> procWg s = 0%nat ->
  forall i, (i < n)%nat ->
    gor s !! i = Some Finished /\ RunReturned i ∈ log s.
Proof.
  intros (Hlen & Hret & _ & Hwg & _) H0 i Hi.
  rewrite Hwg in H0.
  destruct (lookup_lt_is_Some_2 (gor s) i) as [g Hg]; [lia|].
  pose proof (unfinished_zero _ _ _ H0 Hg) as ->.
  split; [exact Hg|]. apply (Hret i Finished Hg). discriminate.
Qed.

Lemma init_invariant :
  bookkeeping n (init n) /\ coordinated n timeout (init n) /\ ordered n (init n).
Proof.
  split; [|split].
  - unfold bookkeeping, init. simpl. repeat split.
    + apply length_replicate.
    + intros i g [-> _]%lookup_replicate H. contradiction.
    + lia.
    + unfold unfinished. rewrite filter_all by
        (intros g [-> _]%elem_of_replicate; discriminate).
      symmetry. apply length_replicate.
    + discriminate.
  - reflexivity.
  - split; intros l1 l2; simpl; intros; by destruct l1.
Qed.

Lemma step_bookkeeping s l s' :
  bookkeeping n s -> step n timeout s l = Some s' -> bookkeeping n s'.
Proof.
  intros (Hlen & Hret & Hdone & Hwg & Hfin) Hstep.
  destruct l as [i|i|i| | |d|]; simpl in Hstep.
  - destruct (gor s !! i) as [[]|] eqn:Hi; try discriminate.
    injection Hstep as <-. unfold bookkeeping. simpl.
    split; [by rewrite length_insert|]. split; [|split; [|split]].
    + intros j g Hj Hg. apply elem_of_app.
      destruct (decide (i = j)) as [->|Hne]; [right; by left|left].
      rewrite list_lookup_insert_ne in Hj by assumption. eauto.
    + intros _. exists i. apply elem_of_app. right. by left.
    + rewrite (unfinished_insert_same _ _ InRun) by (assumption || discriminate).
      exact Hwg.
    + intros H. specialize (Hfin H).
      pose proof (unfinished_zero _ _ _ Hfin Hi). discriminate.
  - destruct (gor s !! i) as [[]|] eqn:Hi; try discriminate.
    destruct (done s <? n)%nat; [|discriminate].
    injection Hstep as <-. unfold bookkeeping. simpl.
    split; [by rewrite length_insert|]. split; [|split; [|split]].
    + intros j g Hj Hg.
      destruct (decide (i = j)) as [->|Hne].
      * apply (Hret j Returned Hi). discriminate.
      * rewrite list_lookup_insert_ne in Hj by assumption. eauto.
    + intros _. exists i. apply (Hret i Returned Hi). discriminate.
    + rewrite (unfinished_insert_same _ _ Returned) by (assumption || discriminate).
      exact Hwg.
    + intros H. specialize (Hfin H).
      pose proof (unfinished_zero _ _ _ Hfin Hi). discriminate.
  - destruct (gor s !! i) as [[]|] eqn:Hi; try discriminate.
    injection Hstep as <-. unfold bookkeeping. simpl.
    pose proof (unfinished_insert_finished _ _ Sent Hi) as Hun.
    split; [by rewrite length_insert|]. split; [|split; [|split]].
    + intros j g Hj Hg.
      destruct (decide (i = j)) as [->|Hne].
      * apply (Hret j Sent Hi). discriminate.
      * rewrite list_lookup_insert_ne in Hj by assumption. eauto.
    + exact Hdone.
    + rewrite Hwg, Hun by discriminate. lia.
    + intros H. specialize (Hfin H).
      pose proof (unfinished_zero _ _ _ Hfin Hi). discriminate.
  - unfold coordStep in Hstep.
    destruct (coord s) as [|k|d|k|].
    + destruct (Nat.ltb_spec 0 (done s)); [|discriminate].
      injection Hstep as <-. unfold bookkeeping. simpl.
      repeat split; try assumption.
      * intros j g Hj Hg. apply elem_of_app. left. eauto.
      * intros _. destruct Hdone as [j Hj]; [assumption|].
        exists j. apply elem_of_app. by left.
    + destruct (k <? n)%nat; injection Hstep as <-; unfold bookkeeping; simpl;
        (repeat split; try assumption;
         [intros j g Hj Hg; apply elem_of_app; left; eauto
         |intros H; destruct (Hdone H) as [j Hj]; exists j;
          apply elem_of_app; by left]).
    + destruct (d <=? now s); [|discriminate].
      injection Hstep as <-. unfold bookkeeping. simpl.
      repeat split; try assumption.
      * intros j g Hj Hg. apply elem_of_app. left. eauto.
      * intros H. destruct (Hdone H) as [j Hj]. exists j.
        apply elem_of_app. by left.
    + destruct (k <? n)%nat; injection Hstep as <-; unfold bookkeeping; simpl.
      * repeat split; try assumption.
        -- intros j g Hj Hg. apply elem_of_app. left. eauto.
        -- intros H. destruct (Hdone H) as [j Hj]. exists j.
           apply elem_of_app. by left.
      * repeat split; assumption.
    + discriminate.
  - injection Hstep as <-. unfold signalStep.
    destruct (coord s); unfold bookkeeping; simpl;
      repeat split; try assumption;
      try (intros j g Hj Hg; apply elem_of_app; left; eauto);
      try (intros H; destruct (Hdone H) as [j Hj]; exists j;
           apply elem_of_app; by left).
  - destruct (0 <=? d); [|discriminate].
    injection Hstep as <-. unfold bookkeeping. simpl. repeat split; assumption.
  - destruct (Nat.eqb_spec (procWg s) 0) as [H0|]; [|discriminate].
    destruct (returned s); [discriminate|]. simpl in Hstep.
    injection Hstep as <-. unfold bookkeeping. simpl.
    repeat split; try assumption.
    + intros j g Hj Hg. apply elem_of_app. left. eauto.
    + intros H. destruct (Hdone H) as [j Hj]. exists j.
      apply elem_of_app. by left.
    + intros _. rewrite <- Hwg. exact H0.
Qed.







End Invariant.


End Shutdown.

(** * The line scanner *)

Module Scanner.
Import bufio.

Lemma IndexByte_Some (l : list byte) c i :
  IndexByte l c = Some i ->
  (i < length l)%nat /\ l !! i = Some c /\ c ∉ take i l.
Proof.
  revert i. induction l as [|x l IH]; intros i; simpl; [discriminate|].
  destruct (decide (x = c)) as [->|Hne].
  - intros H. injection H as <-. simpl. split; [lia|]. split; [reflexivity|].
    apply not_elem_of_nil.
  - destruct (IndexByte l c) as [j|]; [|discriminate].
    intros H. injection H as <-. destruct (IH j eq_refl) as (H1 & H2 & H3).
    simpl. split; [lia|]. split; [exact H2|].
    apply not_elem_of_cons. split; [congruence|exact H3].
Qed.

Lemma IndexByte_None (l : list byte) c : IndexByte l c = None <-> c ∉ l.
Proof.
  induction l as [|x l IH]; simpl.
  - split; [intros _; apply not_elem_of_nil|reflexivity].
  - destruct (decide (x = c)) as [->|Hne].
    + split; [discriminate|]. intros H. exfalso. apply H. by left.
    + rewrite not_elem_of_cons. destruct (IndexByte l c); simpl.
      * split; [discriminate|]. intros [_ H]. apply IH in H. discriminate.
      * split; [|reflexivity]. intros _. split; [congruence|]. by apply IH.
Qed.

Lemma IndexByte_app_l (l1 l2 : list byte) c i :
  IndexByte l1 c = Some i -> IndexByte (l1 ++ l2) c = Some i.
Proof.
  revert i. induction l1 as [|x l1 IH]; intros i; simpl; [discriminate|].
  destruct (decide (x = c)); [auto|].
  destruct (IndexByte l1 c) as [j|]; [|discriminate].
  intros H. injection H as <-. rewrite (IH j eq_refl). reflexivity.
Qed.

Lemma IndexByte_app_r (l1 l2 : list byte) c :
  c ∉ l1 ->
  IndexByte (l1 ++ l2) c = (fun i => (length l1 + i)%nat) <$> IndexByte l2 c.
Proof.
  induction l1 as [|x l1 IH]; intros H; simpl.
  - destruct (IndexByte l2 c); reflexivity.
  - apply not_elem_of_cons in H as [Hne H].
    rewrite decide_False by congruence. rewrite (IH H).
    destruct (IndexByte l2 c); reflexivity.
Qed.

Lemma IndexByte_take (l : list byte) c i k :
  IndexByte l c = Some i -> (i < k)%nat -> IndexByte (take k l) c = Some i.
Proof.
  revert i k. induction l as [|x l IH]; intros i k; simpl; [discriminate|].
  destruct k as [|k]; [lia|]. simpl.
  destruct (decide (x = c)); [auto|].
  destruct (IndexByte l c) as [j|]; [|discriminate].
  intros H Hk. injection H as <-. rewrite (IH j k eq_refl) by lia. reflexivity.
Qed.

Lemma IndexByte_take_None (l : list byte) c k :
  IndexByte l c = None -> IndexByte (take k l) c = None.
Proof.
  rewrite !IndexByte_None. intros H Hin. apply H.
  apply elem_of_take in Hin as (i & Hi & _).
  eapply list_elem_of_lookup_2, Hi.
Qed.

(** ** fill and ReadSlice on a ready reader *)

Lemma fillLoop_S i b :
  fillLoop (S i) b
  = let '(data, e, rd') := io.Read (rd b) (size b - length (buf b)) in
    let b' := mkReader (size b) (buf b ++ data) (err b) rd' in
    match e with
    | Some e => mkReader (size b) (buf b ++ data) (Some e) rd'
    | None => if (0 <? length data)%nat then b' else fillLoop i b'
    end.
Proof. reflexivity. Qed.

Opaque fillLoop.

Lemma fill_end b :
  io.chunks (rd b) = [] ->
  fill b = mkReader (size b) (buf b) (Some (io.final (rd b))) (rd b).
Proof.
  intros H. unfold fill, maxConsecutiveEmptyReads. rewrite fillLoop_S.
  unfold io.Read. rewrite H. simpl. rewrite app_nil_r. reflexivity.
Qed.

Lemma fill_whole b c cs :
  io.chunks (rd b) = c :: cs -> c <> [] ->
  (length c <= size b - length (buf b))%nat ->
  fill b = mkReader (size b) (buf b ++ c) (err b)
                    (io.mkReader cs (io.final (rd b))).
Proof.
  intros H Hc Hfit. unfold fill, maxConsecutiveEmptyReads. rewrite fillLoop_S.
  unfold io.Read. rewrite H.
  destruct (Nat.leb_spec (length c) (size b - length (buf b))); [|lia].
  simpl. destruct c; [contradiction|]. reflexivity.
Qed.

Lemma fill_part b c cs :
  io.chunks (rd b) = c :: cs ->
  (size b - length (buf b) < length c)%nat ->
  (length (buf b) < size b)%nat ->
  fill b = mkReader (size b) (buf b ++ take (size b - length (buf b)) c)
             (err b)
             (io.mkReader (drop (size b - length (buf b)) c :: cs)
                          (io.final (rd b))).
Proof.
  intros H Hbig Hroom. unfold fill, maxConsecutiveEmptyReads. rewrite fillLoop_S.
  unfold io.Read. rewrite H.
  destruct (Nat.leb_spec (length c) (size b - length (buf b))); [lia|].
  simpl. rewrite length_take.
  destruct (Nat.ltb_spec 0 (Nat.min (size b - length (buf b)) (length c))); [|lia].
  reflexivity.
Qed.

Lemma ReadSliceLoop_full fuel b :
  ready b ->
  (IndexByte (buf b) LF <> None \/ size b <= length (buf b))%nat ->
  exists b',
    ReadSliceLoop (S fuel) b LF
    = Some ((sliceOf (size b) (io.final (rd b)) (remaining b)).1.1,
            (sliceOf (size b) (io.final (rd b)) (remaining b)).1.2, b')
    /\ remaining b' = (sliceOf (size b) (io.final (rd b)) (remaining b)).2
    /\ ready b' /\ size b' = size b /\ io.final (rd b') = io.final (rd b)
    /\ ((sliceOf (size b) (io.final (rd b)) (remaining b)).1.2
          = Some ErrBufferFull -> buf b' = []).
Proof.
  intros (Herr & Hlen & Hsize & Hchunks) Hcase.
  unfold sliceOf, remaining. simpl.
  destruct (IndexByte (buf b) LF) as [i|] eqn:Hi.
  - destruct (IndexByte_Some _ _ _ Hi) as (Hil & _ & _).
    rewrite (IndexByte_take _ _ i (size b) (IndexByte_app_l _ _ _ _ Hi)) by lia.
    eexists. split; [|split; [|split; [|split; [|split]]]].
    + simpl. rewrite take_app_le by lia. reflexivity.
    + simpl. rewrite drop_app_le by lia. reflexivity.
    + repeat split; simpl; try assumption. rewrite length_drop. lia.
    + reflexivity.
    + reflexivity.
    + discriminate.
  - destruct Hcase as [Hc|Hfull]; [contradiction|].
    assert (Hlen' : length (buf b) = size b) by lia.
    rewrite take_app_le by lia. rewrite take_ge by lia. rewrite Hi.
    rewrite Herr. rewrite length_app.
    destruct (Nat.leb_spec (size b) (length (buf b))) as [_|]; [|lia].
    destruct (Nat.leb_spec (size b) (length (buf b) + length (io.content (rd b))));
      [|lia].
    eexists. split; [|split; [|split; [|split; [|split]]]].
    + reflexivity.
    + simpl. rewrite drop_app_ge by lia. rewrite Hlen', Nat.sub_diag. reflexivity.
    + repeat split; simpl; try assumption. lia.
    + reflexivity.
    + reflexivity.
    + reflexivity.
Qed.

Lemma ReadSliceLoop_step fuel b :
  IndexByte (buf b) LF = None -> err b = None ->
  (length (buf b) < size b)%nat ->
  ReadSliceLoop (S fuel) b LF = ReadSliceLoop fuel (fill b) LF.
Proof.
  intros Hi He Hlt. simpl. rewrite Hi, He.
  destruct (Nat.leb_spec (size b) (length (buf b))); [lia|reflexivity].
Qed.

Opaque fill.

Lemma remaining_eq b : remaining b = buf b ++ concat (io.chunks (rd b)).
Proof. reflexivity. Qed.

Lemma ReadSliceLoop_spec cs :
  forall fuel b,
    io.chunks (rd b) = cs -> ready b -> (length cs + 2 <= fuel)%nat ->
    exists b',
      ReadSliceLoop fuel b LF
      = Some ((sliceOf (size b) (io.final (rd b)) (remaining b)).1.1,
              (sliceOf (size b) (io.final (rd b)) (remaining b)).1.2, b')
      /\ remaining b' = (sliceOf (size b) (io.final (rd b)) (remaining b)).2
      /\ ready b' /\ size b' = size b /\ io.final (rd b') = io.final (rd b)
      /\ ((sliceOf (size b) (io.final (rd b)) (remaining b)).1.2
            = Some ErrBufferFull -> buf b' = []).
Proof.
  induction cs as [|c cs IH]; intros fuel b Hcs Hready Hfuel.
  - destruct fuel as [|[|fuel]]; [simpl in Hfuel; lia..|].
    destruct (IndexByte (buf b) LF) as [i|] eqn:Hi.
    { apply ReadSliceLoop_full; [assumption|]. left. congruence. }
    destruct (Nat.le_gt_cases (size b) (length (buf b))) as [Hfull|Hroom].
    { apply ReadSliceLoop_full; [assumption|]. by right. }
    destruct Hready as (Herr & Hlen & Hsize & Hchunks).
    rewrite ReadSliceLoop_step by assumption.
    rewrite (fill_end b Hcs). simpl. rewrite Hi.
    unfold sliceOf. rewrite remaining_eq, Hcs. simpl. rewrite app_nil_r.
    rewrite (IndexByte_take_None _ _ _ Hi).
    destruct (Nat.leb_spec (size b) (length (buf b))); [lia|].
    eexists. split; [reflexivity|]. simpl.
    split; [rewrite remaining_eq; simpl; rewrite Hcs; reflexivity|].
    split; [repeat split; simpl; try assumption; lia|].
    split; [reflexivity|]. split; [reflexivity|discriminate].
  - destruct fuel as [|fuel]; [simpl in Hfuel; lia|].
    destruct (IndexByte (buf b) LF) as [i|] eqn:Hi.
    { apply ReadSliceLoop_full; [assumption|]. left. congruence. }
    destruct (Nat.le_gt_cases (size b) (length (buf b))) as [Hfull|Hroom].
    { apply ReadSliceLoop_full; [assumption|]. by right. }
    pose proof Hready as (Herr & Hlen & Hsize & Hchunks).
    rewrite ReadSliceLoop_step by assumption.
    rewrite Hcs in Hchunks. apply Forall_cons in Hchunks as [Hc Hchunks].
    destruct (Nat.le_gt_cases (length c) (size b - length (buf b)))
      as [Hfit|Hbig].
    + rewrite (fill_whole b c cs Hcs Hc Hfit).
      set (b1 := mkReader _ _ _ _).
      assert (Hrem : remaining b1 = remaining b).
      { rewrite !remaining_eq. unfold b1. simpl. rewrite Hcs. simpl.
        rewrite app_assoc. reflexivity. }
      assert (Hready1 : ready b1).
      { repeat split; simpl; try assumption. rewrite length_app. lia. }
      destruct (IH fuel b1 eq_refl Hready1) as (b' & H1 & H2 & H3 & H4 & H5 & H6).
      { simpl in Hfuel. lia. }
      rewrite Hrem in *. exists b'. repeat (split; [assumption|]). assumption.
    + assert (Hroom' : (length (buf b) < size b)%nat) by lia.
      rewrite (fill_part b c cs Hcs Hbig Hroom').
      set (b1 := mkReader _ _ _ _).
      assert (Hrem : remaining b1 = remaining b).
      { rewrite !remaining_eq. unfold b1. simpl. rewrite Hcs. simpl.
        rewrite <- app_assoc, (app_assoc (take _ c)), take_drop. reflexivity. }
      assert (Hlen1 : length (buf b1) = size b).
      { unfold b1. simpl. rewrite length_app, length_take. lia. }
      assert (Hready1 : ready b1).
      { split; [exact Herr|]. split; [rewrite Hlen1; simpl; lia|].
        split; [exact Hsize|]. simpl.
        constructor; [|assumption].
        intros H. apply (f_equal length) in H. rewrite length_drop in H.
        simpl in H. lia. }
      destruct fuel as [|fuel]; [simpl in Hfuel; lia|].
      destruct (ReadSliceLoop_full fuel b1 Hready1)
        as (b' & H1 & H2 & H3 & H4 & H5 & H6).
      { right. rewrite Hlen1. simpl. lia. }
      rewrite Hrem in *. exists b'. repeat (split; [assumption|]). assumption.
Qed.

Lemma strip_terminator (l : list byte) :
  let line := l ++ [LF] in
  take (length line
        - (if (1 <? length line)%nat
              && bool_decide (line !! (length line - 2)%nat = Some CR)
           then 2 else 1)%nat) line
  = chomp l.
Proof.
  simpl. unfold chomp. rewrite length_app. simpl.
  destruct l as [|x l _] using rev_ind.
  - reflexivity.
  - rewrite length_app. simpl.
    destruct (Nat.ltb_spec 1 (length l + 1 + 1)); [|lia]. simpl.
    replace (length l + 1 + 1 - 2)%nat with (length l) by lia.
    assert (Hx : ((l ++ [x]) ++ [LF]) !! length l = Some x).
    { rewrite lookup_app_l by (rewrite length_app; simpl; lia).
      apply list_lookup_middle. reflexivity. }
    rewrite Hx, last_snoc.
    destruct (decide (x = CR)) as [->|Hne].
    + rewrite !bool_decide_eq_true_2 by reflexivity.
      replace (length l + 1 + 1 - 2)%nat with (length l) by lia.
      replace (length l + 1 - 1)%nat with (length l) by lia.
      rewrite <- app_assoc. rewrite !take_app_length. reflexivity.
    + rewrite !bool_decide_eq_false_2 by congruence.
      apply take_app_length'. rewrite length_app. simpl. lia.
Qed.

Lemma ReadLine_spec b :
  ready b ->
  exists b',
    ReadLine b
    = Some ((lineOf (size b) (io.final (rd b)) (remaining b)).1.1.1,
            (lineOf (size b) (io.final (rd b)) (remaining b)).1.1.2,
            (lineOf (size b) (io.final (rd b)) (remaining b)).1.2, b')
    /\ remaining b' = (lineOf (size b) (io.final (rd b)) (remaining b)).2
    /\ ready b' /\ size b' = size b /\ io.final (rd b') = io.final (rd b).
Proof.
  intros Hready.
  destruct (ReadSliceLoop_spec (io.chunks (rd b))
              (length (io.chunks (rd b)) + 2) b eq_refl Hready (le_n _))
    as (b' & H1 & H2 & H3 & H4 & H5 & H6).
  unfold ReadLine, ReadSlice. rewrite H1. clear H1.
  unfold sliceOf in *. unfold lineOf.
  set (s := remaining b) in *.
  destruct (IndexByte (take (size b) s) LF) as [i|] eqn:Hi.
  - simpl in *. destruct (IndexByte_Some _ _ _ Hi) as (Hlt & Hlf & _).
    rewrite length_take in Hlt. rewrite lookup_take_lt in Hlf by lia.
    rewrite (take_S_r s i LF Hlf).
    rewrite length_app. simpl.
    destruct (Nat.eqb_spec (length (take i s) + 1) 0); [lia|].
    rewrite last_snoc, bool_decide_eq_true_2 by reflexivity.
    pose proof (strip_terminator (take i s)) as Hstrip. simpl in Hstrip.
    rewrite length_app in Hstrip. simpl in Hstrip. rewrite Hstrip.
    exists b'. auto.
  - destruct (Nat.leb_spec (size b) (length s)) as [Hfull|Hshort]; simpl in *.
    + specialize (H6 eq_refl).
      pose proof H3 as (Herr' & Hlen' & Hsize' & Hchunks').
      assert (Hlen : length (take (size b) s) = size b)
        by (rewrite length_take; lia).
      rewrite Hlen. destruct (Nat.ltb_spec 0 (size b)); [|lia]. simpl.
      case_bool_decide as Hcr.
      * rewrite take_take. replace (Nat.min (size b - 1) (size b))
          with (size b - 1)%nat by lia.
        eexists. split; [reflexivity|].
        assert (Hs : s !! (size b - 1)%nat = Some CR).
        { rewrite last_lookup, Hlen in Hcr.
          rewrite lookup_take_lt in Hcr by lia.
          rewrite <- Nat.sub_1_r in Hcr. exact Hcr. }
        split.
        { unfold remaining. simpl. rewrite (drop_S s CR (size b - 1) Hs).
          f_equal. replace (S (size b - 1)) with (size b) by lia.
          rewrite <- H2. unfold remaining. rewrite H6. reflexivity. }
        split; [|auto].
        split; [exact Herr'|]. split; [simpl; lia|]. split; assumption.
      * exists b'. auto.
    + destruct (decide (s = [])) as [Hnil|Hnil].
      * rewrite (bool_decide_eq_true_2 _ Hnil). rewrite Hnil. simpl.
        exists b'. auto.
      * rewrite (bool_decide_eq_false_2 _ Hnil).
        destruct (Nat.eqb_spec (length s) 0) as [H0|_].
        { destruct s; [contradiction|discriminate]. }
        rewrite bool_decide_eq_false_2.
        { exists b'. auto. }
        intros Hlast. apply last_Some_elem_of in Hlast.
        apply IndexByte_None in Hi. apply Hi.
        rewrite take_ge by lia. exact Hlast.
Qed.

Lemma linesOf_nil n fuel acc : linesOf n fuel [] acc = [].
Proof. destruct fuel; reflexivity. Qed.

Lemma linesOf_S n fuel s acc :
  linesOf n (S fuel) s acc
  = if bool_decide (s = []) then []
    else
      match IndexByte (take n s) LF with
      | Some i => (acc ++ chomp (take i s)) :: linesOf n fuel (drop (S i) s) []
      | None =>
          if (n <=? length s)%nat then
            if bool_decide (last (take n s) = Some CR)
            then linesOf n fuel (drop (n - 1) s) (acc ++ take (n - 1) s)
            else linesOf n fuel (drop n s) (acc ++ take n s)
          else [acc ++ s]
      end.
Proof. reflexivity. Qed.

Section WithCallback.
Context {St : Type}.
Variable callback : St -> list byte -> St * bool.

Lemma scanLoop_S fuel b acc st :
  Scan.scanLoop callback (S fuel) b acc st
  = match ReadLine b with
    | None => None
    | Some (line, isPrefix, Some err, _) =>
        if bool_decide (err <> EOF) && bool_decide (err <> ErrClosedPipe)
        then Some (st, Some err) else Some (st, None)
    | Some (line, isPrefix, None, reader') =>
        let buf := acc ++ line in
        if negb isPrefix then
          let '(st', continue) := callback st buf in
          if negb continue then Some (st', None)
          else Scan.scanLoop callback fuel reader' [] st'
        else Scan.scanLoop callback fuel reader' buf st
    end.
Proof. reflexivity. Qed.

(** [scanLoop] feeds the callback the lines of the bytes still to be read
    and ends with the error of the stream. *)
Lemma scanLoop_linesOf fuel :
  forall b acc st,
    ready b -> (length (remaining b) < fuel)%nat ->
    Scan.scanLoop callback fuel b acc st
    = Some (finish (io.final (rd b))
              (Scan.feed callback st
                 (linesOf (size b) fuel (remaining b) acc))).
Proof.
  induction fuel as [|fuel IH]; intros b acc st Hready Hfuel; [lia|].
  destruct (ReadLine_spec b Hready) as (b' & H1 & H2 & H3 & H4 & H5).
  rewrite scanLoop_S, H1, linesOf_S. clear H1.
  pose proof Hready as (_ & _ & Hsize & _).
  unfold lineOf in *. set (s := remaining b) in *.
  destruct (decide (s = [])) as [Hnil|Hnil].
  - rewrite (bool_decide_eq_true_2 _ Hnil). rewrite Hnil in *.
    rewrite take_nil in *. simpl in *.
    destruct (Nat.leb_spec (size b) 0); [lia|]. simpl.
    unfold finish, errorOf. simpl.
    destruct (bool_decide (io.final (rd b) <> EOF)
              && bool_decide (io.final (rd b) <> ErrClosedPipe)); reflexivity.
  - rewrite (bool_decide_eq_false_2 _ Hnil) in *.
    assert (Hpos : (0 < length s)%nat).
    { destruct s; [contradiction|simpl; lia]. }
    destruct (IndexByte (take (size b) s) LF) as [i|] eqn:Hi; simpl in *.
    + destruct (callback st (acc ++ chomp (take i s))) as [st' continue] eqn:Hcb.
      destruct continue; simpl; [|reflexivity].
      rewrite (IH b' [] st' H3), H2, H4, H5; [reflexivity|].
      rewrite H2, length_drop. lia.
    + destruct (Nat.leb_spec (size b) (length s)) as [Hfull|Hshort].
      * destruct (decide (last (take (size b) s) = Some CR)) as [Hcr|Hcr].
        -- rewrite (bool_decide_eq_true_2 _ Hcr) in *. simpl in *.
           rewrite (IH b' _ st H3), H2, H4, H5; [reflexivity|].
           rewrite H2, length_drop. lia.
        -- rewrite (bool_decide_eq_false_2 _ Hcr) in *. simpl in *.
           rewrite (IH b' _ st H3), H2, H4, H5; [reflexivity|].
           rewrite H2, length_drop. lia.
      * simpl in *.
        destruct (callback st (acc ++ s)) as [st' continue] eqn:Hcb.
        destruct continue; simpl; [|reflexivity].
        rewrite (IH b' [] st' H3), H2, H5, linesOf_nil; [reflexivity|].
        rewrite H2. simpl. lia.
Qed.
End WithCallback.

(** ** The lines of a stream *)

Lemma chomp_keep (l : list byte) : last l <> Some CR -> chomp l = l.
Proof. intros H. unfold chomp. rewrite bool_decide_eq_false_2 by assumption. reflexivity. Qed.

Lemma chomp_app (acc l : list byte) :
  l <> [] -> chomp (acc ++ l) = acc ++ chomp l.
Proof.
  intros Hl. unfold chomp. rewrite last_app.
  assert (Hpos : (0 < length l)%nat) by (destruct l; [contradiction|simpl; lia]).
  destruct (last l) as [y|] eqn:Hy.
  - case_bool_decide; [|reflexivity].
    rewrite take_app, length_app. rewrite take_ge by lia.
    f_equal. f_equal. lia.
  - apply last_None in Hy. contradiction.
Qed.

Section Lines.
Variable n : nat.
Hypothesis Hn : (2 <= n)%nat.

Lemma linesOf_fuel f1 :
  forall f2 s acc,
    (length s < f1)%nat -> (length s < f2)%nat ->
    linesOf n f1 s acc = linesOf n f2 s acc.
Proof.
  induction f1 as [|f1 IH]; intros f2 s acc H1 H2; [lia|].
  destruct f2 as [|f2]; [lia|]. rewrite !linesOf_S.
  case_bool_decide as Hnil; [reflexivity|].
  assert (Hpos : (0 < length s)%nat) by (destruct s; [contradiction|simpl; lia]).
  destruct (IndexByte (take n s) LF) as [i|].
  - f_equal. apply IH; rewrite length_drop; lia.
  - destruct (n <=? length s)%nat; [|reflexivity].
    case_bool_decide; apply IH; rewrite length_drop; lia.
Qed.

Lemma IndexByte_line (l rest : list byte) :
  LF ∉ l -> IndexByte (l ++ LF :: rest) LF = Some (length l).
Proof.
  intros H. rewrite IndexByte_app_r by assumption.
  change (IndexByte (LF :: rest) LF) with (Some 0%nat).
  simpl. f_equal. lia.
Qed.

Lemma not_elem_of_drop (l : list byte) c k : c ∉ l -> c ∉ drop k l.
Proof.
  intros H Hin. apply H. rewrite <- (take_drop k l). apply elem_of_app. by right.
Qed.

Lemma not_elem_of_take (l : list byte) c k : c ∉ l -> c ∉ take k l.
Proof.
  intros H Hin. apply H. rewrite <- (take_drop k l). apply elem_of_app. by left.
Qed.

(** A complete line, however long and however read, reaches the callback
    whole and without its terminator. *)
Lemma linesOf_line fuel :
  forall l rest acc,
    LF ∉ l ->
    (length l + 1 + length rest < fuel)%nat ->
    last acc <> Some CR \/ head l = Some CR ->
    linesOf n fuel (l ++ LF :: rest) acc
    = chomp (acc ++ l) :: linesOf n fuel rest [].
Proof.
  induction fuel as [|fuel IH]; intros l rest acc Hl Hfuel Hacc; [lia|].
  rewrite (linesOf_fuel (S fuel) fuel rest []) by lia.
  rewrite linesOf_S. rewrite bool_decide_eq_false_2 by (by destruct l).
  destruct (Nat.lt_ge_cases (length l) n) as [Hshort|Hlong].
  - rewrite (IndexByte_take _ _ _ _ (IndexByte_line l rest Hl)) by assumption.
    rewrite take_app_length.
    rewrite (cons_middle LF l rest), app_assoc.
    rewrite drop_app_length' by (rewrite length_app; simpl; lia).
    f_equal.
    destruct l as [|x l].
    + rewrite app_nil_r. simpl. unfold chomp at 1. simpl. rewrite app_nil_r.
      symmetry. apply chomp_keep. destruct Hacc as [H|H]; [exact H|discriminate].
    + symmetry. apply chomp_app. discriminate.
  - rewrite take_app_le by lia.
    rewrite (proj2 (IndexByte_None _ _) (not_elem_of_take l LF n Hl)).
    rewrite length_app. simpl.
    destruct (Nat.leb_spec n (length l + S (length rest))); [|lia].
    assert (Htake : length (take n l) = n) by (rewrite length_take; lia).
    case_bool_decide as Hcr.
    + rewrite drop_app_le, take_app_le by lia.
      rewrite IH.
      * rewrite <- app_assoc, take_drop. reflexivity.
      * apply not_elem_of_drop, Hl.
      * rewrite length_drop. lia.
      * right. rewrite head_lookup, lookup_drop, Nat.add_0_r.
        rewrite last_lookup, Htake in Hcr.
        rewrite lookup_take_lt in Hcr by lia.
        rewrite <- Nat.sub_1_r in Hcr. exact Hcr.
    + rewrite drop_app_le by lia.
      rewrite IH.
      * rewrite <- app_assoc, take_drop. reflexivity.
      * apply not_elem_of_drop, Hl.
      * rewrite length_drop. lia.
      * left. rewrite last_app.
        destruct (last (take n l)) as [y|] eqn:Hy; [exact Hcr|].
        apply last_None in Hy. rewrite Hy in Htake. simpl in Htake. lia.
Qed.

(** What is left after the last line feed reaches the callback at most
    once, whole; and it does when it is shorter than the buffer. *)
Lemma linesOf_tail fuel :
  forall t acc,
    LF ∉ t -> (length t < fuel)%nat ->
    (linesOf n fuel t acc = [] \/ linesOf n fuel t acc = [acc ++ t])
    /\ (t <> [] -> (length t < n)%nat -> linesOf n fuel t acc = [acc ++ t]).
Proof.
  induction fuel as [|fuel IH]; intros t acc Ht Hfuel; [lia|].
  rewrite linesOf_S. case_bool_decide as Hnil.
  { split; [by left|]. intros H. contradiction. }
  assert (Hpos : (0 < length t)%nat) by (destruct t; [contradiction|simpl; lia]).
  rewrite (proj2 (IndexByte_None _ _) (not_elem_of_take t LF n Ht)).
  destruct (Nat.leb_spec n (length t)) as [Hlong|Hshort].
  - split; [|intros _ H; lia].
    case_bool_decide as Hcr.
    + destruct (IH (drop (n - 1) t) (acc ++ take (n - 1) t)) as [H _].
      * apply not_elem_of_drop, Ht.
      * rewrite length_drop. lia.
      * rewrite <- app_assoc, take_drop in H. exact H.
    + destruct (IH (drop n t) (acc ++ take n t)) as [H _].
      * apply not_elem_of_drop, Ht.
      * rewrite length_drop. lia.
      * rewrite <- app_assoc, take_drop in H. exact H.
  - split; [by right|reflexivity].
Qed.

Lemma terminated_cons l lines :
  terminated (l :: lines) = l ++ LF :: terminated lines.
Proof. unfold terminated. simpl. rewrite <- app_assoc. reflexivity. Qed.

Lemma linesOf_lines lines :
  forall fuel tail,
    Forall (fun l => LF ∉ l) lines ->
    (length (terminated lines ++ tail) < fuel)%nat ->
    linesOf n fuel (terminated lines ++ tail) []
    = map chomp lines ++ linesOf n fuel tail [].
Proof.
  induction lines as [|l lines IH]; intros fuel tail Hlines Hfuel.
  - reflexivity.
  - apply Forall_cons in Hlines as [Hl Hlines].
    rewrite terminated_cons in *. rewrite <- app_assoc in *. simpl in *.
    rewrite length_app in Hfuel. simpl in Hfuel.
    rewrite linesOf_line; [|assumption|lia|by left].
    simpl. f_equal. apply IH; [assumption|lia].
Qed.
End Lines.

Lemma NewReader_ready (r : io.Reader) :
  Forall (fun c => c <> []) (io.chunks r) -> ready (NewReader r).
Proof.
  intros H. split; [reflexivity|]. split; [simpl; lia|].
  split; [|exact H]. apply Nat.leb_le. vm_compute. reflexivity.
Qed.

Lemma defaultBufSize_ge2 : (2 <= defaultBufSize)%nat.
Proof. apply Nat.leb_le. vm_compute. reflexivity. Qed.

Lemma scanLines_linesOf {St : Type} (callback : St -> list byte -> St * bool)
    (r : io.Reader) (st : St) :
  Forall (fun c => c <> []) (io.chunks r) ->
  Scan.scanLines callback r st
  = Some (finish (io.final r)
            (Scan.feed callback st
               (linesOf defaultBufSize (length (io.content r) + 1)
                        (io.content r) []))).
Proof.
  intros H. unfold Scan.scanLines.
  rewrite (scanLoop_linesOf callback _ (NewReader r) [] st (NewReader_ready r H)).
  - reflexivity.
  - unfold remaining. simpl. lia.
Qed.

(** C10, as amended.  When the stream ends without a line terminator and
    what follows the last line feed is not empty and shorter than the
    buffer of the reader, [scanLines] calls the callback on it, as the last
    line. *)
Theorem scanLines_trailing {St : Type}
    (callback : St -> list byte -> St * bool)
    (r : io.Reader) (st : St) (lines : list (list byte)) (tail : list byte) :
  Forall (fun c => c <> []) (io.chunks r) ->
  io.content r = terminated lines ++ tail ->
  Forall (fun l => LF ∉ l) lines -> LF ∉ tail ->
  tail <> [] -> (length tail < defaultBufSize)%nat ->
  Scan.scanLines callback r st
  = Some (finish (io.final r)
            (Scan.feed callback st (map chomp lines ++ [tail]))).
Proof.
  intros Hchunks Hcontent Hlines Htail Hne Hshort.
  rewrite (scanLines_linesOf callback r st Hchunks), Hcontent.
  rewrite (linesOf_lines _ defaultBufSize_ge2) by (assumption || lia).
  destruct (linesOf_tail _ defaultBufSize_ge2
              (length (terminated lines ++ tail) + 1) tail [] Htail)
    as [_ H].
  - rewrite length_app. lia.
  - rewrite (H Hne Hshort). reflexivity.
Qed.

Lemma scanLines_trailing_witness :
  Scan.scanLines Scan.record testReader []
  = Some ([bytes "abc"; bytes "de"; bytes "xyz"], None).
Proof.
  rewrite (scanLines_trailing Scan.record testReader []
             [bytes "abc"; bytes ("de" +:+ creturn)] (bytes "xyz")).
  - vm_compute. reflexivity.
  - repeat constructor; discriminate.
  - vm_compute. reflexivity.
  - repeat constructor; apply IndexByte_None; vm_compute; reflexivity.
  - apply IndexByte_None. vm_compute. reflexivity.
  - discriminate.
  - apply Nat.ltb_lt. vm_compute. reflexivity.
Defined.

(** C10, as stated, fails: three bytes and the end of the stream, no line
    terminator, and the callback is called on them. *)
Lemma scanLines_delivers_unterminated_tail :
  Scan.scanLines Scan.record (io.mkReader [bytes "abc"] EOF) []
  = Some ([bytes "abc"], None).
Proof. vm_compute. reflexivity. Qed.

(** The bytes that are dropped: a buffer full of them, and then the end. *)
Example scanLines_drops_full_buffer :
  Scan.scanLines Scan.record
    (io.mkReader [replicate defaultBufSize "a"%byte] EOF) []
  = Some ([], None).
Proof. vm_compute. reflexivity. Qed.

End Scanner.


(** * Names and the environment *)

Lemma to_int_nonnil (z : Z) :
  Z.to_int z <> Decimal.Pos Decimal.Nil /\ Z.to_int z <> Decimal.Neg Decimal.Nil.
Proof.
  destruct z as [|p|p]; simpl; split; try discriminate.
  - intros H. injection H as H. exact (DecimalPos.Unsigned.to_uint_nonnil p H).
  - intros H. injection H as H. exact (DecimalPos.Unsigned.to_uint_nonnil p H).
Qed.

Lemma itoa_inj (a b : Z) : itoa a = itoa b -> a = b.
Proof.
  unfold itoa. intros H. apply DecimalZ.to_int_inj.
  apply (f_equal NilZero.int_of_string) in H.
  destruct (to_int_nonnil a), (to_int_nonnil b).
  rewrite !NilZero.isi in H by assumption. congruence.
Qed.

Lemma app_inj_l (p s t : string) : p +:+ s = p +:+ t -> s = t.
Proof.
  induction p as [|c p IH]; [auto|]. intros H. injection H as H. auto.
Qed.

Lemma Contains_app (s t : string) c :
  strings.Contains (s +:+ t) c = strings.Contains s c || strings.Contains t c.
Proof.
  induction s as [|x s IH]; [reflexivity|].
  change (String x s +:+ t) with (String x (s +:+ t)). simpl.
  destruct (Ascii.eqb x c); [reflexivity|exact IH].
Qed.

Lemma Cut_before (s : string) sep :
  strings.Contains (strings.Cut s sep).1.1 sep = false.
Proof.
  induction s as [|c s IH]; [reflexivity|]. simpl.
  destruct (Ascii.eqb c sep) eqn:E; [reflexivity|].
  destruct (strings.Cut s sep) as [[before after] found]. simpl in *.
  rewrite E. exact IH.
Qed.

Lemma Cut_before_chars (s : string) sep c :
  strings.Contains s c = false ->
  strings.Contains (strings.Cut s sep).1.1 c = false.
Proof.
  induction s as [|x s IH]; [reflexivity|]. simpl.
  destruct (Ascii.eqb x c) eqn:E; [discriminate|]. intros H.
  destruct (Ascii.eqb x sep); [reflexivity|].
  specialize (IH H). destruct (strings.Cut s sep) as [[before after] found].
  simpl in *. rewrite E. exact IH.
Qed.

Lemma lastElement_chars (s : string) c :
  strings.Contains s c = false ->
  strings.Contains (filepath.lastElement s) c = false.
Proof.
  induction s as [|x s IH]; [reflexivity|]. simpl.
  destruct (Ascii.eqb x c) eqn:E; [discriminate|]. intros H.
  destruct (strings.Contains s filepath.Separator); [auto|].
  destruct (Ascii.eqb x filepath.Separator); [exact H|].
  simpl. rewrite E. exact H.
Qed.

Lemma lastElement_no_separator (s : string) :
  strings.Contains (filepath.lastElement s) filepath.Separator = false.
Proof.
  induction s as [|x s IH]; [reflexivity|]. simpl.
  destruct (strings.Contains s filepath.Separator) eqn:Hs; [exact IH|].
  destruct (Ascii.eqb x filepath.Separator) eqn:E; [exact Hs|].
  simpl. rewrite E. exact Hs.
Qed.

Lemma trimTrailingSeparators_chars (s : string) c :
  strings.Contains s c = false ->
  strings.Contains (filepath.trimTrailingSeparators s) c = false.
Proof.
  induction s as [|x s IH]; [reflexivity|]. simpl.
  destruct (Ascii.eqb x c) eqn:E; [discriminate|]. intros H.
  specialize (IH H).
  destruct (filepath.trimTrailingSeparators s) as [|y r].
  - destruct (Ascii.eqb x filepath.Separator); [reflexivity|].
    simpl. rewrite E. reflexivity.
  - simpl in *. rewrite E. exact IH.
Qed.

(** The base name of a path without the byte [c] has no [c] either, unless
    it is one of the two names [Base] makes up. *)
Lemma Base_chars (path : string) c :
  strings.Contains path c = false ->
  filepath.Base path = "." \/ filepath.Base path = "/"
  \/ strings.Contains (filepath.Base path) c = false.
Proof.
  intros H. unfold filepath.Base.
  destruct (String.eqb path ""); [by left|].
  destruct (String.eqb (filepath.lastElement (filepath.trimTrailingSeparators path)) "");
    [right; by left|].
  right. right. apply lastElement_chars, trimTrailingSeparators_chars, H.
Qed.

Lemma Base_no_separator (path : string) :
  filepath.Base path = "." \/ filepath.Base path = "/"
  \/ strings.Contains (filepath.Base path) filepath.Separator = false.
Proof.
  unfold filepath.Base.
  destruct (String.eqb path ""); [by left|].
  destruct (String.eqb (filepath.lastElement (filepath.trimTrailingSeparators path)) "");
    [right; by left|].
  right. right. apply lastElement_no_separator.
Qed.

(** X1.  The name [filterCmdName] returns holds no path and no argument:
    it has no slash and no space, and it is not [.]; and the name
    [parseCommands] derives from it is never empty. *)
Theorem filterCmdName_no_path (cmd : string) :
  strings.Contains (Commands.filterCmdName cmd) "/" = false
  /\ strings.Contains (Commands.filterCmdName cmd) " " = false
  /\ Commands.filterCmdName cmd <> "."
  /\ derivedName cmd <> ""
  /\ strings.Contains (derivedName cmd) "/" = false
  /\ strings.Contains (derivedName cmd) " " = false.
Proof.
  assert (H : strings.Contains (Commands.filterCmdName cmd) "/" = false
              /\ strings.Contains (Commands.filterCmdName cmd) " " = false
              /\ Commands.filterCmdName cmd <> ".").
  { unfold Commands.filterCmdName.
    pose proof (Cut_before (strings.TrimSpace cmd) " ") as Hcut.
    destruct (strings.Cut (strings.TrimSpace cmd) " ") as [[nm after] found].
    simpl in Hcut.
    change (String filepath.Separator "") with "/".
    destruct (String.eqb_spec (filepath.Base nm) ".") as [E1|E1]; [by repeat split|].
    destruct (String.eqb_spec (filepath.Base nm) "/") as [E2|E2]; [by repeat split|].
    simpl. split; [|split; [|exact E1]].
    - destruct (Base_no_separator nm) as [?|[?|?]]; [contradiction..|assumption].
    - destruct (Base_chars nm " " Hcut) as [?|[?|?]]; [contradiction..|assumption]. }
  destruct H as (H1 & H2 & H3).
  split; [exact H1|]. split; [exact H2|]. split; [exact H3|].
  unfold derivedName.
  destruct (String.eqb_spec (Commands.filterCmdName cmd) "") as [E|E];
    [by repeat split|].
  split; [exact E|]. split; assumption.
Qed.

(** X2.  [injectPathVal] keeps the number of variables; a variable that is
    not [PATH] is left as it is; a [PATH] variable keeps its old value
    behind the new directory and a colon; and without a [PATH] variable
    nothing changes (no [PATH] is added). *)
Theorem injectPathVal_spec (env : list string) (val : string) :
  length (Manager.injectPathVal env val) = length env
  /\ (forall i v,
        env !! i = Some v -> strings.HasPrefix v "PATH=" = false ->
        Manager.injectPathVal env val !! i = Some v)
  /\ (forall i v,
        env !! i = Some v -> strings.HasPrefix v "PATH=" = true ->
        exists old,
          v = "PATH=" +:+ old
          /\ Manager.injectPathVal env val !! i
             = Some ("PATH=" +:+ val +:+ ":" +:+ old))
  /\ ((forall v, v ∈ env -> strings.HasPrefix v "PATH=" = false) ->
      Manager.injectPathVal env val = env).
Proof.
  unfold Manager.injectPathVal. split; [apply length_map|].
  split; [|split].
  - intros i v Hi Hv.
    change (map ?f env) with (f <$> env).
    rewrite list_lookup_fmap, Hi. simpl. rewrite Hv. reflexivity.
  - intros i v Hi Hv. pose proof Hv as Hv'.
    apply HasPrefix_true in Hv' as [old ->]. exists old. split; [reflexivity|].
    change (map ?f env) with (f <$> env).
    rewrite list_lookup_fmap, Hi. cbn [fmap option_fmap option_map].
    unfold strings.TrimPrefix. rewrite Hv.
    rewrite sdrop_app. reflexivity.
  - intros Hall. induction env as [|v env IH]; [reflexivity|]. simpl.
    rewrite (Hall v) by (by left). f_equal. apply IH.
    intros u Hu. apply Hall. by right.
Qed.

Lemma injectPathVal_spec_witness :
  Manager.injectPathVal ["HOME=/root"; "PATH=/usr/bin:/bin"] "/work/node_modules/.bin"
  = ["HOME=/root"; "PATH=/work/node_modules/.bin:/usr/bin:/bin"].
Proof.
  destruct (injectPathVal_spec ["HOME=/root"; "PATH=/usr/bin:/bin"]
              "/work/node_modules/.bin") as (_ & H0 & H1 & _).
  apply list_eq. intros [|[|i]].
  - rewrite (H0 0%nat "HOME=/root"); reflexivity.
  - destruct (H1 1%nat "PATH=/usr/bin:/bin" eq_refl eq_refl) as (old & E & ->).
    apply (app_inj_l "PATH=") in E. subst old. reflexivity.
  - reflexivity.
Defined.

(** X3.  Commands that shared a name are told apart: after the numbering
    two commands of the list that had the same name have different names,
    and every command keeps its command line and its place. *)
Theorem numbered_distinct (w : World) (l : list command) (i j : nat)
    (ci cj : command) :
  range_ok w ->
  i <> j -> l !! i = Some ci -> l !! j = Some cj -> name ci = name cj ->
  exists di dj,
    Commands.renameDuplicates w l !! i = Some di
    /\ Commands.renameDuplicates w l !! j = Some dj
    /\ name di <> name dj /\ cmd di = cmd ci /\ cmd dj = cmd cj
    /\ length (Commands.renameDuplicates w l) = length l.
Proof.
  intros Hrange. revert i j ci cj.
  assert (Hlt : forall i j ci cj,
    (i < j)%nat -> l !! i = Some ci -> l !! j = Some cj -> name ci = name cj ->
    exists di dj,
      numbered l !! i = Some di /\ numbered l !! j = Some dj
      /\ name di <> name dj /\ cmd di = cmd ci /\ cmd dj = cmd cj).
  { intros i j ci cj Hij Hi Hj Hn.
    pose proof (countName_ge2 (name ci) l i j ci cj Hij Hi Hj eq_refl
                  (eq_sym Hn)) as Hge.
    pose proof (countName_take_lt (name ci) l i j ci Hij Hi eq_refl) as Hrank.
    unfold numbered. rewrite !list_lookup_imap, Hi, Hj. simpl.
    eexists _, _. split; [reflexivity|]. split; [reflexivity|].
    unfold numberedAt. rewrite <- Hn.
    destruct (Nat.ltb_spec 1 (countName (name ci) l)); [|lia]. simpl.
    split; [|split; reflexivity].
    intros E. apply app_inj_l, app_inj_l, itoa_inj in E. lia. }
  intros i j ci cj Hne Hi Hj Hn.
  rewrite (renameDuplicates_numbered w Hrange l).
  assert (Hlen : length (numbered l) = length l).
  { unfold numbered. apply length_imap. }
  destruct (Nat.lt_total i j) as [Hij|[->|Hji]]; [|contradiction|].
  - destruct (Hlt i j ci cj Hij Hi Hj Hn) as (di & dj & H1 & H2 & H3 & H4 & H5).
    exists di, dj. auto 10.
  - destruct (Hlt j i cj ci Hji Hj Hi (eq_sym Hn))
      as (dj & di & H1 & H2 & H3 & H4 & H5).
    exists di, dj. auto 10.
Qed.

Lemma numbered_distinct_witness :
  exists di dj,
    Commands.renameDuplicates testWorld
      [mkCommand "echo" "echo a"; mkCommand "ls" "ls"; mkCommand "echo" "echo b"]
      !! 0%nat = Some di
    /\ Commands.renameDuplicates testWorld
      [mkCommand "echo" "echo a"; mkCommand "ls" "ls"; mkCommand "echo" "echo b"]
      !! 2%nat = Some dj
    /\ name di <> name dj.
Proof.
  destruct (numbered_distinct testWorld
              [mkCommand "echo" "echo a"; mkCommand "ls" "ls";
               mkCommand "echo" "echo b"] 0 2
              (mkCommand "echo" "echo a") (mkCommand "echo" "echo b"))
    as (di & dj & H1 & H2 & H3 & _).
  - split; intros; reflexivity.
  - lia.
  - reflexivity.
  - reflexivity.
  - reflexivity.
  - exists di, dj. auto.
Defined.


(** * Resolution of npm scripts *)

Section Resolution.
Variable w : World.

Lemma matchScripts_fold scriptName entries :
  forall result hasMatch,
    foldl (fun (acc : list command * bool) (entry : string * string) =>
             let '(result, hasMatch) := acc in
             let '(name, pcmd) := entry in
             if Commands.wildcardMatch w scriptName name
             then (result ++ [mkCommand name pcmd], true)
             else (result, hasMatch))
          (result, hasMatch) entries
    = (result ++ matching w scriptName entries,
       hasMatch || bool_decide (matching w scriptName entries <> [])).
Proof.
  unfold matching.
  induction entries as [|[nm pcmd] entries IH]; intros result hasMatch.
  - simpl. rewrite app_nil_r, orb_false_r. reflexivity.
  - simpl. rewrite filter_cons. simpl.
    destruct (Commands.wildcardMatch w scriptName nm) eqn:E.
    + rewrite IH. rewrite decide_True by reflexivity. simpl.
      rewrite <- app_assoc. simpl. rewrite orb_true_r. reflexivity.
    + rewrite IH. rewrite decide_False by discriminate. reflexivity.
Qed.

Lemma matchScripts_matching scriptName entries result :
  Commands.matchScripts w scriptName entries result
  = (result ++ matching w scriptName entries,
     bool_decide (matching w scriptName entries <> [])).
Proof. unfold Commands.matchScripts. apply matchScripts_fold. Qed.

Lemma matching_perm scriptName l1 l2 :
  l1 ≡ₚ l2 -> matching w scriptName l1 ≡ₚ matching w scriptName l2.
Proof.
  intros H. unfold matching.
  apply (fmap_Permutation (fun e : string * string => mkCommand e.1 e.2)).
  apply filter_Permutation, H.
Qed.

Lemma missingNames_cons scripts n names :
  missingNames scripts (n :: names)
  = (if bool_decide (scripts !! n = None)
        && negb (strings.Contains n "*")
     then [n] else [])
    ++ missingNames scripts names.
Proof.
  unfold missingNames. rewrite filter_cons.
  destruct (decide (scripts !! n = None)) as [E|E].
  - rewrite (bool_decide_eq_true_2 _ E).
    destruct (strings.Contains n "*") eqn:Hc.
    + rewrite decide_False by (intros [_ ?]; discriminate). reflexivity.
    + rewrite decide_True by (split; [exact E|reflexivity]). reflexivity.
  - rewrite (bool_decide_eq_false_2 _ E).
    rewrite decide_False by (intros [? _]; contradiction). reflexivity.
Qed.

Lemma namedScripts_cons scripts n names :
  namedScripts scripts (n :: names)
  = match scripts !! n with
    | Some s => [mkCommand n s]
    | None => []
    end ++ namedScripts scripts names.
Proof. unfold namedScripts. simpl. destruct (scripts !! n); reflexivity. Qed.

Lemma npmLoop_cons scripts i c rest result missing :
  Commands.npmLoop w scripts i (c :: rest) result missing
  = let scriptName := strings.TrimPrefix c "npm:" in
    match scripts !! scriptName with
    | Some s =>
        Commands.npmLoop w scripts (S i) rest
                (result ++ [mkCommand scriptName s]) missing
    | None =>
        if negb (strings.Contains scriptName "*") then
          Commands.npmLoop w scripts (S i) rest result (missing ++ [scriptName])
        else
          let '(result', hasMatch) :=
            Commands.matchScripts w scriptName (rangeScripts w i scripts) result in
          if hasMatch then Commands.npmLoop w scripts (S i) rest result' missing
          else inl (ErrNoScriptsMatching scriptName)
    end.
Proof. reflexivity. Qed.

(** Without a wildcard the loop resolves every name by lookup and collects
    every name it does not find. *)
Lemma npmLoop_named scripts cmds :
  Forall (fun n => strings.Contains n "*" = false) (scriptNames cmds) ->
  forall i result missing,
    Commands.npmLoop w scripts i cmds result missing
    = inr (result ++ namedScripts scripts (scriptNames cmds),
           missing ++ missingNames scripts (scriptNames cmds)).
Proof.
  induction cmds as [|c cmds IH]; intros Hall i result missing.
  - simpl. rewrite !app_nil_r. reflexivity.
  - change (scriptNames (c :: cmds))
      with (strings.TrimPrefix c "npm:" :: scriptNames cmds) in *.
    apply Forall_cons in Hall as [Hc Hall].
    rewrite npmLoop_cons, missingNames_cons, namedScripts_cons. cbv zeta.
    rewrite Hc.
    destruct (scripts !! strings.TrimPrefix c "npm:") as [s|] eqn:E.
    + rewrite IH by exact Hall.
      rewrite bool_decide_eq_false_2 by discriminate.
      rewrite <- app_assoc. reflexivity.
    + cbn [negb]. rewrite IH by exact Hall.
      rewrite bool_decide_eq_true_2 by reflexivity.
      rewrite <- app_assoc. reflexivity.
Qed.

Lemma namedScripts_complete scripts names :
  Forall (fun n => strings.Contains n "*" = false) names ->
  missingNames scripts names = [] ->
  map name (namedScripts scripts names) = names.
Proof.
  induction names as [|n names IH]; [reflexivity|].
  intros Hall. apply Forall_cons in Hall as [Hc Hall].
  rewrite missingNames_cons, namedScripts_cons, Hc.
  destruct (scripts !! n) as [s|] eqn:E.
  - rewrite bool_decide_eq_false_2 by discriminate. intros H. simpl.
    rewrite IH by assumption. reflexivity.
  - rewrite bool_decide_eq_true_2 by reflexivity. discriminate.
Qed.

(** The loop in general, when it succeeds: every command contributes its
    resolution, in the order of the commands. *)
Lemma npmLoop_resolution scripts :
  range_ok w ->
  forall cmds i result missing result' missing',
    Commands.npmLoop w scripts i cmds result missing
    = inr (result', missing') ->
    exists groups,
      result' = result ++ concat groups
      /\ Forall2 (fun c g =>
                    g ≡ₚ resolution w scripts (strings.TrimPrefix c "npm:")
                    /\ (g = [] -> missingNames scripts (scriptNames [c]) <> []))
                 cmds groups
      /\ missing' = missing ++ missingNames scripts (scriptNames cmds).
Proof.
  intros [Hrange _].
  induction cmds as [|c cmds IH]; intros i result missing result' missing' H.
  - simpl in H. injection H as <- <-. exists []. simpl.
    rewrite !app_nil_r. split; [reflexivity|]. split; [constructor|reflexivity].
  - change (scriptNames (c :: cmds))
      with (strings.TrimPrefix c "npm:" :: scriptNames cmds) in *.
    rewrite npmLoop_cons in H. cbv zeta in H. rewrite missingNames_cons.
    destruct (scripts !! strings.TrimPrefix c "npm:") as [s|] eqn:E.
    + apply IH in H as (groups & -> & Hg & ->).
      exists ([mkCommand (strings.TrimPrefix c "npm:") s] :: groups).
      rewrite bool_decide_eq_false_2 by discriminate.
      split; [rewrite <- app_assoc; reflexivity|].
      split; [|reflexivity].
      constructor; [|exact Hg]. unfold resolution. rewrite E.
      split; [reflexivity|discriminate].
    + rewrite bool_decide_eq_true_2 by reflexivity.
      destruct (strings.Contains (strings.TrimPrefix c "npm:") "*") eqn:Hc;
        cbn [negb andb] in *.
      * rewrite matchScripts_matching in H.
        destruct (bool_decide
                    (matching w (strings.TrimPrefix c "npm:")
                              (rangeScripts w i scripts) <> [])) eqn:Hm;
          [|discriminate].
        apply IH in H as (groups & -> & Hg & ->).
        exists (matching w (strings.TrimPrefix c "npm:")
                         (rangeScripts w i scripts) :: groups).
        split; [simpl; rewrite <- app_assoc; reflexivity|].
        split; [|reflexivity].
        constructor; [|exact Hg]. unfold resolution. rewrite E, Hc.
        split; [apply matching_perm, Hrange|].
        intros Hnil. rewrite Hnil in Hm.
        apply bool_decide_eq_true_1 in Hm. contradiction.
      * apply IH in H as (groups & -> & Hg & ->).
        exists ([] :: groups). split; [reflexivity|].
        split; [|rewrite <- app_assoc; reflexivity].
        constructor; [|exact Hg]. unfold resolution. rewrite E, Hc.
        split; [reflexivity|]. intros _.
        change (scriptNames [c]) with [strings.TrimPrefix c "npm:"].
        rewrite missingNames_cons, Hc.
        rewrite bool_decide_eq_true_2 by exact E. discriminate.
Qed.

(** A wildcard that matches no script ends the loop at once. *)
Lemma npmLoop_no_match scripts :
  range_ok w ->
  forall pre c post i result missing,
    Forall (fun p => resolution w scripts (strings.TrimPrefix p "npm:") <> []
                     \/ strings.Contains (strings.TrimPrefix p "npm:") "*"
                        = false) pre ->
    strings.Contains (strings.TrimPrefix c "npm:") "*" = true ->
    resolution w scripts (strings.TrimPrefix c "npm:") = [] ->
    Commands.npmLoop w scripts i (pre ++ c :: post) result missing
    = inl (ErrNoScriptsMatching (strings.TrimPrefix c "npm:")).
Proof.
  intros [Hrange _] pre c post.
  assert (Hnil : forall n i,
            matching w n (map_to_list scripts) = [] ->
            matching w n (rangeScripts w i scripts) = []).
  { intros n i H. apply Permutation_nil_r. rewrite <- H.
    apply matching_perm, Hrange. }
  induction pre as [|p pre IH]; intros i result missing Hpre Hc Hres.
  - simpl app. rewrite npmLoop_cons. cbv zeta.
    unfold resolution in Hres.
    destruct (scripts !! strings.TrimPrefix c "npm:") as [s|] eqn:E;
      [discriminate|].
    rewrite Hc in *. cbn [negb].
    rewrite matchScripts_matching, (Hnil _ i Hres).
    rewrite bool_decide_eq_false_2 by (intros H; by apply H). reflexivity.
  - apply Forall_cons in Hpre as [Hp Hpre].
    change ((p :: pre) ++ c :: post) with (p :: (pre ++ c :: post)).
    rewrite npmLoop_cons. cbv zeta.
    unfold resolution in Hp.
    destruct (scripts !! strings.TrimPrefix p "npm:") as [s|] eqn:E.
    + apply IH; assumption.
    + destruct (strings.Contains (strings.TrimPrefix p "npm:") "*") eqn:Hw.
      * destruct Hp as [Hp|Hp]; [|discriminate]. cbn [negb].
        rewrite matchScripts_matching.
        rewrite bool_decide_eq_true_2.
        -- apply IH; assumption.
        -- intros H. apply Hp. apply Permutation_nil_r. rewrite <- H.
           apply matching_perm. symmetry. apply Hrange.
      * cbn [negb]. apply IH; assumption.
Qed.

End Resolution.

(** X4.  Without wildcards [parseNpmScripts] looks every name up: when all
    are scripts of the manifest the result is these scripts, one per
    command, under the names asked for and in the order of the commands;
    otherwise it fails and the error lists every missing name, in that
    order and joined by commas, as [script] when there is one and as
    [scripts] otherwise. *)
Theorem parseNpmScripts_named (w : World) (b : list byte)
    (scripts : gmap string string) (cmds : list string) :
  Unmarshal w b = inr scripts ->
  Forall (fun n => strings.Contains n "*" = false) (scriptNames cmds) ->
  let missing := missingNames scripts (scriptNames cmds) in
  (missing = [] ->
   Commands.parseNpmScripts w b cmds
     = inr (namedScripts scripts (scriptNames cmds))
   /\ map name (namedScripts scripts (scriptNames cmds)) = scriptNames cmds
   /\ forall c, c ∈ namedScripts scripts (scriptNames cmds) ->
                scripts !! name c = Some (cmd c))
  /\ (missing <> [] ->
      Commands.parseNpmScripts w b cmds
        = inl (ErrNoScriptsNamed
                 (if bool_decide (length missing = 1%nat)
                  then "script" else "scripts")
                 (strings.Join missing ","))).
Proof.
  intros Hb Hall missing. unfold Commands.parseNpmScripts. rewrite Hb.
  rewrite (npmLoop_named w scripts cmds Hall). cbn [app].
  fold missing. split.
  - intros Hm. rewrite Hm. cbn [length Nat.ltb Nat.leb].
    split; [reflexivity|].
    split; [apply namedScripts_complete; assumption|].
    intros c Hc. unfold namedScripts in Hc.
    apply list_elem_of_omap in Hc as (n & _ & Hn).
    destruct (scripts !! n) as [s|] eqn:E; [|discriminate].
    simpl in Hn. injection Hn as <-. exact E.
  - intros Hm. destruct missing as [|m1 [|m2 ms]]; [contradiction| |];
      reflexivity.
Qed.

Lemma parseNpmScripts_named_witness :
  Commands.parseNpmScripts testWorld [] ["npm:banana"; "npm:test"; "npm:duck"]
  = inl (ErrNoScriptsNamed "scripts" "banana,duck").
Proof.
  refine (proj2 (parseNpmScripts_named testWorld [] testScripts
                   ["npm:banana"; "npm:test"; "npm:duck"] _ _) _).
  - reflexivity.
  - repeat constructor.
  - discriminate.
Defined.

(** X5.  When [parseNpmScripts] succeeds, its result is made of one group
    per command, in the order of the commands: the script of that name
    alone or, when there is none, the scripts the wildcard matches, each
    once, in an order of the runtime's choosing. *)
Theorem parseNpmScripts_resolution (w : World) (b : list byte)
    (scripts : gmap string string) (cmds : list string)
    (out : list command) :
  range_ok w ->
  Unmarshal w b = inr scripts ->
  Commands.parseNpmScripts w b cmds = inr out ->
  exists groups,
    out = concat groups
    /\ Forall2 (fun c g => g ≡ₚ resolution w scripts
                                  (strings.TrimPrefix c "npm:"))
               cmds groups
    /\ Forall (fun g => g <> []) groups
    /\ missingNames scripts (scriptNames cmds) = [].
Proof.
  intros Hrange Hb H. unfold Commands.parseNpmScripts in H. rewrite Hb in H.
  destruct (Commands.npmLoop w scripts 0 cmds [] []) as [e|[result missing]]
    eqn:Hloop; [discriminate|].
  destruct (npmLoop_resolution w scripts Hrange _ _ _ _ _ _ Hloop)
    as (groups & -> & Hg & ->).
  cbn [app] in *.
  destruct (missingNames scripts (scriptNames cmds)) as [|m ms] eqn:Hm;
    [|discriminate].
  injection H as <-. exists groups. split; [reflexivity|].
  split; [|split; [|reflexivity]].
  - eapply Forall2_impl; [exact Hg|]. intros c g [Hc _]. exact Hc.
  - clear Hloop. revert groups Hg Hm.
    induction cmds as [|c cmds IH]; intros groups Hg Hm.
    + inversion Hg. constructor.
    + inversion Hg as [|c' g cmds' gs [_ Hc] Hrest]; subst.
      change (scriptNames (c :: cmds))
        with (strings.TrimPrefix c "npm:" :: scriptNames cmds) in Hm.
      rewrite missingNames_cons in Hm. apply app_eq_nil in Hm as [Hm1 Hm2].
      constructor; [|apply IH; assumption].
      intros Hnil. apply (Hc Hnil).
      change (scriptNames [c]) with [strings.TrimPrefix c "npm:"].
      rewrite missingNames_cons, Hm1. reflexivity.
Qed.

Lemma parseNpmScripts_resolution_witness :
  exists groups,
    Commands.parseNpmScripts testWorld [] ["npm:dev:*"; "npm:test"]
    = inr (concat groups)
    /\ Forall2 (fun c g => g ≡ₚ resolution testWorld testScripts
                                  (strings.TrimPrefix c "npm:"))
               ["npm:dev:*"; "npm:test"] groups.
Proof.
  destruct (parseNpmScripts_resolution testWorld [] testScripts
              ["npm:dev:*"; "npm:test"]
              [mkCommand "dev:css" "echo 'css'"; mkCommand "dev:js" "echo 'js'";
               mkCommand "test" "echo 'test'"])
    as (groups & H1 & H2 & _).
  - exact testWorld_range_ok.
  - reflexivity.
  - vm_compute. reflexivity.
  - exists groups. split; [rewrite <- H1; vm_compute; reflexivity|exact H2].
Defined.

(** X6.  A wildcard that is no script name and matches no script makes
    [parseNpmScripts] fail at once with the error that names this
    wildcard, whatever names were missing before it and whatever comes
    after it. *)
Theorem parseNpmScripts_no_match (w : World) (b : list byte)
    (scripts : gmap string string) (pre post : list string) (c : string) :
  range_ok w ->
  Unmarshal w b = inr scripts ->
  Forall (fun p => resolution w scripts (strings.TrimPrefix p "npm:") <> []
                   \/ strings.Contains (strings.TrimPrefix p "npm:") "*"
                      = false) pre ->
  strings.Contains (strings.TrimPrefix c "npm:") "*" = true ->
  resolution w scripts (strings.TrimPrefix c "npm:") = [] ->
  Commands.parseNpmScripts w b (pre ++ c :: post)
  = inl (ErrNoScriptsMatching (strings.TrimPrefix c "npm:")).
Proof.
  intros Hrange Hb Hpre Hc Hres. unfold Commands.parseNpmScripts.
  rewrite Hb.
  rewrite (npmLoop_no_match w scripts Hrange pre c post 0 [] [] Hpre Hc Hres).
  reflexivity.
Qed.

Lemma parseNpmScripts_no_match_witness :
  Commands.parseNpmScripts testWorld [] ["npm:banana"; "npm:duck:*"; "npm:test"]
  = inl (ErrNoScriptsMatching "duck:*").
Proof.
  apply (parseNpmScripts_no_match testWorld [] testScripts
           ["npm:banana"] ["npm:test"] "npm:duck:*").
  - exact testWorld_range_ok.
  - reflexivity.
  - constructor; [right; reflexivity|constructor].
  - reflexivity.
  - vm_compute. reflexivity.
Defined.

(** X7.  Failures on the way to the commands: [New] fails when the root
    has no absolute path, before anything is parsed; with an npm command
    among the commands, [parseCommands] fails when [package.json] cannot
    be read or cannot be parsed, and [New] passes that error on. *)
Theorem parseCommands_errors (w : World) (cfg : Manager.Config) :
  (forall e, Abs w (Manager.Root cfg) = inl e ->
             Manager.New w cfg = inl (ErrAbsPath e))
  /\ (forall root,
        Abs w (Manager.Root cfg) = inr root ->
        npmCommands (Manager.Cmds cfg) <> [] ->
        (forall e,
           ReadFile w (Join w root "package.json") = inl e ->
           Commands.parseCommands w root (Manager.Cmds cfg)
             = inl (ErrReadPackageJSON e)
           /\ Manager.New w cfg = inl (ErrReadPackageJSON e))
        /\ (forall b e,
             ReadFile w (Join w root "package.json") = inr b ->
             Unmarshal w b = inl e ->
             Commands.parseCommands w root (Manager.Cmds cfg)
               = inl (ErrParsePackageJSON e)
             /\ Manager.New w cfg = inl (ErrParsePackageJSON e))).
Proof.
  split.
  - intros e He. unfold Manager.New. rewrite He. reflexivity.
  - intros root Hroot Hnpm.
    assert (Hlen : (0 <? length (npmCommands (Manager.Cmds cfg)))%nat = true).
    { destruct (npmCommands (Manager.Cmds cfg)); [contradiction|reflexivity]. }
    assert (Hnew : forall e,
              Commands.parseCommands w root (Manager.Cmds cfg) = inl e ->
              Manager.New w cfg = inl e).
    { intros e He. unfold Manager.New. rewrite Hroot, He. reflexivity. }
    split.
    + intros e He.
      assert (Commands.parseCommands w root (Manager.Cmds cfg)
              = inl (ErrReadPackageJSON e)) as Hp.
      { unfold Commands.parseCommands. rewrite classify_spec.
        cbn [app]. rewrite Hlen, He. reflexivity. }
      split; [exact Hp|apply Hnew, Hp].
    + intros b e Hb He.
      assert (Commands.parseCommands w root (Manager.Cmds cfg)
              = inl (ErrParsePackageJSON e)) as Hp.
      { unfold Commands.parseCommands. rewrite classify_spec.
        cbn [app]. rewrite Hlen, Hb.
        unfold Commands.parseNpmScripts. rewrite He. reflexivity. }
      split; [exact Hp|apply Hnew, Hp].
Qed.

Lemma parseCommands_errors_witness :
  Manager.New noManifest (testConfig ["echo a"; "npm:test"])
  = inl (ErrReadPackageJSON "open package.json: no such file or directory").
Proof.
  refine (proj2 (proj1 (proj2 (parseCommands_errors noManifest
                                 (testConfig ["echo a"; "npm:test"]))
                              "/work/." _ _) _ _)).
  - reflexivity.
  - vm_compute. discriminate.
  - reflexivity.
Defined.


(** * Processes of a manager *)

Lemma length_bytes (s : string) : length (bytes s) = String.length s.
Proof.
  induction s as [|c s IH]; [reflexivity|].
  rewrite bytes_String. simpl. rewrite IH. reflexivity.
Qed.

Lemma max_list_with_app {A} (f : A -> nat) (l1 l2 : list A) :
  max_list_with f (l1 ++ l2)
  = Nat.max (max_list_with f l1) (max_list_with f l2).
Proof. induction l1 as [|x l1 IH]; simpl; [reflexivity|]. rewrite IH. lia. Qed.

Lemma max_list_with_attained {A} (f : A -> nat) (l : list A) :
  l <> [] -> exists x, x ∈ l /\ f x = max_list_with f l.
Proof.
  induction l as [|x l IH]; [contradiction|]. intros _. simpl.
  destruct l as [|y l].
  - exists x. split; [by left|]. simpl. lia.
  - destruct IH as (z & Hz & Hfz); [discriminate|].
    destruct (Nat.max_spec (f x) (max_list_with f (y :: l))) as [[? ->]|[? ->]].
    + exists z. split; [by right|exact Hfz].
    + exists x. split; [by left|reflexivity].
Qed.

Lemma max_list_with_le {A} (f : A -> nat) (l : list A) x :
  x ∈ l -> (f x <= max_list_with f l)%nat.
Proof. induction 1; simpl; lia. Qed.

Lemma addProcess_output root env out :
  forall pm1,
    let pm' := foldl (Manager.addProcess root env) pm1 (imap pair out) in
    maxNameLength (Manager.output pm')
    = Nat.max (maxNameLength (Manager.output pm1))
              (max_list_with (fun c => String.length (name c)) out)
    /\ printProcName (Manager.output pm')
       = printProcName (Manager.output pm1)
    /\ forall i,
         pipes (Manager.output pm') !! i
         = if (i <? length out)%nat then Some (mkPipe false)
           else pipes (Manager.output pm1) !! i.
Proof.
  induction out as [|c out IH] using rev_ind; intros pm1.
  - simpl. split; [lia|]. split; [reflexivity|]. intros i. reflexivity.
  - cbv zeta. rewrite imap_app, foldl_app. cbn [imap foldl].
    destruct (IH pm1) as (Hmax & Hprint & Hpipes). cbv zeta in *.
    set (pm2 := foldl (Manager.addProcess root env) pm1 (imap pair out)) in *.
    unfold Manager.addProcess, Manager.newProcess, Output.Connect.
    cbn [Manager.output maxNameLength pipes printProcName Name].
    rewrite max_list_with_app, length_app. cbn [max_list_with length].
    split; [|split; [exact Hprint|]].
    + rewrite Hmax.
      destruct (Nat.ltb_spec
                  (Nat.max (maxNameLength (Manager.output pm1))
                           (max_list_with (fun c => String.length (name c)) out))
                  (String.length (name c))); lia.
    + intros i. rewrite Nat.add_0_r.
      destruct (decide (i = length out)) as [->|Hne].
      * rewrite lookup_insert_eq.
        destruct (Nat.ltb_spec (length out) (length out + 1)); [reflexivity|lia].
      * rewrite lookup_insert_ne by congruence. rewrite Hpipes.
        destruct (Nat.ltb_spec i (length out)),
                 (Nat.ltb_spec i (length out + 1)); try reflexivity; lia.
Qed.

Lemma max_list_with_imap (g : nat -> command -> process) (out : list command) :
  (forall i c, Name (g i c) = name c) ->
  max_list_with (fun p => String.length (Name p)) (imap g out)
  = max_list_with (fun c => String.length (name c)) out.
Proof.
  revert g. induction out as [|c out IH]; intros g Hg; [reflexivity|].
  simpl. rewrite Hg, IH; [reflexivity|]. intros i c'. apply Hg.
Qed.

Lemma New_output (w : World) (cfg : Manager.Config)
    (pm : Manager.ProcessManager) :
  Manager.New w cfg = inr pm ->
  maxNameLength (Manager.output pm)
  = max_list_with (fun p => String.length (Name p)) (Manager.procs pm)
  /\ printProcName (Manager.output pm) = true
  /\ forall i,
       pipes (Manager.output pm) !! i
       = if (i <? length (Manager.procs pm))%nat then Some (mkPipe false)
         else None.
Proof.
  intros H. destruct (New_spec w cfg pm H) as (root & out & Ha & Hp & Hprocs).
  unfold Manager.New in H. rewrite Ha, Hp in H. injection H as H.
  match type of H with
  | foldl (Manager.addProcess ?r ?e) ?pm0 _ = _ =>
      destruct (addProcess_output r e out pm0) as (Hmax & Hprint & Hpipes)
  end.
  cbv zeta in *. rewrite H in *. cbn [Manager.output maxNameLength] in Hmax.
  split; [|split; [exact Hprint|]].
  - rewrite Hmax, Hprocs. simpl.
    rewrite max_list_with_imap by reflexivity. reflexivity.
  - intros i. rewrite Hpipes, Hprocs, length_imap. simpl.
    destruct (i <? length out)%nat; [reflexivity|apply lookup_empty].
Qed.

Lemma colors_NoDup : NoDup Manager.colors.
Proof. refine (bool_decide_unpack (NoDup Manager.colors) _). vm_compute. exact I. Qed.

(** X8.  The colours of the processes: the processes of a manager take the
    ten colours in turn, so two of them have the same colour exactly when
    their positions differ by a multiple of ten. *)
Theorem New_colors (w : World) (cfg : Manager.Config)
    (pm : Manager.ProcessManager) (i j : nat) (p q : process) :
  Manager.New w cfg = inr pm ->
  Manager.procs pm !! i = Some p -> Manager.procs pm !! j = Some q ->
  Manager.colors !! (i mod 10)%nat = Some (Color p)
  /\ (Color p = Color q <-> (i mod 10 = j mod 10)%nat).
Proof.
  intros H Hi Hj.
  destruct (New_spec w cfg pm H) as (root & out & _ & _ & Hprocs).
  rewrite Hprocs in Hi, Hj.
  apply list_lookup_imap_Some in Hi as (ci & _ & ->).
  apply list_lookup_imap_Some in Hj as (cj & _ & ->).
  unfold processOf. cbn [Color].
  change (length Manager.colors) with 10%nat.
  assert (Hlt : forall k, exists c, Manager.colors !! (k mod 10)%nat = Some c).
  { intros k. apply lookup_lt_is_Some_2.
    change (length Manager.colors) with 10%nat.
    apply Nat.mod_upper_bound. discriminate. }
  destruct (Hlt i) as (a & Ha), (Hlt j) as (b & Hb).
  rewrite Ha, Hb. split; [reflexivity|].
  change (default 0 (Some a)) with a. change (default 0 (Some b)) with b.
  split.
  - intros ->. exact (NoDup_lookup _ _ _ _ colors_NoDup Ha Hb).
  - intros E. rewrite E in Ha. congruence.
Qed.

Lemma New_colors_witness :
  Manager.colors !! (11 mod 10)%nat
  = Color <$> Manager.procs
      (testManager (replicate 12 "ls")) !! 11%nat.
Proof.
  destruct (Manager.procs (testManager (replicate 12 "ls")) !! 11%nat)
    as [p|] eqn:Hp; [|vm_compute in Hp; discriminate].
  destruct (Manager.procs (testManager (replicate 12 "ls")) !! 1%nat)
    as [q|] eqn:Hq; [|vm_compute in Hq; discriminate].
  exact (proj1 (New_colors testWorld (testConfig (replicate 12 "ls"))
                  (testManager (replicate 12 "ls")) 11 1 p q
                  eq_refl Hp Hq)).
Defined.

(** X9.  The column of the names: the output of a manager made by [New]
    is as wide as the longest name of its processes and no wider, so
    every label ends in the same column: the name, padded with blanks to
    that width, one blank more, and the end of the colour with a
    blank. *)
Theorem New_output_aligned (w : World) (cfg : Manager.Config)
    (pm : Manager.ProcessManager) :
  Manager.New w cfg = inr pm ->
  let m := Manager.output pm in
  (forall p, p ∈ Manager.procs pm ->
     exists pad,
       (String.length (Name p) + pad = maxNameLength m)%nat
       /\ Output.label w m p
          = bytes (ansi.ColorStart (NoColor w) (Color p))
            ++ bytes (Name p) ++ replicate (S pad) " "%byte
            ++ bytes (ansi.ColorEnd (NoColor w) +:+ " ")
       /\ (NoColor w = true ->
           length (Output.label w m p) = (maxNameLength m + 2)%nat))
  /\ (Manager.procs pm <> [] ->
      exists p, p ∈ Manager.procs pm
                /\ String.length (Name p) = maxNameLength m).
Proof.
  intros H m. destruct (New_output w cfg pm H) as (Hmax & Hprint & _).
  fold m in Hmax, Hprint. split.
  - intros p Hp.
    pose proof (max_list_with_le (fun p => String.length (Name p)) _ p Hp)
      as Hle.
    cbv beta in Hle. rewrite <- Hmax in Hle.
    exists (maxNameLength m - String.length (Name p))%nat.
    split; [lia|].
    assert (Hlabel : Output.label w m p
          = bytes (ansi.ColorStart (NoColor w) (Color p))
            ++ bytes (Name p)
            ++ replicate (S (maxNameLength m - String.length (Name p))) " "%byte
            ++ bytes (ansi.ColorEnd (NoColor w) +:+ " ")).
    { unfold Output.label. rewrite Hprint.
      replace (S (maxNameLength m) - String.length (Name p))%nat
        with (S (maxNameLength m - String.length (Name p))) by lia.
      reflexivity. }
    split; [exact Hlabel|].
    intros Hno. rewrite Hlabel. unfold ansi.ColorStart, ansi.ColorEnd.
    rewrite Hno. rewrite !length_app, length_replicate, !length_bytes.
    change (String.length "") with 0%nat.
    change (String.length ("" +:+ " ")) with 1%nat. lia.
  - intros Hne.
    destruct (max_list_with_attained (fun p => String.length (Name p))
                (Manager.procs pm) Hne) as (p & Hp & Hlen).
    exists p. split; [exact Hp|]. rewrite Hmax. exact Hlen.
Qed.

Lemma New_output_aligned_witness :
  exists p, p ∈ Manager.procs (testManager ["ls -l"; "sleep 1"])
            /\ String.length (Name p)
               = maxNameLength
                   (Manager.output (testManager ["ls -l"; "sleep 1"])).
Proof.
  refine (proj2 (New_output_aligned testWorld (testConfig ["ls -l"; "sleep 1"])
                   (testManager ["ls -l"; "sleep 1"]) _) _).
  - reflexivity.
  - vm_compute. discriminate.
Defined.

(** X10.  Every process of a manager made by [New] has its pipe: opening
    it never meets a missing pipe, it leaves the other pipes alone, and
    closing it closes both ends; a process the output never connected
    has none, and opening its pipe dereferences nil. *)
Theorem New_pipes_connected (w : World) (cfg : Manager.Config)
    (pm : Manager.ProcessManager) (i : nat) :
  Manager.New w cfg = inr pm ->
  let m := Manager.output pm in
  ((i < length (Manager.procs pm))%nat ->
   (forall ptyErr, NilDereference ∉ (Pipes.openPipe m i ptyErr).2)
   /\ (Pipes.openPipe m i None).2 = [PipeOpened]
   /\ pipes (Pipes.openPipe m i None).1 !! i = Some (mkPipe true)
   /\ (forall j, j <> i ->
         pipes (Pipes.openPipe m i None).1 !! j = pipes m !! j)
   /\ Pipes.ClosePipe (Pipes.openPipe m i None).1 i = [PipeClosed])
  /\ ((length (Manager.procs pm) <= i)%nat ->
      forall ptyErr,
        Pipes.openPipe m i ptyErr = (m, [NilDereference])
        /\ Pipes.ClosePipe m i = []).
Proof.
  intros H m. destruct (New_output w cfg pm H) as (_ & _ & Hpipes).
  fold m in Hpipes. specialize (Hpipes i) as Hi.
  split.
  - intros Hlt. apply Nat.ltb_lt in Hlt. rewrite Hlt in Hi.
    unfold Pipes.openPipe, Pipes.ClosePipe. rewrite Hi. cbn [fst snd pipes].
    split.
    { intros [e|]; cbn [snd]; intros Hin; apply list_elem_of_singleton in Hin;
        discriminate. }
    split; [reflexivity|].
    split; [apply lookup_insert_eq|].
    split; [intros j Hj; apply lookup_insert_ne; congruence|].
    rewrite lookup_insert_eq. reflexivity.
  - intros Hge. apply Nat.ltb_ge in Hge. rewrite Hge in Hi.
    intros ptyErr. unfold Pipes.openPipe, Pipes.ClosePipe. rewrite Hi.
    split; reflexivity.
Qed.

Lemma New_pipes_connected_witness :
  (Pipes.openPipe (Manager.output (testManager ["ls"; "pwd"])) 1 None).2
  = [PipeOpened].
Proof.
  refine (proj1 (proj2 (proj1 (New_pipes_connected testWorld
                                 (testConfig ["ls"; "pwd"])
                                 (testManager ["ls"; "pwd"]) 1 _) _))).
  - reflexivity.
  - vm_compute. lia.
Defined.

(** * Signals *)

Lemma signal_shape (w : World) (m : multiOutput) (p : process)
    (sigErr : option string) :
  (Proc.Running p = false
   /\ Proc.Interrupt w m p sigErr = [] /\ Proc.Kill w m p sigErr = [])
  \/ exists pid pre1 pre2 post,
       Process p = Some pid /\ ProcessState p = None
       /\ Proc.Running p = true
       /\ Proc.Interrupt w m p sigErr
          = map Write pre1 ++ SendSignal (- pid) SIGINT :: map Write post
       /\ Proc.Kill w m p sigErr
          = map Write pre2 ++ SendSignal (- pid) SIGKILL :: map Write post.
Proof.
  unfold Proc.Interrupt, Proc.Kill.
  destruct (Proc.Running p) eqn:Hrun; [right|left; auto].
  unfold Proc.Running in Hrun. apply andb_true_iff in Hrun as [H1 H2].
  apply bool_decide_eq_true_1 in H1, H2.
  destruct (Process p) as [pid|] eqn:Hpid; [|contradiction].
  unfold Proc.signal, Proc.FindProcess, Proc.writeDebug, Proc.writeLine,
    Proc.writeErr. rewrite Hpid.
  exists pid,
    (if negb (silent p)
     then [Output.WriteLine w m p (bytes (ansi.Dim (NoColor w) "Interrupting..."))]
     else []),
    (if negb (silent p)
     then [Output.WriteLine w m p (bytes (ansi.Dim (NoColor w) "Killing..."))]
     else []),
    (match sigErr with
     | Some err => [Output.WriteErr w m p err]
     | None => []
     end).
  split; [reflexivity|]. split; [exact H2|]. split; [reflexivity|].
  destruct (silent p), sigErr; split; reflexivity.
Qed.

Lemma Write_not_signal (l : list (list byte)) g sig :
  SendSignal g sig ∉ map Write l.
Proof.
  intros H. apply list_elem_of_fmap in H as (r & Hr & _). discriminate.
Qed.

Lemma Write_not_nil (l : list (list byte)) : NilDereference ∉ map Write l.
Proof.
  intros H. apply list_elem_of_fmap in H as (r & Hr & _). discriminate.
Qed.

Lemma filter_signal_Write (l : list (list byte)) :
  filter (fun e => isSignal e = true) (map Write l) = [].
Proof.
  induction l as [|r l IH]; [reflexivity|]. simpl. rewrite filter_cons.
  rewrite decide_False by discriminate. exact IH.
Qed.

Lemma signal_in_shape pre post g sig g' sig' :
  SendSignal g sig ∈ map Write pre ++ SendSignal g' sig' :: map Write post ->
  g = g' /\ sig = sig'.
Proof.
  intros H. apply elem_of_app in H as [H|H].
  - by apply Write_not_signal in H.
  - apply elem_of_cons in H as [H|H].
    + injection H as -> ->. auto.
    + by apply Write_not_signal in H.
Qed.

Lemma nil_not_in_shape pre post g sig :
  NilDereference ∉ map Write pre ++ SendSignal g sig :: map Write post.
Proof.
  intros H. apply elem_of_app in H as [H|H].
  - by apply Write_not_nil in H.
  - apply elem_of_cons in H as [H|H]; [discriminate|].
    by apply Write_not_nil in H.
Qed.

Lemma one_signal_in_shape pre post g sig :
  length (filter (fun e => isSignal e = true)
            (map Write pre ++ SendSignal g sig :: map Write post)) = 1%nat.
Proof.
  rewrite filter_app, filter_cons, !filter_signal_Write.
  rewrite decide_True by reflexivity. reflexivity.
Qed.

(** X11.  [Interrupt] and [Kill] never signal a process that is not
    running: they never read the pid of a process that has none, and
    every signal they send goes to the group of the process, the
    negated pid, of a process that was started and has not been waited
    for; [Interrupt] sends SIGINT only and [Kill] SIGKILL only, and each
    sends at most one signal. *)
Theorem signals_only_to_running (w : World) (m : multiOutput) (p : process)
    (sigErr : option string) :
  (NilDereference ∉ Proc.Interrupt w m p sigErr)
  /\ (NilDereference ∉ Proc.Kill w m p sigErr)
  /\ (forall g sig,
        SendSignal g sig ∈ Proc.Interrupt w m p sigErr
        \/ SendSignal g sig ∈ Proc.Kill w m p sigErr ->
        Proc.Running p = true /\ Process p = Some (- g)
        /\ ProcessState p = None)
  /\ (forall g sig,
        SendSignal g sig ∈ Proc.Interrupt w m p sigErr -> sig = SIGINT)
  /\ (forall g sig,
        SendSignal g sig ∈ Proc.Kill w m p sigErr -> sig = SIGKILL)
  /\ (length (filter (fun e => isSignal e = true)
                     (Proc.Interrupt w m p sigErr)) <= 1)%nat
  /\ (length (filter (fun e => isSignal e = true)
                     (Proc.Kill w m p sigErr)) <= 1)%nat.
Proof.
  destruct (signal_shape w m p sigErr)
    as [(Hrun & -> & ->)
       |(pid & pre1 & pre2 & post & Hpid & Hst & Hrun & -> & ->)].
  - split; [apply not_elem_of_nil|]. split; [apply not_elem_of_nil|].
    split; [intros g sig [H|H]; by apply not_elem_of_nil in H|].
    split; [intros g sig H; by apply not_elem_of_nil in H|].
    split; [intros g sig H; by apply not_elem_of_nil in H|].
    split; simpl; lia.
  - split; [apply nil_not_in_shape|]. split; [apply nil_not_in_shape|].
    split.
    { intros g sig [H|H]; apply signal_in_shape in H as [-> _];
        (split; [exact Hrun|]); (split; [|exact Hst]);
        rewrite Hpid; f_equal; lia. }
    split; [intros g sig H; by apply signal_in_shape in H as [_ ->]|].
    split; [intros g sig H; by apply signal_in_shape in H as [_ ->]|].
    rewrite !one_signal_in_shape. split; lia.
Qed.

(** * Run *)

Lemma Run_shape (w : World) (m : multiOutput) (p : process)
    (x : Proc.Execution) :
  Proc.ptyErr x = None ->
  exists first last,
    (Proc.Run w m p x).2
    = [PipeOpened] ++ map Write first ++ map Write last ++ [PipeClosed]
    /\ length first = (if silent p then 0 else 1)%nat
    /\ length last
       = (if silent p && bool_decide (Proc.runErr x = None) then 0 else 1)%nat.
Proof.
  intros Hpty. unfold Proc.Run. rewrite Hpty. cbn [snd].
  unfold Proc.writeDebug, Proc.writeErr, Proc.writeLine.
  exists (if negb (silent p)
          then [Output.WriteLine w m p (bytes (ansi.Dim (NoColor w) "Starting..."))]
          else []).
  destruct (Proc.runErr x) as [[code text|text]|] eqn:Hrun.
  - exists [if code =? 1 then Output.WriteErr w m p text
            else Output.WriteLine w m p
                   (bytes (ansi.Dim (NoColor w) ("exit status " +:+ itoa code)))].
    rewrite bool_decide_eq_false_2 by discriminate. rewrite andb_false_r.
    destruct (silent p), (code =? 1); repeat split; reflexivity.
  - exists [Output.WriteErr w m p text].
    rewrite bool_decide_eq_false_2 by discriminate. rewrite andb_false_r.
    destruct (silent p); repeat split; reflexivity.
  - exists (if negb (silent p)
            then [Output.WriteLine w m p
                    (bytes (ansi.Dim (NoColor w) "Process exited"))]
            else []).
    rewrite bool_decide_eq_true_2 by reflexivity. rewrite andb_true_r.
    destruct (silent p); repeat split; reflexivity.
Qed.

(** X12.  What [Run] does around the command: when the pseudo-terminal
    is there, the pipe is opened first and closed last, whatever the
    outcome, and in between come only writes: none when the process is
    silent and its command succeeds, one when it is silent and the command
    fails (a failure is reported even then), two otherwise.  When no
    pseudo-terminal can be had, the program ends and the command is not
    run. *)
Theorem Run_brackets (w : World) (m : multiOutput) (p : process)
    (x : Proc.Execution) :
  (Proc.ptyErr x = None ->
   exists writes,
     (Proc.Run w m p x).2 = PipeOpened :: map Write writes ++ [PipeClosed]
     /\ length writes
        = ((if silent p then 0 else 1)
           + (if silent p && bool_decide (Proc.runErr x = None)
              then 0 else 1))%nat
     /\ (Proc.Run w m p x).1 = Proc.afterRun p x)
  /\ (forall e, Proc.ptyErr x = Some e ->
                Proc.Run w m p x = (p, [Fatal e])).
Proof.
  split.
  - intros Hpty.
    destruct (Run_shape w m p x Hpty) as (first & last & H & H1 & H2).
    exists (first ++ last). rewrite H, map_app, length_app, H1, H2.
    split; [rewrite <- app_assoc; reflexivity|].
    split; [reflexivity|]. unfold Proc.Run. rewrite Hpty. reflexivity.
  - intros e He. unfold Proc.Run. rewrite He. reflexivity.
Qed.

Lemma Run_brackets_witness :
  (Proc.Run testWorld testOutput
     (mkProcess "echo" 2 true ["/bin/sh"; "-c"; "echo"] "/work" [] None None)
     (Proc.mkExecution None (Some 7) (Some 0) None)).2
  = [PipeOpened; PipeClosed].
Proof.
  destruct (proj1 (Run_brackets testWorld testOutput
              (mkProcess "echo" 2 true ["/bin/sh"; "-c"; "echo"] "/work" []
                         None None)
              (Proc.mkExecution None (Some 7) (Some 0) None)) eq_refl)
    as (writes & H & Hlen & _).
  rewrite H. destruct writes; [reflexivity|discriminate].
Defined.

(** X13.  After [Run] the process is left alone: the command has been
    waited for when it was started at all, so the process is not running
    any more, and [Interrupt] and [Kill] do nothing to it. *)
Theorem Run_then_idle (w : World) (m : multiOutput) (p : process)
    (x : Proc.Execution) (sigErr : option string) :
  Proc.ptyErr x = None ->
  (Proc.pid x <> None -> Proc.exitCode x <> None) ->
  let p' := (Proc.Run w m p x).1 in
  Proc.Running p' = false
  /\ Proc.Interrupt w m p' sigErr = []
  /\ Proc.Kill w m p' sigErr = [].
Proof.
  intros Hpty Hwait p'.
  assert (Hrun : Proc.Running p' = false).
  { unfold p', Proc.Run. rewrite Hpty. cbn [fst].
    unfold Proc.Running, Proc.afterRun. cbn [Process ProcessState].
    destruct (Proc.pid x) as [pid|].
    - destruct (Proc.exitCode x) as [c|].
      + rewrite (bool_decide_eq_false_2 (Some c = None)) by discriminate.
        apply andb_false_r.
      + exfalso. by apply Hwait.
    - rewrite bool_decide_eq_false_2 by (intros X; by apply X). reflexivity. }
  split; [exact Hrun|].
  unfold Proc.Interrupt, Proc.Kill. rewrite Hrun. split; reflexivity.
Qed.

Lemma Run_then_idle_witness :
  Proc.Kill testWorld testOutput
    (Proc.Run testWorld testOutput testProcess
       (Proc.mkExecution None (Some 4242) (Some 0) None)).1 None
  = [].
Proof.
  refine (proj2 (proj2 (Run_then_idle testWorld testOutput testProcess
                          (Proc.mkExecution None (Some 4242) (Some 0) None)
                          None _ _))).
  - reflexivity.
  - discriminate.
Defined.


(** * Lines and records *)

Module Lines.
Import bufio.

Lemma chomp_length (l : list byte) : (length (chomp l) <= length l)%nat.
Proof.
  unfold chomp. destruct (bool_decide (last l = Some CR)); [|lia].
  rewrite length_take. lia.
Qed.

Lemma chomp_no_LF (l : list byte) : LF ∉ l -> LF ∉ chomp l.
Proof.
  unfold chomp. destruct (bool_decide (last l = Some CR)); [|auto].
  apply Scanner.not_elem_of_take.
Qed.

Lemma not_elem_of_app_2 (l1 l2 : list byte) c : c ∉ l1 -> c ∉ l2 -> c ∉ l1 ++ l2.
Proof. intros H1 H2 H. apply elem_of_app in H as [H|H]; auto. Qed.

Lemma take_no_LF (n k : nat) (s : list byte) :
  (k <= n)%nat -> LF ∉ take n s -> LF ∉ take k s.
Proof.
  intros Hk H. replace (take k s) with (take k (take n s)).
  - by apply Scanner.not_elem_of_take.
  - rewrite take_take. f_equal. lia.
Qed.

(** The lines handed to the callback hold no line feed, and together no
    more bytes than were to be read. *)
Lemma linesOf_sound n fuel :
  forall s acc,
    LF ∉ acc ->
    Forall (fun l => LF ∉ l) (linesOf n fuel s acc)
    /\ (length (concat (linesOf n fuel s acc)) <= length acc + length s)%nat.
Proof.
  induction fuel as [|fuel IH]; intros s acc Hacc.
  { simpl. split; [constructor|lia]. }
  rewrite Scanner.linesOf_S. case_bool_decide as Hnil.
  { simpl. split; [constructor|lia]. }
  destruct (IndexByte (take n s) LF) as [i|] eqn:Hi.
  - apply Scanner.IndexByte_Some in Hi as (Hlt & _ & Hno).
    rewrite length_take in Hlt. rewrite take_take in Hno.
    replace (Nat.min i n) with i in Hno by lia.
    destruct (IH (drop (S i) s) []) as [IH1 IH2]; [apply not_elem_of_nil|].
    split.
    + constructor; [|exact IH1].
      apply not_elem_of_app_2; [exact Hacc|]. by apply chomp_no_LF.
    + simpl. rewrite !length_app. rewrite length_drop in IH2. simpl in IH2.
      pose proof (chomp_length (take i s)) as Hc. rewrite length_take in Hc.
      lia.
  - apply Scanner.IndexByte_None in Hi.
    destruct (Nat.leb_spec n (length s)) as [Hlong|Hshort].
    + case_bool_decide as Hcr.
      * destruct (IH (drop (n - 1) s) (acc ++ take (n - 1) s)) as [IH1 IH2].
        { apply not_elem_of_app_2; [exact Hacc|].
          apply (take_no_LF n); [lia|exact Hi]. }
        split; [exact IH1|].
        rewrite length_app, length_take, length_drop in IH2. lia.
      * destruct (IH (drop n s) (acc ++ take n s)) as [IH1 IH2].
        { apply not_elem_of_app_2; assumption. }
        split; [exact IH1|].
        rewrite length_app, length_take, length_drop in IH2. lia.
    + rewrite take_ge in Hi by lia. split.
      * constructor; [|constructor]. apply not_elem_of_app_2; assumption.
      * simpl. rewrite app_nil_r, length_app. lia.
Qed.

Lemma fillLoop_stalled k :
  forall b cs,
    io.chunks (rd b) = replicate k [] ++ cs ->
    fillLoop k b
    = mkReader (size b) (buf b) (Some ErrNoProgress)
               (io.mkReader cs (io.final (rd b))).
Proof.
  induction k as [|k IH]; intros b cs H.
  - simpl in H. destruct b as [sz bf er [ch fi]]. simpl in *. subst ch.
    reflexivity.
  - rewrite Scanner.fillLoop_S. unfold io.Read. rewrite H. simpl.
    rewrite IH with (cs := cs) by reflexivity. simpl.
    rewrite app_nil_r. reflexivity.
Qed.

Lemma fill_stalled b cs :
  io.chunks (rd b) = replicate maxConsecutiveEmptyReads [] ++ cs ->
  fill b = mkReader (size b) (buf b) (Some ErrNoProgress)
                    (io.mkReader cs (io.final (rd b))).
Proof. intros H. unfold fill. apply fillLoop_stalled, H. Qed.

Lemma ReadSliceLoop_err fuel b e :
  IndexByte (buf b) LF = None -> err b = Some e ->
  ReadSliceLoop (S fuel) b LF
  = Some (buf b, Some (ReadError e), mkReader (size b) [] None (rd b)).
Proof. intros Hi He. simpl. rewrite Hi, He. reflexivity. Qed.

Lemma ReadLine_stalled (r : io.Reader) cs :
  io.chunks r = replicate maxConsecutiveEmptyReads [] ++ cs ->
  ReadLine (NewReader r)
  = Some ([], false, Some ErrNoProgress,
          mkReader defaultBufSize [] None (io.mkReader cs (io.final r))).
Proof.
  intros H. unfold ReadLine, ReadSlice.
  rewrite !Nat.add_succ_r.
  rewrite Scanner.ReadSliceLoop_step;
    [|reflexivity|reflexivity|unfold NewReader, defaultBufSize; simpl; lia].
  rewrite (fill_stalled (NewReader r) cs H).
  rewrite ReadSliceLoop_err with (e := ErrNoProgress); reflexivity.
Qed.

Lemma feed_writer (w : World) (m : multiOutput) (proc : process)
    (lines : list (list byte)) :
  forall st,
    Scan.feed (Pipes.writer w m proc) st lines
    = (st ++ map (fun l => Write (Output.WriteLine w m proc l)) lines, false).
Proof.
  induction lines as [|l lines IH]; intros st.
  - simpl. rewrite app_nil_r. reflexivity.
  - simpl. rewrite IH, <- app_assoc. reflexivity.
Qed.

End Lines.


(** X15.  How the operating system cuts the stream into reads does not
    matter: two streams with the same bytes and the same final error,
    neither of which ever returns an empty read, make [scanLines] return
    and call the callback alike. *)
Theorem scanLines_chunking {St : Type}
    (callback : St -> list byte -> St * bool) (r1 r2 : io.Reader) (st : St) :
  Forall (fun c => c <> []) (io.chunks r1) ->
  Forall (fun c => c <> []) (io.chunks r2) ->
  io.content r1 = io.content r2 -> io.final r1 = io.final r2 ->
  Scan.scanLines callback r1 st = Scan.scanLines callback r2 st
  /\ exists result, Scan.scanLines callback r1 st = Some result.
Proof.
  intros H1 H2 Hc Hf.
  rewrite (Scanner.scanLines_linesOf callback r1 st H1).
  rewrite (Scanner.scanLines_linesOf callback r2 st H2).
  rewrite Hc, Hf. split; [reflexivity|]. eexists. reflexivity.
Qed.

Lemma scanLines_chunking_witness :
  Scan.scanLines Scan.record testReader []
  = Scan.scanLines Scan.record
      (io.mkReader [bytes ("abc" +:+ newline +:+ "de" +:+ creturn +:+ newline
                           +:+ "xyz")] EOF) [].
Proof.
  refine (proj1 (scanLines_chunking Scan.record testReader
                   (io.mkReader [bytes ("abc" +:+ newline +:+ "de" +:+ creturn
                                        +:+ newline +:+ "xyz")] EOF) []
                   _ _ _ _)).
  - repeat constructor; discriminate.
  - repeat constructor; discriminate.
  - reflexivity.
  - reflexivity.
Defined.

(** X16.  What the callback of [scanLines] is given: lines without a line
    feed, which together hold no more bytes than the stream.  Whatever the
    callback does, [scanLines] returns. *)
Theorem scanLines_lines_sound {St : Type}
    (callback : St -> list byte -> St * bool) (r : io.Reader) (st : St) :
  Forall (fun c => c <> []) (io.chunks r) ->
  exists lines,
    Scan.scanLines callback r st
    = Some (finish (io.final r) (Scan.feed callback st lines))
    /\ Forall (fun l => bufio.LF ∉ l) lines
    /\ (length (concat lines) <= length (io.content r))%nat.
Proof.
  intros H.
  exists (linesOf bufio.defaultBufSize (length (io.content r) + 1)
                  (io.content r) []).
  split; [apply Scanner.scanLines_linesOf, H|].
  apply (Lines.linesOf_sound bufio.defaultBufSize
           (length (io.content r) + 1) (io.content r) []).
  apply not_elem_of_nil.
Qed.

Lemma scanLines_lines_sound_witness :
  exists lines,
    Scan.scanLines Scan.record testReader []
    = Some (finish EOF (Scan.feed Scan.record [] lines))
    /\ Forall (fun l => bufio.LF ∉ l) lines.
Proof.
  destruct (scanLines_lines_sound Scan.record testReader [])
    as (lines & H1 & H2 & _).
  - repeat constructor; discriminate.
  - exists lines. split; assumption.
Defined.

(** X17.  A stream that returns nothing a hundred times in a row makes
    [scanLines] give up: it returns [io.ErrNoProgress] and the callback is
    not called, whatever the stream would have delivered afterwards. *)
Theorem scanLines_no_progress {St : Type}
    (callback : St -> list byte -> St * bool) (cs : list (list byte))
    (final : ioError) (st : St) :
  Scan.scanLines callback
    (io.mkReader (replicate bufio.maxConsecutiveEmptyReads [] ++ cs) final) st
  = Some (st, Some ErrNoProgress).
Proof.
  unfold Scan.scanLines. rewrite Nat.add_1_r, Scanner.scanLoop_S.
  rewrite (Lines.ReadLine_stalled _ cs) by reflexivity.
  reflexivity.
Qed.


(** * Progress of the goroutines *)

Module Progress.
Import Manager ShutdownInvariants.

Lemma unsent_insert (gs : list goroutine) i g g' :
  gs !! i = Some g ->
  (unsent (<[i := g']> gs)
   + (if bool_decide (g = InRun \/ g = Returned) then 1 else 0)
   = unsent gs
     + (if bool_decide (g' = InRun \/ g' = Returned) then 1 else 0))%nat.
Proof.
  unfold unsent. revert i. induction gs as [|x gs IH]; intros i Hi.
  - discriminate.
  - destruct i as [|i]; simpl in *.
    + injection Hi as ->. rewrite !filter_cons.
      destruct (decide (g' = InRun \/ g' = Returned)) as [H1|H1],
               (decide (g = InRun \/ g = Returned)) as [H2|H2];
        rewrite ?(bool_decide_eq_true_2 _ H1), ?(bool_decide_eq_false_2 _ H1),
                ?(bool_decide_eq_true_2 _ H2), ?(bool_decide_eq_false_2 _ H2);
        simpl; lia.
    + rewrite !filter_cons. specialize (IH i Hi).
      destruct (decide (x = InRun \/ x = Returned)); simpl; lia.
Qed.

Lemma stepsLeft_insert (gs : list goroutine) i g g' :
  gs !! i = Some g ->
  (sum_list_with stepsLeft (<[i := g']> gs) + stepsLeft g
   = sum_list_with stepsLeft gs + stepsLeft g')%nat.
Proof.
  revert i. induction gs as [|x gs IH]; intros i Hi.
  - discriminate.
  - destruct i as [|i]; simpl in *.
    + injection Hi as ->. lia.
    + specialize (IH i Hi). lia.
Qed.

Lemma unsent_pos (gs : list goroutine) i :
  gs !! i = Some Returned -> (0 < unsent gs)%nat.
Proof.
  intros Hi. unfold unsent.
  assert (Hin : Returned ∈ filter (fun g => g = InRun \/ g = Returned) gs).
  { apply list_elem_of_filter. split; [by right|].
    eapply list_elem_of_lookup_2, Hi. }
  destruct (filter _ gs); [by apply elem_of_nil in Hin|simpl; lia].
Qed.

Lemma unfinished_pos (gs : list goroutine) :
  unfinished gs <> 0%nat -> exists i g, gs !! i = Some g /\ g <> Finished.
Proof.
  unfold unfinished. intros H.
  destruct (filter (fun g => g <> Finished) gs) as [|g l] eqn:E;
    [contradiction|].
  assert (Hin : g ∈ filter (fun g => g <> Finished) gs)
    by (rewrite E; by left).
  apply list_elem_of_filter in Hin as [Hg Hin].
  apply list_elem_of_lookup_1 in Hin as [i Hi]. eauto.
Qed.

Section Progress.
Variable n : nat.
Variable timeout : Z.

(** [pm.done] never holds more values than goroutines have sent. *)
Lemma step_capacity s l s' :
  (done s + unsent (gor s) <= n)%nat ->
  step n timeout s l = Some s' ->
  (done s' + unsent (gor s') <= n)%nat.
Proof.
  intros Hcap Hstep. destruct l as [i|i|i| | |d|]; simpl in Hstep.
  - destruct (gor s !! i) as [[| | |]|] eqn:Hi; try discriminate.
    injection Hstep as <-. simpl.
    pose proof (unsent_insert (gor s) i InRun Returned Hi) as H.
    rewrite !bool_decide_eq_true_2 in H by auto. lia.
  - destruct (gor s !! i) as [[| | |]|] eqn:Hi; try discriminate.
    destruct (done s <? n)%nat; [|discriminate].
    injection Hstep as <-. simpl.
    pose proof (unsent_insert (gor s) i Returned Sent Hi) as H.
    rewrite bool_decide_eq_true_2 in H by auto.
    rewrite bool_decide_eq_false_2 in H by (intros [?|?]; discriminate).
    lia.
  - destruct (gor s !! i) as [[| | |]|] eqn:Hi; try discriminate.
    injection Hstep as <-. simpl.
    pose proof (unsent_insert (gor s) i Sent Finished Hi) as H.
    rewrite !bool_decide_eq_false_2 in H by (intros [?|?]; discriminate).
    lia.
  - unfold coordStep in Hstep.
    destruct (coord s) as [|k|deadline|k|].
    + destruct (0 <? done s)%nat; [|discriminate].
      injection Hstep as <-. simpl. lia.
    + destruct (k <? n)%nat; injection Hstep as <-; simpl; lia.
    + destruct (deadline <=? now s); [|discriminate].
      injection Hstep as <-. simpl. lia.
    + destruct (k <? n)%nat; injection Hstep as <-; simpl; lia.
    + discriminate.
  - injection Hstep as <-. unfold signalStep.
    destruct (coord s); simpl; lia.
  - destruct (0 <=? d); [|discriminate]. injection Hstep as <-. simpl. lia.
  - destruct ((procWg s =? 0)%nat && negb (returned s)); [|discriminate].
    injection Hstep as <-. simpl. lia.
Qed.

Lemma init_capacity : (done (init n) + unsent (gor (init n)) <= n)%nat.
Proof.
  unfold init, unsent. simpl.
  rewrite filter_all by (intros g [-> _]%elem_of_replicate; by left).
  rewrite length_replicate. lia.
Qed.

Lemma run_capacity ls :
  forall s s',
    bookkeeping n s /\ (done s + unsent (gor s) <= n)%nat ->
    run n timeout s ls = Some s' ->
    bookkeeping n s' /\ (done s' + unsent (gor s') <= n)%nat.
Proof.
  induction ls as [|l ls IH]; intros s s' [Hb Hc] Hrun; simpl in Hrun.
  - injection Hrun as <-. auto.
  - destruct (step n timeout s l) as [s1|] eqn:Hstep; [|discriminate].
    apply (IH s1 s'); [|exact Hrun]. split.
    + eapply Shutdown.step_bookkeeping; eassumption.
    + eapply step_capacity; eassumption.
Qed.

Lemma reachable_capacity ls s :
  run n timeout (init n) ls = Some s ->
  bookkeeping n s /\ (done s + unsent (gor s) <= n)%nat.
Proof.
  apply run_capacity. split; [|apply init_capacity].
  apply (Shutdown.init_invariant n timeout).
Qed.

(** Unless [Run] has returned, a goroutine of a process or the caller of
    [Run] can take a step, and that step uses up work. *)
Lemma progress s :
  bookkeeping n s -> (done s + unsent (gor s) <= n)%nat ->
  returned s = false ->
  exists l s',
    isProcess l = true /\ step n timeout s l = Some s'
    /\ (sum_list_with stepsLeft (gor s') + (if returned s' then 0 else 1)
        < sum_list_with stepsLeft (gor s) + 1)%nat
    /\ coord s' = coord s /\ now s' = now s /\ coordLog s' = coordLog s.
Proof.
  intros (Hlen & _ & _ & Hwg & _) Hcap Hret.
  destruct (decide (unfinished (gor s) = 0%nat)) as [Hz|Hnz].
  - exists WaitReturns. simpl. rewrite Hwg, Hz, Hret. simpl.
    eexists. split; [reflexivity|]. split; [reflexivity|]. simpl.
    split; [lia|]. split; [reflexivity|]. split; [reflexivity|].
    unfold coordLog. simpl. rewrite filter_app, filter_cons, filter_nil.
    rewrite decide_False by discriminate. apply app_nil_r.
  - destruct (unfinished_pos _ Hnz) as (i & g & Hi & Hg).
    destruct g; [| | |contradiction].
    + exists (ProcExits i). simpl. rewrite Hi. eexists.
      split; [reflexivity|]. split; [reflexivity|]. simpl. rewrite Hret.
      pose proof (stepsLeft_insert (gor s) i InRun Returned Hi) as Hsum.
      simpl in Hsum. split; [lia|]. split; [reflexivity|].
      split; [reflexivity|].
      unfold coordLog. simpl. rewrite filter_app, filter_cons, filter_nil.
      rewrite decide_False by discriminate. apply app_nil_r.
    + exists (SendDone i). simpl. rewrite Hi.
      pose proof (unsent_pos _ _ Hi) as Hpos.
      destruct (Nat.ltb_spec (done s) n); [|lia]. eexists.
      split; [reflexivity|]. split; [reflexivity|]. simpl. rewrite Hret.
      pose proof (stepsLeft_insert (gor s) i Returned Sent Hi) as Hsum.
      simpl in Hsum. split; [lia|]. auto.
    + exists (WgDone i). simpl. rewrite Hi. eexists.
      split; [reflexivity|]. split; [reflexivity|]. simpl. rewrite Hret.
      pose proof (stepsLeft_insert (gor s) i Sent Finished Hi) as Hsum.
      simpl in Hsum. split; [lia|]. auto.
Qed.

Lemma finish_schedule k :
  forall s,
    (sum_list_with stepsLeft (gor s) + (if returned s then 0 else 1) <= k)%nat ->
    bookkeeping n s -> (done s + unsent (gor s) <= n)%nat ->
    exists ls s',
      Forall (fun l => isProcess l = true) ls
      /\ run n timeout s ls = Some s' /\ returned s' = true
      /\ coord s' = coord s /\ now s' = now s /\ coordLog s' = coordLog s.
Proof.
  induction k as [|k IH]; intros s Hk Hb Hc.
  - destruct (returned s) eqn:Hret; [|lia].
    exists [], s. split; [constructor|]. auto.
  - destruct (returned s) eqn:Hret.
    { exists [], s. split; [constructor|]. auto. }
    destruct (progress s Hb Hc Hret)
      as (l & s1 & Hl & Hstep & Hless & H1 & H2 & H3).
    destruct (IH s1) as (ls & s' & Hls & Hrun & Hr & H4 & H5 & H6).
    + lia.
    + eapply Shutdown.step_bookkeeping; eassumption.
    + eapply step_capacity; eassumption.
    + exists (l :: ls), s'. split; [constructor; assumption|].
      simpl. rewrite Hstep. split; [exact Hrun|]. split; [exact Hr|].
      split; [congruence|]. split; congruence.
Qed.

Lemma run_app s l1 l2 :
  run n timeout s (l1 ++ l2)
  = match run n timeout s l1 with
    | Some s' => run n timeout s' l2
    | None => None
    end.
Proof.
  revert s. induction l1 as [|l l1 IH]; intros s; simpl; [reflexivity|].
  destruct (step n timeout s l); [apply IH|reflexivity].
Qed.

(** The first loop of [waitForExit], from its [j]-th turn. *)
Lemma interrupt_loop k :
  forall j g d w r t lg,
    (j + k = n)%nat ->
    run n timeout (mkState g d w (Interrupting j) r t lg)
        (replicate k Coordinator)
    = Some (mkState g d w (Interrupting n) r t
                    (lg ++ map GoInterrupt (seq j k))).
Proof.
  induction k as [|k IH]; intros j g d w r t lg Hj.
  - simpl. rewrite app_nil_r. do 3 f_equal. lia.
  - simpl. unfold coordStep. simpl.
    destruct (Nat.ltb_spec j n); [|lia].
    unfold logged, setCoord. simpl. rewrite IH by lia.
    rewrite <- app_assoc. reflexivity.
Qed.

Lemma kill_loop k :
  forall j g d w r t lg,
    (j + k = n)%nat ->
    run n timeout (mkState g d w (Killing j) r t lg)
        (replicate k Coordinator)
    = Some (mkState g d w (Killing n) r t (lg ++ map GoKill (seq j k))).
Proof.
  induction k as [|k IH]; intros j g d w r t lg Hj.
  - simpl. rewrite app_nil_r. do 3 f_equal. lia.
  - simpl. unfold coordStep. simpl.
    destruct (Nat.ltb_spec j n); [|lia].
    unfold logged, setCoord. simpl. rewrite IH by lia.
    rewrite <- app_assoc. reflexivity.
Qed.

End Progress.
End Progress.

(** X18.  The deferred send never blocks: [pm.done] has room for one value
    per process, so whenever a process has returned from its [Run] its
    goroutine can send, whatever the coordinator has or has not received;
    and at no time does the channel hold more values than it has room
    for. *)
Theorem done_never_blocks (n : nat) (timeout : Z)
    (ls : list Manager.label) (s : Manager.state) (i : nat) :
  Manager.run n timeout (Manager.init n) ls = Some s ->
  (Manager.done s <= n)%nat
  /\ (Manager.gor s !! i = Some Manager.Returned ->
      (Manager.done s < n)%nat
      /\ exists s',
           Manager.step n timeout s (Manager.SendDone i) = Some s'
           /\ Manager.gor s' !! i = Some Manager.Sent
           /\ Manager.done s' = S (Manager.done s)).
Proof.
  intros Hrun.
  destruct (Progress.reachable_capacity n timeout ls s Hrun)
    as [(Hlen & _) Hcap].
  split; [lia|]. intros Hi.
  pose proof (Progress.unsent_pos _ _ Hi) as Hpos.
  split; [lia|]. simpl. rewrite Hi.
  destruct (Nat.ltb_spec (Manager.done s) n); [|lia].
  eexists. split; [reflexivity|]. simpl. split; [|reflexivity].
  apply list_lookup_insert_eq. apply lookup_lt_Some in Hi. exact Hi.
Qed.

Lemma done_never_blocks_witness :
  exists s',
    Manager.step 2 5000000000
      (Manager.mkState [Manager.InRun; Manager.Returned] 0 2
         Manager.WaitDoneOrInterrupt false 3 [Manager.RunReturned 1])
      (Manager.SendDone 1) = Some s'
    /\ Manager.done s' = 1%nat.
Proof.
  destruct (proj2 (done_never_blocks 2 5000000000
                     [Manager.Tick 3; Manager.ProcExits 1]
                     (Manager.mkState [Manager.InRun; Manager.Returned] 0 2
                        Manager.WaitDoneOrInterrupt false 3
                        [Manager.RunReturned 1]) 1 eq_refl) eq_refl)
    as (_ & s' & H1 & _ & H2).
  exists s'. split; assumption.
Defined.

(** X19.  [Run] can always return: from every state the program can be in,
    the goroutines of the processes and the caller of [Run] can go on by
    themselves, without a step of [waitForExit], a signal or the passing
    of time, until [Run] has returned; the coordinator is then where it
    was. *)
Theorem Run_can_return (n : nat) (timeout : Z) (ls : list Manager.label)
    (s : Manager.state) :
  Manager.run n timeout (Manager.init n) ls = Some s ->
  exists ls' s',
    Forall (fun l => isProcess l = true) ls'
    /\ Manager.run n timeout s ls' = Some s'
    /\ Manager.returned s' = true
    /\ (forall i, (i < n)%nat -> Manager.gor s' !! i = Some Manager.Finished)
    /\ Manager.coord s' = Manager.coord s
    /\ Manager.now s' = Manager.now s
    /\ Manager.coordLog s' = Manager.coordLog s.
Proof.
  intros Hrun.
  destruct (Progress.reachable_capacity n timeout ls s Hrun) as [Hb Hc].
  destruct (Progress.finish_schedule n timeout _ s (le_n _) Hb Hc)
    as (ls' & s' & Hls & Hrun' & Hret & H1 & H2 & H3).
  exists ls', s'. split; [exact Hls|]. split; [exact Hrun'|].
  split; [exact Hret|]. split; [|auto].
  destruct (Progress.run_capacity n timeout ls' s s' (conj Hb Hc) Hrun')
    as [Hb' _].
  pose proof Hb' as (_ & _ & _ & Hwg & Hfin).
  intros i Hi.
  apply (Shutdown.bookkeeping_all_returned n s' Hb'); [|exact Hi].
  rewrite Hwg. apply Hfin, Hret.
Qed.

Lemma Run_can_return_witness :
  exists ls' s',
    Forall (fun l => isProcess l = true) ls'
    /\ Manager.run 2 5000000000
         (Manager.mkState [Manager.InRun; Manager.Returned] 0 2
            Manager.WaitDoneOrInterrupt false 3 [Manager.RunReturned 1])
         ls' = Some s'
    /\ Manager.returned s' = true.
Proof.
  destruct (Run_can_return 2 5000000000
              [Manager.Tick 3; Manager.ProcExits 1]
              (Manager.mkState [Manager.InRun; Manager.Returned] 0 2
                 Manager.WaitDoneOrInterrupt false 3
                 [Manager.RunReturned 1]) eq_refl)
    as (ls' & s' & H1 & H2 & H3 & _).
  exists ls', s'. auto.
Defined.

(** X20.  A second signal does not wait for the grace period: when two
    signals arrive, the coordinator running after each, every process is
    interrupted and then killed without any time passing, however long
    the timeout, and although no process has exited and [Run] has not
    returned. *)
Theorem two_signals_kill (n : nat) (timeout : Z) :
  Manager.run n timeout (Manager.init n) (twoSignals n)
  = Some (Manager.mkState (replicate n Manager.InRun) 0 n Manager.Exited
            false 0
            (escalation n (Manager.SignalReceived 0) 0
                        (Manager.SignalReceived 0))).
Proof.
  unfold twoSignals, Manager.init. rewrite !replicate_S_end. simpl.
  unfold Manager.signalStep, Manager.logged, Manager.setCoord. simpl.
  rewrite !Progress.run_app.
  rewrite Progress.interrupt_loop by lia. simpl.
  unfold Manager.coordStep. simpl. rewrite Nat.ltb_irrefl.
  unfold Manager.signalStep, Manager.logged, Manager.setCoord. simpl.
  rewrite !Progress.run_app.
  rewrite Progress.kill_loop by lia. simpl.
  unfold Manager.coordStep. simpl. rewrite Nat.ltb_irrefl.
  unfold Manager.setCoord, escalation. simpl.
  rewrite <- !app_assoc. reflexivity.
Qed.


(** * The command line *)

Lemma addProcess_timeout root env (l : list (nat * command)) :
  forall pm1,
    Manager.timeout (foldl (Manager.addProcess root env) pm1 l)
    = Manager.timeout pm1.
Proof.
  induction l as [|[i c] l IH]; intros pm1; [reflexivity|].
  simpl. rewrite IH. reflexivity.
Qed.

Lemma New_timeout (w : World) (cfg : Manager.Config)
    (pm : Manager.ProcessManager) :
  Manager.New w cfg = inr pm ->
  Manager.timeout pm = Manager.wrap64 (Manager.Timeout cfg * Manager.Second).
Proof.
  unfold Manager.New.
  destruct (Abs w (Manager.Root cfg)) as [e|root]; [discriminate|].
  destruct (Commands.parseCommands w root (Manager.Cmds cfg)) as [e|out];
    [discriminate|].
  intros H. injection H as <-. apply addProcess_timeout.
Qed.

Lemma wrap64_small (z : Z) :
  - 2 ^ 63 <= z < 2 ^ 63 -> Manager.wrap64 z = z.
Proof.
  intros H. unfold Manager.wrap64.
  change (2 ^ 63) with 9223372036854775808 in *.
  change (2 ^ 64) with 18446744073709551616.
  rewrite Z.mod_small by lia. lia.
Qed.

(** X21.  The check of the [timeout] flag and the duration of the
    manager: the flag accepts the values from 0 to 65535 (both included),
    and for an accepted value the duration [New] computes is that many
    seconds, without overflow; no argument at all is an error of its own,
    met before [New] is called, and an error of [New] is passed on. *)
Theorem timeout_flag_bounds (w : World) (args : list string)
    (directory : string) (v : Z) (silent : bool) :
  (Cli.timeoutAction v = None <-> 0 <= v <= 65535)
  /\ (forall pm,
        Cli.timeoutAction v = None ->
        Cli.Action w args directory v silent = inr pm ->
        Manager.timeout pm = v * 1000000000
        /\ 0 <= Manager.timeout pm <= 65535000000000
        /\ args <> []
        /\ Manager.New w (Manager.mkConfig args directory v silent) = inr pm)
  /\ (args = [] -> Cli.Action w args directory v silent = inl Cli.ErrNoCommands)
  /\ (forall e,
        args <> [] ->
        Manager.New w (Manager.mkConfig args directory v silent) = inl e ->
        Cli.Action w args directory v silent = inl (Cli.ErrNew e)).
Proof.
  assert (Hflag : Cli.timeoutAction v = None <-> 0 <= v <= 65535).
  { unfold Cli.timeoutAction.
    destruct (Z.ltb_spec v 0); [split; [discriminate|lia]|].
    unfold Z.geb. destruct (Z.compare_spec v 65536);
      split; try discriminate; try reflexivity; lia. }
  split; [exact Hflag|]. split; [|split].
  - intros pm Hv Hact. apply Hflag in Hv. unfold Cli.Action in Hact.
    destruct args as [|a args]; [discriminate|]. cbn [length Nat.ltb Nat.leb] in Hact.
    destruct (Manager.New w (Manager.mkConfig (a :: args) directory v silent))
      as [e|pm'] eqn:Hnew; [discriminate|].
    injection Hact as ->.
    pose proof (New_timeout w _ pm Hnew) as Ht. cbn [Manager.Timeout] in Ht.
    unfold Manager.Second in Ht. rewrite wrap64_small in Ht.
    + split; [exact Ht|]. split; [lia|]. split; [discriminate|reflexivity].
    + change (2 ^ 63) with 9223372036854775808. lia.
  - intros ->. reflexivity.
  - intros e Hargs Hnew. unfold Cli.Action.
    destruct args as [|a args]; [contradiction|].
    cbn [length Nat.ltb Nat.leb]. rewrite Hnew. reflexivity.
Qed.

Lemma timeout_flag_bounds_witness :
  Manager.timeout (testManager ["ls"]) = 5 * 1000000000.
Proof.
  refine (proj1 (proj1 (proj2 (timeout_flag_bounds testWorld ["ls"] "." 5 false))
                   (testManager ["ls"]) _ _)).
  - reflexivity.
  - reflexivity.
Defined.

(** * Styles *)

Lemma app_inj_r (s t u : string) : s +:+ u = t +:+ u -> s = t.
Proof.
  revert t. induction s as [|c s IH]; intros t H.
  - destruct t as [|d t]; [reflexivity|].
    apply (f_equal String.length) in H.
    rewrite !String_length_app in H. simpl in H. lia.
  - destruct t as [|d t].
    + apply (f_equal String.length) in H.
      rewrite !String_length_app in H. simpl in H. lia.
    + change (String c s +:+ u) with (String c (s +:+ u)) in H.
      change (String d t +:+ u) with (String d (t +:+ u)) in H.
      injection H as -> H. f_equal. apply IH, H.
Qed.

(** X22.  The styles of package ansi: with colours off every style leaves
    the text as it is; with colours on a style wraps the text so that the
    text can be recovered, and no text in one style is a text in another:
    an error line is never a status line. *)
Theorem styles_distinct (s t : string) :
  (ansi.Red true s = s /\ Style.Gray true s = s /\ ansi.Dim true s = s
   /\ Style.Bold true s = s)
  /\ (ansi.Red false s = ansi.Red false t -> s = t)
  /\ (Style.Gray false s = Style.Gray false t -> s = t)
  /\ (ansi.Dim false s = ansi.Dim false t -> s = t)
  /\ (Style.Bold false s = Style.Bold false t -> s = t)
  /\ ansi.Red false s <> ansi.Dim false t
  /\ ansi.Red false s <> Style.Gray false t
  /\ ansi.Red false s <> Style.Bold false t
  /\ ansi.Dim false s <> Style.Gray false t
  /\ ansi.Dim false s <> Style.Bold false t
  /\ Style.Gray false s <> Style.Bold false t.
Proof.
  assert (Hinj : forall (p : string) (a b : string),
            ansi.ESC +:+ p +:+ a +:+ ansi.ESC +:+ "[0m"
            = ansi.ESC +:+ p +:+ b +:+ ansi.ESC +:+ "[0m" -> a = b).
  { intros p a b H. apply app_inj_l, app_inj_l, app_inj_r in H. exact H. }
  split; [repeat split|].
  split; [apply Hinj|]. split; [apply Hinj|].
  split; [apply Hinj|]. split; [apply Hinj|].
  unfold ansi.Red, ansi.Dim, Style.Gray, Style.Bold, ansi.ESC.
  repeat split; intros H; simpl in H; discriminate.
Qed.

Lemma styles_distinct_witness :
  "Error:" = "Error:" /\ ansi.Red false "Error:" <> ansi.Dim false "Error:".
Proof.
  destruct (styles_distinct "Error:" "Error:") as (_ & H1 & _ & _ & _ & H2 & _).
  split; [apply H1; reflexivity|exact H2].
Defined.

Lemma signals_only_to_running_witness :
  Proc.Running testProcess = true /\ Process testProcess = Some (- - 4242).
Proof.
  destruct (signals_only_to_running testWorld testOutput testProcess None)
    as (_ & _ & H & _).
  destruct (H (- 4242) SIGINT) as (H1 & H2 & _).
  - left. vm_compute. right. left.
  - split; assumption.
Defined.


(** * Package main *)

Module MainNames.

Lemma npmIndexesFrom_range k cmds j :
  j ∈ npmIndexesFrom k cmds ->
  (k <= j)%nat /\ exists c, cmds !! (j - k)%nat = Some c /\ isNpm c = true.
Proof.
  revert k. induction cmds as [|c cmds IH]; intros k H; simpl in H.
  - by apply elem_of_nil in H.
  - assert (Hrest : j ∈ npmIndexesFrom (S k) cmds ->
              (k <= j)%nat
              /\ exists c0, (c :: cmds) !! (j - k)%nat = Some c0
                            /\ isNpm c0 = true).
    { intros Hin. destruct (IH _ Hin) as (Hle & c0 & Hc0 & Hn).
      split; [lia|]. exists c0. split; [|exact Hn].
      replace (j - k)%nat with (S (j - S k)) by lia. exact Hc0. }
    destruct (isNpm c) eqn:Hc; [|auto].
    apply elem_of_cons in H as [->|H]; [|auto].
    split; [lia|]. exists c. rewrite Nat.sub_diag. auto.
Qed.

Lemma npmIndexesFrom_complete k cmds i c :
  cmds !! i = Some c -> isNpm c = true -> (k + i)%nat ∈ npmIndexesFrom k cmds.
Proof.
  revert k i. induction cmds as [|c0 cmds IH]; intros k i Hi Hc.
  - discriminate.
  - destruct i as [|i]; simpl in *.
    + injection Hi as ->. rewrite Hc, Nat.add_0_r. by left.
    + replace (k + S i)%nat with (S k + i)%nat by lia.
      destruct (isNpm c0); [right|]; apply IH; assumption.
Qed.

Lemma npmIndexesFrom_NoDup k cmds : NoDup (npmIndexesFrom k cmds).
Proof.
  revert k. induction cmds as [|c cmds IH]; intros k; simpl.
  - constructor.
  - destruct (isNpm c); [|apply IH]. constructor; [|apply IH].
    intros H. apply npmIndexesFrom_range in H as [H _]. lia.
Qed.

Lemma nameLoop_spec cmds :
  forall i named idxs,
    Main.nameLoop i cmds named idxs
    = (named ++ map (fun c => mkCommand (derivedName c) c) cmds,
       idxs ++ npmIndexesFrom i cmds).
Proof.
  induction cmds as [|c cmds IH]; intros i named idxs.
  - simpl. rewrite !app_nil_r. reflexivity.
  - simpl. fold (derivedName c). fold (isNpm c). rewrite IH.
    rewrite <- !app_assoc. destruct (isNpm c); [rewrite <- app_assoc|];
      reflexivity.
Qed.

Lemma resolve_fold (scripts : gmap string string) (idxs : list nat) :
  forall named missing,
    NoDup idxs -> (forall idx, idx ∈ idxs -> (idx < length named)%nat) ->
    exists named' missing',
      foldl (Main.resolveIndex scripts) (named, missing) idxs
      = (named', missing')
      /\ length named' = length named
      /\ (forall i, i ∉ idxs -> named' !! i = named !! i)
      /\ (missing' = [] ->
          missing = []
          /\ forall i c,
               i ∈ idxs -> named !! i = Some c ->
               exists s,
                 scripts !! strings.TrimPrefix (name c) "npm:" = Some s
                 /\ named' !! i
                    = Some (mkCommand (strings.TrimPrefix (name c) "npm:") s)).
Proof.
  induction idxs as [|idx idxs IH]; intros named missing Hnd Hlt.
  - exists named, missing. split; [reflexivity|]. split; [reflexivity|].
    split; [auto|]. intros ->. split; [reflexivity|].
    intros i c Hi. by apply elem_of_nil in Hi.
  - apply NoDup_cons in Hnd as [Hidx Hnd]. simpl.
    destruct (lookup_lt_is_Some_2 named idx) as [c0 Hc0];
      [apply Hlt; by left|].
    rewrite Hc0.
    destruct (scripts !! strings.TrimPrefix (name c0) "npm:") as [s|] eqn:Hs.
    + destruct (IH (<[idx := mkCommand (strings.TrimPrefix (name c0) "npm:") s]>
                      named) missing Hnd)
        as (named' & missing' & Hfold & Hlen & Hout & Hin).
      { intros j Hj. rewrite length_insert. apply Hlt. by right. }
      exists named', missing'. split; [exact Hfold|].
      split; [rewrite Hlen; apply length_insert|].
      split.
      * intros i Hi. rewrite Hout by (intros X; apply Hi; by right).
        apply list_lookup_insert_ne. intros ->. apply Hi. by left.
      * intros Hm. destruct (Hin Hm) as [-> Hres]. split; [reflexivity|].
        intros i c Hi Hc. apply elem_of_cons in Hi as [->|Hi].
        -- rewrite Hc0 in Hc. injection Hc as <-. exists s.
           split; [exact Hs|]. rewrite Hout by exact Hidx.
           apply list_lookup_insert_eq. apply lookup_lt_Some in Hc0. exact Hc0.
        -- apply Hres; [exact Hi|].
           rewrite list_lookup_insert_ne; [exact Hc|].
           intros ->. contradiction.
    + destruct (IH named (missing ++ [strings.TrimPrefix (name c0) "npm:"])
                   Hnd)
        as (named' & missing' & Hfold & Hlen & Hout & Hin).
      { intros j Hj. apply Hlt. by right. }
      exists named', missing'. split; [exact Hfold|].
      split; [exact Hlen|].
      split; [intros i Hi; apply Hout; intros X; apply Hi; by right|].
      intros Hm. destruct (Hin Hm) as [Hnil _].
      by apply app_eq_nil in Hnil as [_ ?].
Qed.

End MainNames.

(** X23.  The two programs agree on plain commands: when no command takes
    its name from an npm script, [newProcessManager] of package main and
    [parseCommands] of package tandem give the commands the same names,
    without reading any manifest. *)
Theorem main_agrees_on_plain_commands (w : World) (root : string)
    (cmds : list string) :
  (forall c, c ∈ cmds -> isNpm c = false) ->
  Main.namedCommands w root cmds
  = inr (Commands.renameDuplicates w
           (map (fun c => mkCommand (derivedName c) c) cmds))
  /\ Commands.parseCommands w root cmds
     = inr (Commands.renameDuplicates w
              (map (fun c => mkCommand (derivedName c) c) cmds)).
Proof.
  intros Hplain.
  assert (Hidx : npmIndexesFrom 0 cmds = []).
  { destruct (npmIndexesFrom 0 cmds) as [|j l] eqn:E; [reflexivity|].
    assert (Hj : j ∈ npmIndexesFrom 0 cmds) by (rewrite E; by left).
    apply MainNames.npmIndexesFrom_range in Hj as (_ & c & Hc & Hn).
    apply list_elem_of_lookup_2 in Hc. rewrite (Hplain c Hc) in Hn.
    discriminate. }
  split.
  - unfold Main.namedCommands. rewrite MainNames.nameLoop_spec, Hidx.
    reflexivity.
  - unfold Commands.parseCommands. rewrite classify_spec.
    unfold plainCommands, npmCommands.
    rewrite (filter_all (fun c => isNpm c = false) cmds Hplain).
    rewrite (filter_none (fun c => isNpm c = true) cmds)
      by (intros c Hc; rewrite (Hplain c Hc); discriminate).
    cbn [length Nat.ltb Nat.leb app]. reflexivity.
Qed.

Lemma main_agrees_on_plain_commands_witness :
  exists out,
    Main.namedCommands testWorld "/work" ["echo a"; "ls"; "echo b"] = inr out
    /\ Commands.parseCommands testWorld "/work" ["echo a"; "ls"; "echo b"]
       = inr out.
Proof.
  destruct (main_agrees_on_plain_commands testWorld "/work"
              ["echo a"; "ls"; "echo b"]) as [H1 H2].
  - intros c Hc.
    repeat (apply elem_of_cons in Hc as [->|Hc]; [reflexivity|]).
    by apply elem_of_nil in Hc.
  - eexists. split; [exact H1|exact H2].
Defined.

(** X24.  In package main an npm command stays where it was given: when
    [newProcessManager] succeeds there is one command per command given,
    in that order; a plain command keeps its name and command line, and a
    command whose name starts with [npm:] has the rest of that name as its
    name and the script of that name as its command line (what follows
    the first word of the command is dropped); duplicate names are then
    numbered along that list. *)
Theorem main_keeps_positions (w : World) (root : string)
    (cmds : list string) (out : list command) :
  range_ok w ->
  Main.namedCommands w root cmds = inr out ->
  exists scripts,
    out = numbered (map (placed scripts) cmds)
    /\ (forall c, c ∈ cmds -> isNpm c = true ->
          Main.parseNpmScripts w root = inr scripts
          /\ exists s, scripts !! strings.TrimPrefix (derivedName c) "npm:"
                       = Some s).
Proof.
  intros Hrange. unfold Main.namedCommands.
  rewrite MainNames.nameLoop_spec. cbn [app].
  destruct (npmIndexesFrom 0 cmds) as [|j0 js] eqn:Hidx.
  - cbn [length Nat.ltb Nat.leb]. intros H. injection H as <-.
    assert (Hplain : forall c, c ∈ cmds -> isNpm c = false).
    { intros c Hc. destruct (isNpm c) eqn:E; [|reflexivity].
      apply list_elem_of_lookup_1 in Hc as [i Hi].
      pose proof (MainNames.npmIndexesFrom_complete 0 cmds i c Hi E) as Hin.
      rewrite Hidx in Hin. by apply elem_of_nil in Hin. }
    exists ∅. split.
    + rewrite renameDuplicates_numbered by exact Hrange. f_equal.
      apply map_ext_in. intros c Hc. apply list_elem_of_In in Hc.
      unfold placed. rewrite (Hplain c Hc). reflexivity.
    + intros c Hc Hn. rewrite (Hplain c Hc) in Hn. discriminate.
  - rewrite <- Hidx. clear j0 js Hidx.
    destruct (length (npmIndexesFrom 0 cmds)) eqn:Hlen.
    { cbn [Nat.ltb Nat.leb]. intros H. injection H as <-.
      apply length_zero_iff_nil in Hlen.
      assert (Hplain : forall c, c ∈ cmds -> isNpm c = false).
      { intros c Hc. destruct (isNpm c) eqn:E; [|reflexivity].
        apply list_elem_of_lookup_1 in Hc as [i Hi].
        pose proof (MainNames.npmIndexesFrom_complete 0 cmds i c Hi E) as Hin.
        rewrite Hlen in Hin. by apply elem_of_nil in Hin. }
      exists ∅. split.
      - rewrite renameDuplicates_numbered by exact Hrange. f_equal.
        apply map_ext_in. intros c Hc. apply list_elem_of_In in Hc.
        unfold placed. rewrite (Hplain c Hc). reflexivity.
      - intros c Hc Hn. rewrite (Hplain c Hc) in Hn. discriminate. }
    cbn [Nat.ltb Nat.leb].
    destruct (Main.parseNpmScripts w root) as [e|scripts] eqn:Hscripts;
      [discriminate|].
    destruct (MainNames.resolve_fold scripts (npmIndexesFrom 0 cmds)
                (map (fun c => mkCommand (derivedName c) c) cmds) [])
      as (named' & missing' & Hfold & Hlen' & Hout & Hin).
    { apply MainNames.npmIndexesFrom_NoDup. }
    { intros idx Hidx. apply MainNames.npmIndexesFrom_range in Hidx
        as (_ & c & Hc & _).
      rewrite length_map. apply lookup_lt_Some in Hc. lia. }
    rewrite Hfold. destruct missing' as [|m ms]; [|discriminate].
    cbn [length Nat.ltb Nat.leb]. intros H. injection H as <-.
    destruct (Hin eq_refl) as [_ Hres].
    exists scripts. split.
    + rewrite renameDuplicates_numbered by exact Hrange. f_equal.
      apply list_eq. intros i.
      change (map (placed scripts) cmds) with (placed scripts <$> cmds).
      rewrite list_lookup_fmap.
      destruct (cmds !! i) as [c|] eqn:Hc.
      * simpl. unfold placed. destruct (isNpm c) eqn:Hn.
        -- pose proof (MainNames.npmIndexesFrom_complete 0 cmds i c Hc Hn)
             as Hi. simpl in Hi.
           destruct (Hres i (mkCommand (derivedName c) c) Hi) as (s & Hs & ->).
           { change (map ?f cmds) with (f <$> cmds).
             rewrite list_lookup_fmap, Hc. reflexivity. }
           cbn [name] in *. cbv zeta. rewrite Hs. reflexivity.
        -- rewrite Hout.
           ++ change (map ?f cmds) with (f <$> cmds).
              rewrite list_lookup_fmap, Hc. reflexivity.
           ++ intros Hi. apply MainNames.npmIndexesFrom_range in Hi
                as (_ & c' & Hc' & Hn').
              rewrite Nat.sub_0_r, Hc in Hc'. injection Hc' as <-.
              rewrite Hn in Hn'. discriminate.
      * simpl. apply lookup_ge_None. rewrite Hlen', length_map.
        apply lookup_ge_None in Hc. exact Hc.
    + intros c Hc Hn. split; [reflexivity|].
      apply list_elem_of_lookup_1 in Hc as [i Hi].
      pose proof (MainNames.npmIndexesFrom_complete 0 cmds i c Hi Hn) as Hidx.
      simpl in Hidx.
      destruct (Hres i (mkCommand (derivedName c) c) Hidx) as (s & Hs & _).
      { change (map ?f cmds) with (f <$> cmds).
        rewrite list_lookup_fmap, Hi. reflexivity. }
      exists s. exact Hs.
Qed.

Lemma main_keeps_positions_witness :
  Main.namedCommands testWorld "/work" ["npm:test --watch"; "ls"]
  = inr [mkCommand "test" "echo 'test'"; mkCommand "ls" "ls"].
Proof.
  destruct (main_keeps_positions testWorld "/work" ["npm:test --watch"; "ls"]
              [mkCommand "test" "echo 'test'"; mkCommand "ls" "ls"])
    as (scripts & _ & _).
  - exact testWorld_range_ok.
  - vm_compute. reflexivity.
  - vm_compute. reflexivity.
Defined.


(** * The lines of a process, byte by byte *)

Lemma prefix_app (p q : string) : String.prefix p (p +:+ q) = true.
Proof.
  induction p as [|c p IH]; [destruct q; reflexivity|].
  change (String c p +:+ q) with (String c (p +:+ q)). simpl.
  destruct (ascii_dec c c); [exact IH|contradiction].
Qed.

Lemma prefix_split (p s : string) :
  String.prefix p s = true -> exists q, s = p +:+ q.
Proof.
  revert s. induction p as [|c p IH]; intros s H.
  - exists s. reflexivity.
  - destruct s as [|d s]; simpl in H; [discriminate|].
    destruct (ascii_dec c d) as [->|]; [|discriminate].
    destruct (IH s H) as [q ->]. exists q. reflexivity.
Qed.

Lemma substring_all (q : string) : String.substring 0 (String.length q) q = q.
Proof. induction q as [|c q IH]; [reflexivity|]. simpl. rewrite IH. reflexivity. Qed.

Lemma substring_app (p q : string) :
  String.substring (String.length p) (String.length q) (p +:+ q) = q.
Proof.
  induction p as [|c p IH]; [apply substring_all|].
  change (String c p +:+ q) with (String c (p +:+ q)). simpl. exact IH.
Qed.

Lemma string_of_bytes_app (a b : list byte) :
  String.string_of_list_byte (a ++ b)
  = String.string_of_list_byte a +:+ String.string_of_list_byte b.
Proof.
  unfold String.string_of_list_byte.
  induction a as [|x a IH]; [reflexivity|].
  cbn [app List.map String.string_of_list_ascii]. rewrite IH. reflexivity.
Qed.

Lemma unprefixed_app (q : string) : unprefixed ("/bin/sh: " +:+ q) = q.
Proof.
  unfold unprefixed. rewrite prefix_app, String_length_app.
  change (String.length "/bin/sh: ") with 9%nat.
  replace (9 + String.length q - 9)%nat with (String.length q) by lia.
  apply (substring_app "/bin/sh: " q).
Qed.

Lemma TrimPrefix_unprefixed (text : string) :
  Output.TrimPrefix (bytes text) (bytes "/bin/sh: ") = bytes (unprefixed text).
Proof.
  destruct (String.prefix "/bin/sh: " text) eqn:E.
  - apply prefix_split in E as [q ->].
    rewrite unprefixed_app, bytes_app. apply TrimPrefix_app.
  - unfold unprefixed. rewrite E. apply TrimPrefix_other.
    intros q Hq.
    assert (text = "/bin/sh: " +:+ String.string_of_list_byte q) as Ht.
    { rewrite <- (String.string_of_list_byte_of_string text).
      fold (bytes text). rewrite Hq, string_of_bytes_app.
      unfold bytes. rewrite String.string_of_list_byte_of_string.
      reflexivity. }
    rewrite Ht, prefix_app in E. discriminate.
Qed.

Lemma label_bytes (w : World) (m : multiOutput) (p : process) :
  Output.label w m p = labelBytes w m p.
Proof.
  unfold Output.label, labelBytes, ansi.ColorStart, ansi.ColorEnd, escape.
  destruct (printProcName m); [|reflexivity].
  destruct (NoColor w); [reflexivity|].
  rewrite !bytes_app, bytes_ESC. simpl. rewrite <- !app_assoc. reflexivity.
Qed.

Lemma styled_record (w : World) (m : multiOutput) (p : process)
    (code text : string) :
  Write (Output.WriteLine w m p
           (bytes (if NoColor w then text
                   else ansi.ESC +:+ code +:+ text +:+ ansi.ESC +:+ "[0m")))
  = styledLine w m p code text.
Proof.
  unfold Output.WriteLine, styledLine. rewrite label_bytes.
  do 3 f_equal. destruct (NoColor w).
  - apply TrimPrefix_unprefixed.
  - rewrite !bytes_app, bytes_ESC.
    rewrite TrimPrefix_other by (intros q Hq; discriminate Hq).
    unfold escape. simpl. reflexivity.
Qed.

Lemma errorLine_bytes (w : World) (m : multiOutput) (p : process)
    (text : string) :
  errorLine w m p text = styledLine w m p redCode text.
Proof. apply (styled_record w m p redCode text). Qed.

Lemma dimLine_bytes (w : World) (m : multiOutput) (p : process)
    (text : string) :
  dimLine w m p text = styledLine w m p dimCode text.
Proof. apply (styled_record w m p dimCode text). Qed.

Lemma styledLine_inj_code (w : World) (m : multiOutput) (p : process)
    (s t : string) :
  NoColor w = false ->
  styledLine w m p dimCode s <> styledLine w m p redCode t.
Proof.
  intros Hnc. rewrite <- dimLine_bytes, <- errorLine_bytes.
  apply dim_not_red, Hnc.
Qed.

(** C2.  Once the pseudo-terminal is open, [Run] writes, between the
    opening and the closing of the pipe and after the dimmed line
    [Starting...] (unless silent): for an exit error with code 1 the text
    of the error as an error-coloured line; for an exit error with any
    other code [N] the dimmed line [exit status N], which with colours on
    is no error-coloured line; for any other error the text of the error
    as an error-coloured line; and for no error, unless silent, the dimmed
    line [Process exited].  Each line is given byte by byte: the label,
    then with colours on the text between the escape code of the style
    (red [ESC[0;31m], dim [ESC[0;2m]) and the reset [ESC[0m], with colours
    off the text alone, then a line feed. *)
Theorem Run_reports (w : World) (m : multiOutput) (p : process)
    (x : Proc.Execution) :
  Proc.ptyErr x = None ->
  let started :=
    if silent p then []
    else [styledLine w m p dimCode "Starting..."] in
  (forall text,
     Proc.runErr x = Some (ExitError 1 text) ->
     (Proc.Run w m p x).2
       = [PipeOpened] ++ started ++ [styledLine w m p redCode text]
         ++ [PipeClosed])
  /\ (forall code text,
       Proc.runErr x = Some (ExitError code text) -> code <> 1 ->
       (Proc.Run w m p x).2
         = [PipeOpened] ++ started
           ++ [styledLine w m p dimCode ("exit status " +:+ itoa code)]
           ++ [PipeClosed]
       /\ (NoColor w = false ->
           forall t, styledLine w m p dimCode ("exit status " +:+ itoa code)
                     <> styledLine w m p redCode t))
  /\ (forall text,
       Proc.runErr x = Some (OtherError text) ->
       (Proc.Run w m p x).2
         = [PipeOpened] ++ started ++ [styledLine w m p redCode text]
           ++ [PipeClosed])
  /\ (Proc.runErr x = None -> silent p = false ->
      (Proc.Run w m p x).2
        = [PipeOpened] ++ started
          ++ [styledLine w m p dimCode "Process exited"] ++ [PipeClosed]).
Proof.
  intros Hpty started. unfold started.
  unfold Proc.Run, Proc.writeErr, Proc.writeDebug, Proc.writeLine.
  rewrite Hpty. cbn [snd].
  fold (dimLine w m p "Starting..."). fold (dimLine w m p "Process exited").
  split; [|split; [|split]].
  - intros text ->. rewrite <- errorLine_bytes, <- dimLine_bytes.
    destruct (silent p); reflexivity.
  - intros code text -> Hcode.
    destruct (Z.eqb_spec code 1) as [E|_]; [contradiction|]. split.
    + rewrite <- !dimLine_bytes. destruct (silent p); reflexivity.
    + intros Hnc t. apply styledLine_inj_code, Hnc.
  - intros text ->. rewrite <- errorLine_bytes, <- dimLine_bytes.
    destruct (silent p); reflexivity.
  - intros -> ->. rewrite <- !dimLine_bytes. reflexivity.
Qed.

Lemma Run_reports_witness :
  (Proc.Run colourWorld testOutput testProcess
     (Proc.mkExecution None (Some 4242) (Some 1)
        (Some (ExitError 1 "exit status 1")))).2
  = [PipeOpened;
     Write (ESCb :: bytes "[0;38;5;2mecho.1 " ++ ESCb :: bytes "[0m "
            ++ ESCb :: bytes "[0;2mStarting..." ++ ESCb :: bytes "[0m"
            ++ ["010"%byte]);
     Write (ESCb :: bytes "[0;38;5;2mecho.1 " ++ ESCb :: bytes "[0m "
            ++ ESCb :: bytes "[0;31mexit status 1" ++ ESCb :: bytes "[0m"
            ++ ["010"%byte]);
     PipeClosed]
  /\ (Proc.Run testWorld testOutput testProcess
        (Proc.mkExecution None (Some 4242) (Some 2)
           (Some (ExitError 2 "exit status 2")))).2
     = [PipeOpened; Write (bytes "echo.1  Starting..." ++ ["010"%byte]);
        Write (bytes "echo.1  exit status 2" ++ ["010"%byte]); PipeClosed].
Proof.
  split.
  - destruct (Run_reports colourWorld testOutput testProcess
                (Proc.mkExecution None (Some 4242) (Some 1)
                   (Some (ExitError 1 "exit status 1"))) eq_refl)
      as (H & _).
    rewrite (H "exit status 1" eq_refl). reflexivity.
  - destruct (Run_reports testWorld testOutput testProcess
                (Proc.mkExecution None (Some 4242) (Some 2)
                   (Some (ExitError 2 "exit status 2"))) eq_refl)
      as (_ & H & _).
    destruct (H 2 "exit status 2" eq_refl) as [E _]; [lia|].
    rewrite E. reflexivity.
Defined.

(** C3.  [Running] holds exactly when the process handle is set and no
    exit state is recorded.  On a process that is not running [Interrupt]
    and [Kill] do nothing: no line, no signal.  On a running process that
    is not silent [Interrupt] writes the dimmed line [Interrupting...] and
    sends SIGINT to the process group (the negated pid), [Kill] writes the
    dimmed line [Killing...] and sends SIGKILL; a signal that fails adds
    its error as an error-coloured line.  The lines are given byte by
    byte: with colours on the text stands between [ESC[0;2m] and
    [ESC[0m]. *)
Theorem Interrupt_Kill_spec (w : World) (m : multiOutput) (p : process)
    (sigErr : option string) :
  (Proc.Running p = true <-> Process p <> None /\ ProcessState p = None)
  /\ (Proc.Running p = false ->
      Proc.Interrupt w m p sigErr = [] /\ Proc.Kill w m p sigErr = [])
  /\ (forall pid,
        Process p = Some pid -> ProcessState p = None -> silent p = false ->
        let failure :=
          match sigErr with
          | Some err => [styledLine w m p redCode err]
          | None => []
          end in
        Proc.Interrupt w m p sigErr
          = [styledLine w m p dimCode "Interrupting...";
             SendSignal (- pid) SIGINT] ++ failure
        /\ Proc.Kill w m p sigErr
          = [styledLine w m p dimCode "Killing...";
             SendSignal (- pid) SIGKILL] ++ failure)
  /\ (NoColor w = false ->
      styledLine w m p dimCode "Interrupting..."
      = Write (labelBytes w m p
               ++ ESCb :: bytes "[0;2mInterrupting..." ++ ESCb :: bytes "[0m"
               ++ ["010"%byte])
      /\ styledLine w m p dimCode "Killing..."
         = Write (labelBytes w m p
                  ++ ESCb :: bytes "[0;2mKilling..." ++ ESCb :: bytes "[0m"
                  ++ ["010"%byte]))
  /\ (NoColor w = true ->
      styledLine w m p dimCode "Interrupting..."
      = Write (labelBytes w m p ++ bytes "Interrupting..." ++ ["010"%byte])
      /\ styledLine w m p dimCode "Killing..."
         = Write (labelBytes w m p ++ bytes "Killing..." ++ ["010"%byte])).
Proof.
  split; [|split; [|split; [|split]]].
  - unfold Proc.Running.
    rewrite andb_true_iff, !bool_decide_eq_true. reflexivity.
  - intros H. unfold Proc.Interrupt, Proc.Kill. rewrite H. split; reflexivity.
  - intros pid Hp Hs Hsil failure. unfold failure.
    rewrite <- !dimLine_bytes.
    unfold Proc.Interrupt, Proc.Kill, Proc.Running, Proc.signal.
    rewrite Hp, Hs, Hsil.
    destruct sigErr; [rewrite <- errorLine_bytes|]; split; reflexivity.
  - intros Hnc. unfold styledLine. rewrite Hnc. split; reflexivity.
  - intros Hnc. unfold styledLine. rewrite Hnc. split; reflexivity.
Qed.

Lemma Interrupt_Kill_spec_witness :
  Proc.Interrupt colourWorld testOutput testProcess None
  = [Write (ESCb :: bytes "[0;38;5;2mecho.1 " ++ ESCb :: bytes "[0m "
            ++ ESCb :: bytes "[0;2mInterrupting..." ++ ESCb :: bytes "[0m"
            ++ ["010"%byte]);
     SendSignal (-4242) SIGINT]
  /\ Proc.Kill testWorld testOutput testProcess (Some "no such process")
     = [Write (bytes "echo.1  Killing..." ++ ["010"%byte]);
        SendSignal (-4242) SIGKILL;
        Write (bytes "echo.1  no such process" ++ ["010"%byte])].
Proof.
  split.
  - destruct (Interrupt_Kill_spec colourWorld testOutput testProcess None)
      as (_ & _ & H & _).
    destruct (H 4242 eq_refl eq_refl eq_refl) as [E _].
    rewrite E. reflexivity.
  - destruct (Interrupt_Kill_spec testWorld testOutput testProcess
                (Some "no such process")) as (_ & _ & H & _).
    destruct (H 4242 eq_refl eq_refl eq_refl) as [_ E].
    rewrite E. reflexivity.
Defined.


(** * The arms of the two selects *)

Module Escalation.
Import Manager ShutdownInvariants.
Section Arms.
Variable n : nat.
Variable timeout : Z.







End Arms.
End Escalation.




(** * The end of the stream *)

Lemma errorOf_returnedError (e : ioError) : errorOf e = returnedError e.
Proof.
  unfold errorOf. destruct e; simpl;
    rewrite ?bool_decide_eq_true_2 by discriminate;
    rewrite ?bool_decide_eq_false_2 by (intros H; by apply H); reflexivity.
Qed.

(** C4, as amended.  For a stream delivered in any non-empty chunks, whose
    bytes are the lines [lines], each followed by a line feed, and then
    [tail] without a line feed: [scanLines] calls the callback on every
    line in turn, whole and without its terminator (the line feed and a
    carriage return before it), and after the lines at most once more, on
    [tail]: not at all when [tail] is empty, once when it is not empty
    and shorter than the buffer; it stops at the first call that returns
    false and returns nil; otherwise it returns nil when the stream ends
    with [io.EOF] or [io.ErrClosedPipe] and the error of the stream when
    it is any other, as is the error a closed file gives. *)
Theorem scanLines_spec {St : Type} (callback : St -> list byte -> St * bool)
    (r : io.Reader) (st : St) (lines : list (list byte)) (tail : list byte) :
  Forall (fun c => c <> []) (io.chunks r) ->
  io.content r = terminated lines ++ tail ->
  Forall (fun l => bufio.LF ∉ l) lines -> bufio.LF ∉ tail ->
  (exists rest,
     (rest = [] \/ rest = [tail])
     /\ (tail = [] -> rest = [])
     /\ (tail <> [] -> (length tail < bufio.defaultBufSize)%nat ->
         rest = [tail])
     /\ Scan.scanLines callback r st
        = Some (finish (io.final r)
                  (Scan.feed callback st (map chomp lines ++ rest))))
  /\ errorOf EOF = None /\ errorOf ErrClosedPipe = None
  /\ (forall e, e <> EOF -> e <> ErrClosedPipe -> errorOf e = Some e)
  /\ (forall path, errorOf (ErrFileClosed path) = Some (ErrFileClosed path)).
Proof.
  intros Hchunks Hcontent Hlines Htail. split.
  - rewrite (Scanner.scanLines_linesOf callback r st Hchunks), Hcontent.
    rewrite (Scanner.linesOf_lines _ Scanner.defaultBufSize_ge2)
      by (assumption || lia).
    destruct (Scanner.linesOf_tail _ Scanner.defaultBufSize_ge2
                (length (terminated lines ++ tail) + 1) tail [] Htail)
      as [Hcases Hshort].
    { rewrite length_app. lia. }
    exists (linesOf bufio.defaultBufSize
              (length (terminated lines ++ tail) + 1) tail []).
    split; [exact Hcases|]. split; [|split; [exact Hshort|reflexivity]].
    intros ->. rewrite Nat.add_1_r, Scanner.linesOf_S.
    rewrite bool_decide_eq_true_2 by reflexivity. reflexivity.
  - split; [reflexivity|]. split; [reflexivity|]. split.
    + intros e H1 H2. unfold errorOf.
      rewrite !bool_decide_eq_true_2 by assumption. reflexivity.
    + intros path. rewrite errorOf_returnedError. reflexivity.
Qed.

Lemma scanLines_spec_witness :
  Scan.scanLines Scan.record testReader []
  = Some ([bytes "abc"; bytes "de"; bytes "xyz"], None).
Proof.
  destruct (scanLines_spec Scan.record testReader []
              [bytes "abc"; bytes ("de" +:+ creturn)] (bytes "xyz"))
    as [(rest & _ & _ & Hrest & H) _].
  - repeat constructor; discriminate.
  - vm_compute. reflexivity.
  - repeat constructor; apply Scanner.IndexByte_None; vm_compute; reflexivity.
  - apply Scanner.IndexByte_None. vm_compute. reflexivity.
  - rewrite H, Hrest.
    + vm_compute. reflexivity.
    + discriminate.
    + apply Nat.ltb_lt. vm_compute. reflexivity.
Defined.

(** C4, as stated, fails for the handle the program reads: the error a
    closed file gives is not [io.ErrClosedPipe], and [scanLines] returns
    it. *)
Lemma scanLines_closed_file_is_error :
  Scan.scanLines Scan.record
    (io.mkReader [bytes ("abc" +:+ newline)] (ErrFileClosed "/dev/ptmx")) []
  = Some ([bytes "abc"], Some (ErrFileClosed "/dev/ptmx"))
  /\ ErrFileClosed "/dev/ptmx" <> ErrClosedPipe
  /\ ErrFileClosed "/dev/ptmx" <> EOF.
Proof. split; [vm_compute; reflexivity|]. split; discriminate. Qed.

(** X14.  The goroutine of [PipeOutput] writes one record for every line
    the process prints, in the order printed: the line without its
    terminator, behind the label of the process.  It never stops before
    the stream ends; [scanLines] then returns nil when the stream ended
    with [io.EOF] or [io.ErrClosedPipe] and the error of the stream
    otherwise, as it does for the error a closed pseudo-terminal gives. *)
Theorem PipeOutput_forwards (w : World) (m : multiOutput) (proc : process)
    (r : io.Reader) (lines : list (list byte)) :
  Forall (fun c => c <> []) (io.chunks r) ->
  io.content r = terminated lines ->
  Forall (fun l => bufio.LF ∉ l) lines ->
  Pipes.forward w m proc r
  = Some (map (fun l => Write (Output.WriteLine w m proc (chomp l))) lines,
          match io.final r with
          | EOF | ErrClosedPipe => None
          | e => Some e
          end).
Proof.
  intros Hchunks Hcontent Hlines. unfold Pipes.forward.
  rewrite (Scanner.scanLines_linesOf _ r [] Hchunks), Hcontent.
  rewrite <- (app_nil_r (terminated lines)).
  rewrite (Scanner.linesOf_lines _ Scanner.defaultBufSize_ge2)
    by (assumption || lia).
  rewrite Nat.add_1_r, Scanner.linesOf_S.
  rewrite bool_decide_eq_true_2 by reflexivity.
  rewrite app_nil_r, Lines.feed_writer. unfold finish. cbn [fst snd app].
  rewrite map_map, errorOf_returnedError.
  destruct (io.final r); reflexivity.
Qed.

Lemma PipeOutput_forwards_witness :
  Pipes.forward testWorld testOutput testProcess
    (io.mkReader [bytes "hel"; bytes ("lo" +:+ creturn +:+ newline +:+ "wor");
                  bytes ("ld" +:+ newline)] (ErrFileClosed "/dev/ptmx"))
  = Some ([Write (bytes ("echo.1  hello" +:+ newline));
           Write (bytes ("echo.1  world" +:+ newline))],
          Some (ErrOther "read /dev/ptmx: file already closed")).
Proof.
  refine (PipeOutput_forwards testWorld testOutput testProcess
            (io.mkReader [bytes "hel";
                          bytes ("lo" +:+ creturn +:+ newline +:+ "wor");
                          bytes ("ld" +:+ newline)] (ErrFileClosed "/dev/ptmx"))
            [bytes ("hello" +:+ creturn); bytes "world"] _ _ _).
  - repeat constructor; discriminate.
  - reflexivity.
  - repeat constructor; apply Scanner.IndexByte_None; vm_compute; reflexivity.
Defined.


(** * The place of the npm commands *)

Lemma parseNpmScripts_groups (w : World) (b : list byte)
    (scripts : gmap string string) (cmds : list string)
    (out : list command) :
  range_ok w ->
  Unmarshal w b = inr scripts ->
  Commands.parseNpmScripts w b cmds = inr out ->
  exists groups,
    out = concat groups
    /\ Forall2 (fun c g =>
                  g <> []
                  /\ g ≡ₚ resolution w scripts (strings.TrimPrefix c "npm:"))
               cmds groups.
Proof.
  intros Hrange Hb H. unfold Commands.parseNpmScripts in H. rewrite Hb in H.
  destruct (Commands.npmLoop w scripts 0 cmds [] []) as [e|[result missing]]
    eqn:Hloop; [discriminate|].
  destruct (npmLoop_resolution w scripts Hrange _ _ _ _ _ _ Hloop)
    as (groups & -> & Hg & ->).
  cbn [app] in *.
  destruct (missingNames scripts (scriptNames cmds)) as [|m ms] eqn:Hm;
    [|discriminate].
  injection H as <-. exists groups. split; [reflexivity|].
  clear Hloop. revert groups Hg Hm.
  induction cmds as [|c cmds IH]; intros groups Hg Hm.
  - inversion Hg. constructor.
  - inversion Hg as [|c' g cmds' gs [Hperm Hc] Hrest]; subst.
    change (scriptNames (c :: cmds))
      with (strings.TrimPrefix c "npm:" :: scriptNames cmds) in Hm.
    rewrite missingNames_cons in Hm. apply app_eq_nil in Hm as [Hm1 Hm2].
    constructor; [|apply IH; assumption].
    split; [|exact Hperm].
    intros Hnil. apply (Hc Hnil).
    change (scriptNames [c]) with [strings.TrimPrefix c "npm:"].
    rewrite missingNames_cons, Hm1. reflexivity.
Qed.

Lemma parseCommands_groups (w : World) (root : string) (cmds : list string)
    (out : list command) :
  range_ok w ->
  Commands.parseCommands w root cmds = inr out ->
  exists groups,
    out = numbered (plainCommands cmds ++ concat groups)
    /\ length groups = length (npmCommands cmds)
    /\ (npmCommands cmds <> [] ->
        exists b scripts,
          ReadFile w (Join w root "package.json") = inr b
          /\ Unmarshal w b = inr scripts
          /\ Forall2 (fun c g =>
                        g <> []
                        /\ g ≡ₚ resolution w scripts
                                  (strings.TrimPrefix c "npm:"))
                     (npmCommands cmds) groups).
Proof.
  intros Hrange. unfold Commands.parseCommands. rewrite classify_spec.
  cbn [app].
  destruct (npmCommands cmds) as [|n0 ns] eqn:Hnpm.
  - cbn [length Nat.ltb Nat.leb]. intros H. injection H as <-. exists [].
    cbn [concat]. rewrite app_nil_r.
    rewrite renameDuplicates_numbered by exact Hrange.
    split; [reflexivity|]. split; [reflexivity|]. intros H. contradiction.
  - cbn [length Nat.ltb Nat.leb].
    destruct (ReadFile w (Join w root "package.json")) as [e|b] eqn:Hread;
      [discriminate|].
    destruct (Commands.parseNpmScripts w b (n0 :: ns)) as [e|resolved]
      eqn:Hparse; [discriminate|].
    intros H. injection H as <-.
    destruct (Unmarshal w b) as [e|scripts] eqn:Hb.
    { unfold Commands.parseNpmScripts in Hparse. rewrite Hb in Hparse.
      discriminate. }
    destruct (parseNpmScripts_groups w b scripts (n0 :: ns) resolved
                Hrange Hb Hparse) as (groups & -> & Hg).
    exists groups. rewrite renameDuplicates_numbered by exact Hrange.
    split; [reflexivity|].
    split; [symmetry; apply (Forall2_length _ _ _ Hg)|].
    intros _. exists b, scripts. auto.
Qed.

Lemma colourAt_colors (i : nat) :
  default 0 (Manager.colors !! (i mod length Manager.colors)%nat)
  = colourAt i.
Proof.
  unfold colourAt. change (length Manager.colors) with 10%nat.
  rewrite nth_lookup. reflexivity.
Qed.

(** C9.  When [New] succeeds, [parseCommands] has returned the plain
    commands in the order supplied, followed by what the npm commands
    resolve to: one group of scripts for every npm command, in the order
    of the npm commands, each group not empty and made of the script of
    that name or else of the scripts its wildcard matches; duplicate
    names are numbered along this list; the processes are made in the
    order of this list, each running its command under [/bin/sh -c], the
    colour of each chosen by its position in this list. *)
Theorem npm_commands_come_last (w : World) (cfg : Manager.Config)
    (pm : Manager.ProcessManager) :
  range_ok w ->
  Manager.New w cfg = inr pm ->
  exists root groups,
    let ordered := plainCommands (Manager.Cmds cfg) ++ concat groups in
    Abs w (Manager.Root cfg) = inr root
    /\ Commands.parseCommands w root (Manager.Cmds cfg)
       = inr (numbered ordered)
    /\ map cmd (numbered ordered)
       = filter (fun c => isNpm c = false) (Manager.Cmds cfg)
         ++ map cmd (concat groups)
    /\ length groups = length (npmCommands (Manager.Cmds cfg))
    /\ (npmCommands (Manager.Cmds cfg) <> [] ->
        exists b scripts,
          ReadFile w (Join w root "package.json") = inr b
          /\ Unmarshal w b = inr scripts
          /\ Forall2 (fun c g =>
                        g <> []
                        /\ g ≡ₚ resolution w scripts
                                  (strings.TrimPrefix c "npm:"))
                     (npmCommands (Manager.Cmds cfg)) groups)
    /\ Manager.procs pm
       = imap (processOf root (environment w cfg) (Manager.Silent cfg))
              (numbered ordered)
    /\ map Name (Manager.procs pm) = map name (numbered ordered)
    /\ map Args (Manager.procs pm)
       = map (fun c => ["/bin/sh"; "-c"; cmd c]) (numbered ordered)
    /\ map Color (Manager.procs pm)
       = imap (fun i _ => colourAt i) (numbered ordered).
Proof.
  intros Hrange Hnew.
  destruct (New_spec w cfg pm Hnew) as (root & out & Ha & Hp & Hprocs).
  destruct (parseCommands_groups w root _ out Hrange Hp)
    as (groups & -> & Hlen & Hres).
  exists root, groups. cbv zeta. split; [exact Ha|]. split; [exact Hp|].
  split.
  { rewrite numbered_cmd, fmap_app, plainCommands_cmd. reflexivity. }
  split; [exact Hlen|]. split; [exact Hres|]. split; [exact Hprocs|].
  rewrite Hprocs.
  generalize (numbered (plainCommands (Manager.Cmds cfg) ++ concat groups)).
  intros l. split; [|split].
  - change (map Name ?x) with (Name <$> x). rewrite fmap_imap.
    change (map name l) with (name <$> l). rewrite <- imap_const.
    apply imap_ext. reflexivity.
  - change (map Args ?x) with (Args <$> x). rewrite fmap_imap.
    change (map ?f l) with (f <$> l). rewrite <- imap_const.
    apply imap_ext. reflexivity.
  - change (map Color ?x) with (Color <$> x). rewrite fmap_imap.
    apply imap_ext. intros i c _. apply colourAt_colors.
Qed.

Lemma npm_commands_come_last_witness :
  map (fun p => (Name p, Color p)) (Manager.procs
    (testManager ["npm:dev:*"; "ls -l"; "npm:test"; "/bin/ls"]))
  = [("ls.1", 2); ("ls.2", 3); ("dev:css", 4); ("dev:js", 5); ("test", 6)]
  /\ exists root groups,
       Commands.parseCommands testWorld root
         ["npm:dev:*"; "ls -l"; "npm:test"; "/bin/ls"]
       = inr (numbered (plainCommands
                          ["npm:dev:*"; "ls -l"; "npm:test"; "/bin/ls"]
                        ++ concat groups))
       /\ length groups = 2%nat.
Proof.
  destruct (npm_commands_come_last testWorld
              (testConfig ["npm:dev:*"; "ls -l"; "npm:test"; "/bin/ls"])
              (testManager ["npm:dev:*"; "ls -l"; "npm:test"; "/bin/ls"]))
    as (root & groups & _ & Hp & _ & Hlen & _).
  - split; intros; reflexivity.
  - vm_compute. reflexivity.
  - split; [vm_compute; reflexivity|].
    exists root, groups. split; [exact Hp|exact Hlen].
Defined.
